(** * Lowering of GEM tensor expressions to loopy kernels

    A shallow embedding of [tsfc/tsfc_to_loopy.py]: the conversion context
    with its symbol tables, the index and expression lowering with common
    subexpression elimination, the reduction rules, the stride utility and
    the entry point [tsfc_to_loopy], followed by the properties proved about
    them. *)

From Stdlib Require Import List String Ascii Bool Arith ZArith QArith Lia.
From Stdlib Require Import DecimalString DecimalNat.
From Stdlib Require Import Permutation.
Import ListNotations.

Scheme All for list.
Scheme All for prod.

Local Close Scope Q_scope.
Local Open Scope string_scope.
Local Open Scope list_scope.

(** ** Python values *)

(** Array entries and the numbers of lowered expressions.  A number is kept
    in lowest terms, so that equal numbers are equal terms. *)
Definition scalar := Q.

Definition scalar_eqb (a b : scalar) : bool :=
  Z.eqb (Qnum a) (Qnum b) && Pos.eqb (Qden a) (Qden b).

Definition scalar_of_Z (z : Z) : scalar := inject_Z z.

(** [bool(x)] of a Python number. *)
Definition scalar_nonzero (a : scalar) : bool := negb (Z.eqb (Qnum a) 0).

(** A numpy array: its shape and its entries in row-major order. *)
Record ndarray : Type := mk_ndarray {
  nd_shape : list nat;
  nd_flat : list scalar
}.

(** Python exceptions that the lowering can raise. *)
Inductive exn : Type :=
| NotImplementedError (msg : string)
| AssertionError
| AttributeError (msg : string)
| ValueError (msg : string)
| TypeError (msg : string)
| KeyError.

Inductive result (A : Type) : Type :=
| Ok (a : A)
| Raise (e : exn).
Arguments Ok {A} a.
Arguments Raise {A} e.

(** ** Generic list utilities *)

Section ListEq.
Context {A : Type} (eqb : A -> A -> bool).

Fixpoint list_eqb (l1 l2 : list A) : bool :=
  match l1, l2 with
  | [], [] => true
  | a :: l1', b :: l2' => eqb a b && list_eqb l1' l2'
  | _, _ => false
  end.

(** Python's [x in l]. *)
Fixpoint contains (x : A) (l : list A) : bool :=
  match l with
  | [] => false
  | y :: l' => eqb y x || contains x l'
  end.
End ListEq.

Definition option_eqb {A : Type} (eqb : A -> A -> bool) (a b : option A) : bool :=
  match a, b with
  | None, None => true
  | Some x, Some y => eqb x y
  | _, _ => false
  end.

(** ** Dictionaries

    A Python [dict] as an association list in insertion order; keys are
    compared with the key type's [==]. *)
Section Dict.
Context {K V : Type} (eqb : K -> K -> bool).

Fixpoint dict_get (d : list (K * V)) (k : K) : option V :=
  match d with
  | [] => None
  | (k', v) :: d' => if eqb k' k then Some v else dict_get d' k
  end.

(** [d[k] = v]: the entry of an existing key is overwritten in place, a
    new key is appended. *)
Fixpoint dict_set (d : list (K * V)) (k : K) (v : V) : list (K * V) :=
  match d with
  | [] => [(k, v)]
  | (k', v') :: d' =>
      if eqb k' k then (k', v) :: d' else (k', v') :: dict_set d' k v
  end.

(** [six.itervalues(d)]. *)
Definition dict_values (d : list (K * V)) : list V := map snd d.
End Dict.

(** ** The GEM expression language (module [gem.gem], imported as [g])

    A node is an object with a class, its [children] and its
    [free_indices]; the class carries the attributes that the lowering
    reads. *)

(** [g.Index]: a loop index with its optional name, its serial number and
    its extent. *)
Record Index : Type := mk_Index {
  idx_name : option string;
  idx_count : nat;
  idx_extent : Z
}.

Inductive node : Type :=
| Node (cls : gem_class) (children : list node) (free_indices : list Index)
with gem_class : Type :=
| g_Identity (dim : nat)
| g_Literal (array : ndarray)
| g_Zero (shape : list nat)
| g_Variable (name : string) (shape : list (option nat))
| g_Sum
| g_Product
| g_Division
| g_Power
| g_MathFunction (name : string)
| g_MinValue
| g_MaxValue
| g_Comparison (operator : string)
| g_Indexed (multiindex : list index)
| g_FlexiblyIndexed (dim2idxs : list (Z * list (index * Z)))
| g_IndexSum (multiindex : list Index)
| OtherNode (typename : string)
with index : Type :=
| g_Index (i : Index)
| g_VariableIndex (expression : node)
| IntIndex (z : Z)
| OtherIndex (typename : string).

Definition node_cls (n : node) : gem_class :=
  match n with Node cls _ _ => cls end.

Definition node_children (n : node) : list node :=
  match n with Node _ children _ => children end.

Definition node_free_indices (n : node) : list Index :=
  match n with Node _ _ fi => fi end.

(** [node.shape]: an attribute of variables, the shape of the array of a
    literal, and [()] for the scalar-valued operators. *)
Definition node_shape (n : node) : list (option nat) :=
  match node_cls n with
  | g_Variable _ shape => shape
  | g_Literal array => map Some (nd_shape array)
  | g_Zero shape => map Some shape
  | g_Identity dim => [Some dim; Some dim]
  | _ => []
  end.

(** [type(node).__name__]. *)
Definition type_name (n : node) : string :=
  match node_cls n with
  | g_Identity _ => "Identity"
  | g_Literal _ => "Literal"
  | g_Zero _ => "Zero"
  | g_Variable _ _ => "Variable"
  | g_Sum => "Sum"
  | g_Product => "Product"
  | g_Division => "Division"
  | g_Power => "Power"
  | g_MathFunction _ => "MathFunction"
  | g_MinValue => "MinValue"
  | g_MaxValue => "MaxValue"
  | g_Comparison _ => "Comparison"
  | g_Indexed _ => "Indexed"
  | g_FlexiblyIndexed _ => "FlexiblyIndexed"
  | g_IndexSum _ => "IndexSum"
  | OtherNode typename => typename
  end.

(** *** Equality of keys *)

Definition ndarray_eqb (a b : ndarray) : bool :=
  list_eqb Nat.eqb (nd_shape a) (nd_shape b) &&
  list_eqb scalar_eqb (nd_flat a) (nd_flat b).

(** [np.array_equal]. *)
Definition array_equal (a b : ndarray) : bool := ndarray_eqb a b.

Definition Index_eqb (i j : Index) : bool :=
  option_eqb String.eqb (idx_name i) (idx_name j) &&
  Nat.eqb (idx_count i) (idx_count j) &&
  Z.eqb (idx_extent i) (idx_extent j).

Definition shape_eqb (s t : list (option nat)) : bool :=
  list_eqb (option_eqb Nat.eqb) s t.

(** [==] on nodes, as dictionary keys compare them. *)
Fixpoint node_eqb (n m : node) {struct n} : bool :=
  match n, m with
  | Node c1 ch1 fi1, Node c2 ch2 fi2 =>
      cls_eqb c1 c2 && list_eqb node_eqb ch1 ch2 && list_eqb Index_eqb fi1 fi2
  end
with cls_eqb (c d : gem_class) {struct c} : bool :=
  match c, d with
  | g_Identity a, g_Identity b => Nat.eqb a b
  | g_Literal a, g_Literal b => ndarray_eqb a b
  | g_Zero a, g_Zero b => list_eqb Nat.eqb a b
  | g_Variable a s, g_Variable b t => String.eqb a b && shape_eqb s t
  | g_Sum, g_Sum => true
  | g_Product, g_Product => true
  | g_Division, g_Division => true
  | g_Power, g_Power => true
  | g_MathFunction a, g_MathFunction b => String.eqb a b
  | g_MinValue, g_MinValue => true
  | g_MaxValue, g_MaxValue => true
  | g_Comparison a, g_Comparison b => String.eqb a b
  | g_Indexed a, g_Indexed b => list_eqb index_eqb a b
  | g_FlexiblyIndexed a, g_FlexiblyIndexed b =>
      list_eqb
        (fun x y =>
           Z.eqb (fst x) (fst y) &&
           list_eqb (fun p q => index_eqb (fst p) (fst q) && Z.eqb (snd p) (snd q))
             (snd x) (snd y))
        a b
  | g_IndexSum a, g_IndexSum b => list_eqb Index_eqb a b
  | OtherNode a, OtherNode b => String.eqb a b
  | _, _ => false
  end
with index_eqb (i j : index) {struct i} : bool :=
  match i, j with
  | g_Index a, g_Index b => Index_eqb a b
  | g_VariableIndex a, g_VariableIndex b => node_eqb a b
  | IntIndex a, IntIndex b => Z.eqb a b
  | OtherIndex a, OtherIndex b => String.eqb a b
  | _, _ => false
  end.

(** ** Lowered expressions (module [pymbolic.primitives], imported as [p])

    A subscript carries its [index_tuple]; [p_Reduction] is loopy's
    reduction node, which is a pymbolic expression as well. *)
Inductive pexpr : Type :=
| p_Num (v : scalar)
| p_Variable (name : string)
| p_Subscript (aggregate : pexpr) (index_tuple : list pexpr)
| p_Call (function : pexpr) (parameters : list pexpr)
| p_Sum (children : list pexpr)
| p_Product (children : list pexpr)
| p_Quotient (numerator denominator : pexpr)
| p_Power (base exponent : pexpr)
| p_Min (children : list pexpr)
| p_Max (children : list pexpr)
| p_Comparison (left : pexpr) (operator : string) (right : pexpr)
| p_Reduction (operation : string) (inames : list string) (expr : pexpr).

(** The operations of pymbolic that the lowering calls.  pymbolic is an
    external library; the definitions follow its operator overloads on
    expressions and numbers.

    [bool(e)]: a number is true when it is not zero, a sum of one child is
    as true as the child, a product is true when all its factors are,
    every other expression is true. *)
Fixpoint p_bool (e : pexpr) : bool :=
  match e with
  | p_Num v => scalar_nonzero v
  | p_Sum [c] => p_bool c
  | p_Product cs => forallb p_bool cs
  | _ => true
  end.

(** [a + b] with pymbolic's operator overloading: numbers add, a zero
    operand is dropped and sums are flattened. *)
Definition p_add (a b : pexpr) : pexpr :=
  match a with
  | p_Num x =>
      match b with
      | p_Num y => p_Num (Qred (x + y))
      | _ => if scalar_nonzero x
             then (if p_bool b then p_Sum [a; b] else a)
             else b
      end
  | p_Sum ca =>
      match b with
      | p_Sum cb => p_Sum (ca ++ cb)
      | _ => if p_bool b then p_Sum (ca ++ [b]) else a
      end
  | _ =>
      if p_bool b
      then (if p_bool a
            then match b with
                 | p_Sum cb => p_Sum (a :: cb)
                 | _ => p_Sum [a; b]
                 end
            else b)
      else a
  end.

(** [a * s] for an integer [s]: a factor one is dropped and a factor zero
    gives the number zero. *)
Definition p_mul (a : pexpr) (s : Z) : pexpr :=
  match a with
  | p_Num x => p_Num (Qred (x * scalar_of_Z s))
  | p_Product ca =>
      if Z.eqb s 0 then p_Num (scalar_of_Z 0)
      else if Z.eqb s 1 then a
      else p_Product (ca ++ [p_Num (scalar_of_Z s)])
  | _ =>
      if Z.eqb s 1 then a
      else if Z.eqb s 0 then p_Num (scalar_of_Z 0)
      else p_Product [a; p_Num (scalar_of_Z s)]
  end.

(** [DependencyMapper(composite_leaves=False)]: the variables of an
    expression, also below subscripts and calls.  The mapper returns a set
    of [p.Variable]s; the set is kept as the list of the names of its
    elements, without repetition.  The order of that list is not the
    order in which Python iterates over the set: see [list_of_set]. *)
Definition add_name (acc : list string) (x : string) : list string :=
  if contains String.eqb x acc then acc else acc ++ [x].

Fixpoint dependencies (acc : list string) (e : pexpr) : list string :=
  let deps_list := fix deps_list (acc : list string) (l : list pexpr) :=
    match l with
    | [] => acc
    | c :: l' => deps_list (dependencies acc c) l'
    end in
  match e with
  | p_Num _ => acc
  | p_Variable x => add_name acc x
  | p_Subscript a idx => deps_list (dependencies acc a) idx
  | p_Call f ps => deps_list (dependencies acc f) ps
  | p_Sum cs => deps_list acc cs
  | p_Product cs => deps_list acc cs
  | p_Quotient n d => dependencies (dependencies acc n) d
  | p_Power b x => dependencies (dependencies acc b) x
  | p_Min cs => deps_list acc cs
  | p_Max cs => deps_list acc cs
  | p_Comparison l _ r => dependencies (dependencies acc l) r
  | p_Reduction _ _ x => dependencies acc x
  end.

(** The mapper applied to a tuple of expressions. *)
Definition DependencyMapper (index_tuple : list pexpr) : list string :=
  fold_left dependencies index_tuple [].

(** ** Kernel objects (module [loopy], imported as [lp]) *)

Record lp_Assignment : Type := mk_Assignment {
  assignee : pexpr;
  expression : pexpr;
  forced_iname_deps : list string;
  forced_iname_deps_is_final : bool;
  tags : list string
}.

Record lp_SubstitutionRule : Type := mk_SubstitutionRule {
  rule_name : string;
  rule_arguments : list string;
  rule_expression : pexpr
}.

Inductive temp_var_scope : Type := GLOBAL | PRIVATE.

Record lp_TemporaryVariable : Type := mk_TemporaryVariable {
  tv_name : string;
  tv_float64 : bool;
  tv_initializer : option ndarray;
  tv_scope : temp_var_scope;
  tv_read_only : bool
}.

(** An entry of the data list handed to [lp.make_kernel]. *)
Inductive kernel_data : Type :=
| Temporary (t : lp_TemporaryVariable)
| Ellipsis.

(** An entry of the instruction list handed to [lp.make_kernel]. *)
Inductive kernel_item : Type :=
| Insn (a : lp_Assignment)
| Rule (r : lp_SubstitutionRule).

(** An isl set that is a conjunction of axes [0 <= iname < length]. *)
Definition isl_set := list (string * Z).

(** The result of [lp.make_kernel]: the arguments it was called with. *)
Record kernel : Type := mk_kernel {
  knl_domains : list isl_set;
  knl_instructions : list kernel_item;
  knl_data : list kernel_data;
  knl_name : string
}.

(** [frozenset(l)]: the elements of [l] without repetition. *)
Definition frozenset (l : list string) : list string :=
  fold_left add_name l [].

(** ** Name allocation

    Modelled from the spec: the name allocator ([UniqueNameGenerator] of
    pytools is not among the sources).  A call returns the preferred base
    name when it is unused, and otherwise the first unused name among
    [base_0], [base_1], ...; the returned name is recorded as used. *)
Record UniqueNameGenerator : Type := mk_UniqueNameGenerator {
  existing_names : list string
}.

Definition string_of_nat (n : nat) : string :=
  NilZero.string_of_uint (Nat.to_uint n).

Definition numbered (based_on : string) (try_num : nat) : string :=
  based_on ++ "_" ++ string_of_nat try_num.

(** The search of the first unused numbered name; it takes at most as many
    steps as there are used names, which [fuel] counts. *)
Fixpoint first_unused (based_on : string) (existing : list string)
    (try_num fuel : nat) : string :=
  let var_name := numbered based_on try_num in
  match fuel with
  | O => var_name
  | S fuel' =>
      if contains String.eqb var_name existing
      then first_unused based_on existing (S try_num) fuel'
      else var_name
  end.

Definition get_unique_name (based_on : string) (existing : list string) : string :=
  if contains String.eqb based_on existing
  then first_unused based_on existing 0 (List.length existing)
  else based_on.

Definition UniqueNameGenerator_call (g : UniqueNameGenerator) (based_on : string)
    : string * UniqueNameGenerator :=
  let var_name := get_unique_name based_on (existing_names g) in
  (var_name, mk_UniqueNameGenerator (var_name :: existing_names g)).

(** ** The conversion context *)

Record ConversionContext : Type := mk_ConversionContext {
  expr_use_count : list (node * nat);
  name_gen : UniqueNameGenerator;
  index_to_iname_and_length : list (Index * (string * Z));
  var_to_name_and_shape : list (node * (string * list (option nat)));
  literal_to_name_and_array : list (node * (string * ndarray));
  node_to_var_name : list (node * string);
  node_to_inames : list (node * list Index);
  assignments : list (string * list string * pexpr);
  subst_rules : list lp_SubstitutionRule;
  cse_names : list string
}.

(** [ConversionContext.__init__]. *)
Definition ConversionContext_init (expr_use_count : list (node * nat))
    : ConversionContext :=
  {| expr_use_count := expr_use_count;
     name_gen := mk_UniqueNameGenerator [];
     index_to_iname_and_length := [];
     var_to_name_and_shape := [];
     literal_to_name_and_array := [];
     node_to_var_name := [];
     node_to_inames := [];
     assignments := [];
     subst_rules := [];
     cse_names := [] |}.

Definition set_name_gen (g : UniqueNameGenerator) (c : ConversionContext) :=
  mk_ConversionContext (expr_use_count c) g (index_to_iname_and_length c)
    (var_to_name_and_shape c) (literal_to_name_and_array c) (node_to_var_name c)
    (node_to_inames c) (assignments c) (subst_rules c) (cse_names c).

Definition set_index_to_iname_and_length d (c : ConversionContext) :=
  mk_ConversionContext (expr_use_count c) (name_gen c) d
    (var_to_name_and_shape c) (literal_to_name_and_array c) (node_to_var_name c)
    (node_to_inames c) (assignments c) (subst_rules c) (cse_names c).

Definition set_var_to_name_and_shape d (c : ConversionContext) :=
  mk_ConversionContext (expr_use_count c) (name_gen c) (index_to_iname_and_length c)
    d (literal_to_name_and_array c) (node_to_var_name c)
    (node_to_inames c) (assignments c) (subst_rules c) (cse_names c).

Definition set_literal_to_name_and_array d (c : ConversionContext) :=
  mk_ConversionContext (expr_use_count c) (name_gen c) (index_to_iname_and_length c)
    (var_to_name_and_shape c) d (node_to_var_name c)
    (node_to_inames c) (assignments c) (subst_rules c) (cse_names c).

Definition set_node_to_var_name d (c : ConversionContext) :=
  mk_ConversionContext (expr_use_count c) (name_gen c) (index_to_iname_and_length c)
    (var_to_name_and_shape c) (literal_to_name_and_array c) d
    (node_to_inames c) (assignments c) (subst_rules c) (cse_names c).

Definition set_node_to_inames d (c : ConversionContext) :=
  mk_ConversionContext (expr_use_count c) (name_gen c) (index_to_iname_and_length c)
    (var_to_name_and_shape c) (literal_to_name_and_array c) (node_to_var_name c)
    d (assignments c) (subst_rules c) (cse_names c).

Definition set_assignments l (c : ConversionContext) :=
  mk_ConversionContext (expr_use_count c) (name_gen c) (index_to_iname_and_length c)
    (var_to_name_and_shape c) (literal_to_name_and_array c) (node_to_var_name c)
    (node_to_inames c) l (subst_rules c) (cse_names c).

Definition set_subst_rules l (c : ConversionContext) :=
  mk_ConversionContext (expr_use_count c) (name_gen c) (index_to_iname_and_length c)
    (var_to_name_and_shape c) (literal_to_name_and_array c) (node_to_var_name c)
    (node_to_inames c) (assignments c) l (cse_names c).

Definition set_cse_names l (c : ConversionContext) :=
  mk_ConversionContext (expr_use_count c) (name_gen c) (index_to_iname_and_length c)
    (var_to_name_and_shape c) (literal_to_name_and_array c) (node_to_var_name c)
    (node_to_inames c) (assignments c) (subst_rules c) l.

(** *** Computations on the context

    A method of the context reads and updates it and may raise; an
    exception is never caught by the lowering, so the context of a failed
    run is dropped. *)
Definition M (A : Type) : Type :=
  ConversionContext -> result (A * ConversionContext).

Definition ret {A : Type} (a : A) : M A := fun ctx => Ok (a, ctx).

Definition bind {A B : Type} (m : M A) (f : A -> M B) : M B :=
  fun ctx =>
    match m ctx with
    | Ok (a, ctx') => f a ctx'
    | Raise e => Raise e
    end.

Definition raise {A : Type} (e : exn) : M A := fun _ => Raise e.

Definition gets {A : Type} (f : ConversionContext -> A) : M A :=
  fun ctx => Ok (f ctx, ctx).

Definition modify (f : ConversionContext -> ConversionContext) : M unit :=
  fun ctx => Ok (tt, f ctx).

Declare Scope ctx_scope.
Delimit Scope ctx_scope with ctx.
Notation "x <- c1 ;; c2" := (bind c1 (fun x => c2))
  (at level 61, c1 at next level, right associativity) : ctx_scope.
Notation "c1 ;; c2" := (bind c1 (fun _ => c2))
  (at level 61, right associativity) : ctx_scope.
Local Open Scope ctx_scope.

(** [tuple(f(x) for x in l)]: the elements are visited from left to right. *)
Definition mapM {A B : Type} (f : A -> M B) : list A -> M (list B) :=
  fix mapM (l : list A) : M (list B) :=
    match l with
    | [] => ret []
    | a :: l' => b <- f a ;; bs <- mapM l' ;; ret (b :: bs)
    end.

(** [self.name_gen(based_on)]. *)
Definition name_gen_call (based_on : string) : M string :=
  fun ctx =>
    let '(var_name, g) := UniqueNameGenerator_call (name_gen ctx) based_on in
    Ok (var_name, set_name_gen g ctx).

(** [node.name] and [node.array]; other classes have no such attribute. *)
Definition node_name (n : node) : M string :=
  match node_cls n with
  | g_Variable name _ => ret name
  | g_MathFunction name => ret name
  | _ => raise (AttributeError "name")
  end.

Definition node_array (n : node) : M ndarray :=
  match node_cls n with
  | g_Literal array => ret array
  | _ => raise (AttributeError "array")
  end.

Definition variable_to_name (n : node) : M string :=
  d <- gets var_to_name_and_shape ;;
  match dict_get node_eqb d n with
  | None =>
      based_on <- node_name n ;;
      name <- name_gen_call based_on ;;
      modify (fun ctx => set_var_to_name_and_shape
                (dict_set node_eqb (var_to_name_and_shape ctx) n (name, node_shape n)) ctx) ;;
      ret name
  | Some (name, shape) =>
      if shape_eqb (node_shape n) shape then ret name else raise AssertionError
  end.

Definition literal_to_name (literal : node) : M string :=
  d <- gets literal_to_name_and_array ;;
  match dict_get node_eqb d literal with
  | None =>
      name <- name_gen_call "cnst" ;;
      array <- node_array literal ;;
      modify (fun ctx => set_literal_to_name_and_array
                (dict_set node_eqb (literal_to_name_and_array ctx) literal (name, array)) ctx) ;;
      ret name
  | Some (name, array) =>
      array' <- node_array literal ;;
      if array_equal array array' then ret name else raise AssertionError
  end.

Definition index_to_iname (i : Index) : M string :=
  d <- gets index_to_iname_and_length ;;
  match dict_get Index_eqb d i with
  | None =>
      iname <- name_gen_call
                 match idx_name i with
                 | None => "i" ++ string_of_nat (idx_count i)
                 | Some name => name
                 end ;;
      modify (fun ctx => set_index_to_iname_and_length
                (dict_set Index_eqb (index_to_iname_and_length ctx) i (iname, idx_extent i)) ctx) ;;
      ret iname
  | Some (iname, length) =>
      if Z.eqb (idx_extent i) length then ret iname else raise AssertionError
  end.

Definition is_rank0_literal (n : node) : bool :=
  match node_cls n with
  | g_Literal array => match nd_shape array with [] => true | _ => false end
  | _ => false
  end.

Definition is_indexed (n : node) : bool :=
  match node_cls n with
  | g_FlexiblyIndexed _ => true
  | g_Indexed _ => true
  | _ => false
  end.

(** [ConversionContext._is_cse_eligible]; the statement that follows the
    returns of the method is never reached. *)
Definition _is_cse_eligible (n : node) : bool :=
  if negb (is_rank0_literal n)
  then (if is_indexed n then false else true)
  else false.

(** [self.expr_use_count.get(node, 0)]. *)
Definition use_count (ctx : ConversionContext) (n : node) : nat :=
  match dict_get node_eqb (expr_use_count ctx) n with
  | Some k => k
  | None => 0
  end.

(** [index_to_loopy] on a [g.Index]. *)
Definition map_index (i : Index) : M pexpr :=
  iname <- index_to_iname i ;; ret (p_Variable iname).

(** The handler of the [KeyError] in [rec_gem] (lines 96-104): the first
    visit of a node that is to be shared.  It returns [var_name] and the
    length of [free_inames]. *)
Definition rec_gem_first_visit (expr_to_loopy : node -> M pexpr) (n : node)
    : M (string * nat) :=
  result <- expr_to_loopy n ;;
  var_name <- name_gen_call "cse" ;;
  modify (fun ctx => set_cse_names (add_name (cse_names ctx) var_name) ctx) ;;
  modify (fun ctx => set_node_to_var_name
            (dict_set node_eqb (node_to_var_name ctx) n var_name) ctx) ;;
  free_inames <- mapM index_to_iname (node_free_indices n) ;;
  modify (fun ctx => set_node_to_inames
            (dict_set node_eqb (node_to_inames ctx) n (node_free_indices n)) ctx) ;;
  modify (fun ctx => set_assignments
            (assignments ctx ++ [(var_name, free_inames, result)]) ctx) ;;
  ret (var_name, List.length free_inames).

(** The reference to the temporary that [rec_gem] returns (lines
    106-111). *)
Definition rec_gem_reference (n : node) (var_name : string) (n_free : nat)
    : M pexpr :=
  if Nat.eqb n_free 0 then ret (p_Variable var_name)
  else
    recorded <- gets node_to_inames ;;
    match dict_get node_eqb recorded n with
    | Some free_indices =>
        idx <- mapM map_index free_indices ;;
        ret (p_Subscript (p_Variable var_name) idx)
    | None => raise KeyError
    end.

(** [ConversionContext.rec_gem], with the expression lowering that it
    calls on a first visit as a parameter. *)
Definition rec_gem_with (expr_to_loopy : node -> M pexpr)
    (n : node) (parent : option node) : M pexpr :=
  uses <- gets (fun ctx => use_count ctx n) ;;
  if (1 <? uses)%nat && _is_cse_eligible n then
    memo <- gets node_to_var_name ;;
    recorded <- gets node_to_inames ;;
    hit <-
      match dict_get node_eqb memo n, dict_get node_eqb recorded n with
      | Some var_name, Some free_inames =>
          ret (var_name, List.length free_inames)
      | _, _ => rec_gem_first_visit expr_to_loopy n
      end ;;
    rec_gem_reference n (fst hit) (snd hit)
  else expr_to_loopy n.

(** ** Index and expression lowering *)

Section Lowering.

(** The attribute [literal_to_name] of the module [gem.gem], which
    [map_literal] calls on a literal of rank one or more.  The module is
    not among the sources: the call is taken as a function of the node
    that returns a name or raises, and that has no access to the
    conversion context. *)
Variable g_literal_to_name : node -> result string.

(** [a[()]] of an array of rank zero: its entry. *)
Definition ndarray_item (a : ndarray) : scalar :=
  hd (scalar_of_Z 0) (nd_flat a).

Definition map_varindex (rec_gem : node -> option node -> M pexpr)
    (expression : node) : M pexpr :=
  rec_gem expression None.

Definition map_int (z : Z) : M pexpr := ret (p_Num (scalar_of_Z z)).

Definition map_identity (n : node) : M pexpr :=
  raise (NotImplementedError (type_name n)).

Definition map_literal (n : node) (array : ndarray) : M pexpr :=
  match nd_shape array with
  | [] => ret (p_Num (ndarray_item array))
  | _ =>
      match g_literal_to_name n with
      | Ok name => ret (p_Variable name)
      | Raise e => raise e
      end
  end.

Definition map_zero (n : node) : M pexpr :=
  raise (NotImplementedError (type_name n)).

Definition map_variable (n : node) : M pexpr :=
  name <- variable_to_name n ;; ret (p_Variable name).

Definition convert_multichild (pymbolic_cls : list pexpr -> pexpr)
    (rec_gem : node -> option node -> M pexpr) (n : node) : M pexpr :=
  cs <- mapM (fun c => rec_gem c (Some n)) (node_children n) ;;
  ret (pymbolic_cls cs).

Definition map_division (rec_gem : node -> option node -> M pexpr)
    (n : node) : M pexpr :=
  match node_children n with
  | [num; denom] =>
      a <- rec_gem num (Some n) ;;
      b <- rec_gem denom (Some n) ;;
      ret (p_Quotient a b)
  | _ => raise (ValueError "unpack")
  end.

Definition map_power (rec_gem : node -> option node -> M pexpr)
    (n : node) : M pexpr :=
  match node_children n with
  | [base; exponent] =>
      a <- rec_gem base (Some n) ;;
      b <- rec_gem exponent (Some n) ;;
      ret (p_Power a b)
  | _ => raise (ValueError "unpack")
  end.

Definition map_function (rec_gem : node -> option node -> M pexpr)
    (n : node) (name : string) : M pexpr :=
  args <- mapM (fun c => rec_gem c (Some n)) (node_children n) ;;
  ret (p_Call (p_Variable name) args).

Definition map_comparison (rec_gem : node -> option node -> M pexpr)
    (n : node) (operator : string) : M pexpr :=
  match node_children n with
  | [lhs; rhs] =>
      a <- rec_gem lhs (Some n) ;;
      b <- rec_gem rhs (Some n) ;;
      ret (p_Comparison a operator b)
  | _ => raise (ValueError "unpack")
  end.

(** [isinstance(c, g.Constant)]: literals, zeros and identities. *)
Definition is_Constant (c : node) : bool :=
  match node_cls c with
  | g_Literal _ | g_Zero _ | g_Identity _ => true
  | _ => false
  end.

Definition index_aggregate_to_name (c : node) : M string :=
  match node_cls c with
  | g_Variable _ _ => variable_to_name c
  | _ =>
      if is_Constant c then literal_to_name c
      else raise (NotImplementedError ("indexing into " ++ type_name c))
  end.

Definition map_indexed (index_to_loopy : index -> M pexpr)
    (n : node) (multiindex : list index) : M pexpr :=
  match node_children n with
  | [c] =>
      name <- index_aggregate_to_name c ;;
      idx <- mapM index_to_loopy multiindex ;;
      ret (p_Subscript (p_Variable name) idx)
  | _ => raise (ValueError "unpack")
  end.

Definition flex_idx_to_loopy (index_to_loopy : index -> M pexpr)
    (f : Z * list (index * Z)) : M pexpr :=
  let '(off, idxs) := f in
  (fix loop (result : pexpr) (idxs : list (index * Z)) : M pexpr :=
     match idxs with
     | [] => ret result
     | (i, s) :: idxs' =>
         x <- index_to_loopy i ;;
         loop (p_add result (p_mul x s)) idxs'
     end) (p_Num (scalar_of_Z off)) idxs.

Definition map_flexibly_indexed (index_to_loopy : index -> M pexpr)
    (n : node) (dim2idxs : list (Z * list (index * Z))) : M pexpr :=
  match node_children n with
  | [c] =>
      if shape_eqb (node_shape c) [None]
      then name <- index_aggregate_to_name c ;; ret (p_Variable name)
      else
        name <- index_aggregate_to_name c ;;
        idx <- mapM (flex_idx_to_loopy index_to_loopy) dim2idxs ;;
        ret (p_Subscript (p_Variable name) idx)
  | _ => raise (ValueError "unpack")
  end.

Definition map_index_sum (rec_gem : node -> option node -> M pexpr)
    (n : node) (multiindex : list Index) : M pexpr :=
  match node_children n with
  | [c] =>
      subexpr <- rec_gem c None ;;
      name <- name_gen_call "sum_tmp" ;;
      arg_names <- mapM index_to_iname (node_free_indices n) ;;
      red <- mapM index_to_iname multiindex ;;
      modify (fun ctx => set_subst_rules
                (subst_rules ctx ++
                 [mk_SubstitutionRule name arg_names
                    (p_Reduction "sum" red subexpr)]) ctx) ;;
      ret (p_Call (p_Variable name) (map p_Variable arg_names))
  | _ => raise (ValueError "unpack")
  end.

(** The two dispatchers.  [expr_to_loopy] selects the lowering registered
    for the class of the node, [index_to_loopy] the one for the kind of
    index; both reach sub-expressions through [rec_gem]. *)
Fixpoint expr_to_loopy (n : node) {struct n} : M pexpr :=
  match n with
  | Node cls _ _ =>
      match cls with
      | g_Identity _ => map_identity n
      | g_Literal array => map_literal n array
      | g_Zero _ => map_zero n
      | g_Variable _ _ => map_variable n
      | g_Sum => convert_multichild p_Sum (rec_gem_with expr_to_loopy) n
      | g_Product => convert_multichild p_Product (rec_gem_with expr_to_loopy) n
      | g_Division => map_division (rec_gem_with expr_to_loopy) n
      | g_Power => map_power (rec_gem_with expr_to_loopy) n
      | g_MathFunction name => map_function (rec_gem_with expr_to_loopy) n name
      | g_MinValue => convert_multichild p_Min (rec_gem_with expr_to_loopy) n
      | g_MaxValue => convert_multichild p_Max (rec_gem_with expr_to_loopy) n
      | g_Comparison operator =>
          map_comparison (rec_gem_with expr_to_loopy) n operator
      | g_Indexed multiindex => map_indexed index_to_loopy n multiindex
      | g_FlexiblyIndexed dim2idxs =>
          map_flexibly_indexed index_to_loopy n dim2idxs
      | g_IndexSum multiindex =>
          map_index_sum (rec_gem_with expr_to_loopy) n multiindex
      | OtherNode typename =>
          raise (NotImplementedError
                   ("ran into node type '" ++ typename ++ "', no conversion known"))
      end
  end
with index_to_loopy (i : index) {struct i} : M pexpr :=
  match i with
  | g_Index i => map_index i
  | g_VariableIndex expression =>
      map_varindex (rec_gem_with expr_to_loopy) expression
  | IntIndex z => map_int z
  | OtherIndex typename =>
      raise (NotImplementedError
               ("ran into index type '" ++ typename ++ "', no conversion known"))
  end.

Definition rec_gem : node -> option node -> M pexpr :=
  rec_gem_with expr_to_loopy.

(** ** The entry point *)

(** Lines 334-339: the argument ordering without repetition. *)
Definition dedup_argument_ordering (argument_ordering : list Index) : list Index :=
  fold_left
    (fun new_argument_ordering idx =>
       if negb (contains Index_eqb idx new_argument_ordering)
       then new_argument_ordering ++ [idx]
       else new_argument_ordering)
    argument_ordering [].

(** One element of [exprs_and_free_inames]. *)
Definition lower_rhs (argument_ordering : list Index) (a : node * node)
    : M (node * pexpr * list string) :=
  let '(lhs, n) := a in
  rhs <- rec_gem n None ;;
  free_inames <-
    mapM index_to_iname
      (filter (fun i => contains Index_eqb i (node_free_indices n))
         argument_ordering) ;;
  ret (lhs, rhs, free_inames).

Definition subscr (name : string) (indices : list string) : pexpr :=
  match indices with
  | [] => p_Variable name
  | _ => p_Subscript (p_Variable name) (map p_Variable indices)
  end.

(** The instructions resulting from common subexpressions. *)
Definition cse_instructions (l : list (string * list string * pexpr))
    : list lp_Assignment :=
  map (fun a =>
         let '(var_name, free_indices, rhs) := a in
         mk_Assignment (subscr var_name free_indices) rhs
           (frozenset free_indices) true ["cse"])
    l.

(** [lhs_expr.aggregate.name]. *)
Definition aggregate_name (aggregate : pexpr) : M string :=
  match aggregate with
  | p_Variable name => ret name
  | _ => raise (AttributeError "name")
  end.

(** The body of the loop over [iname_deps] (lines 386-400). *)
Definition single_assignment (generate_increments : bool)
    (lhs_expr aggregate rhs : pexpr) (free_indices : list string)
    (iname_dep : string) : M lp_Assignment :=
  based_on <- aggregate_name aggregate ;;
  name <- name_gen_call based_on ;;
  let lhs_expr_single := p_Subscript (p_Variable name) [p_Variable iname_dep] in
  let assignment_rhs :=
    if generate_increments then p_add lhs_expr rhs else rhs in
  ret (mk_Assignment lhs_expr_single assignment_rhs
         (frozenset free_indices) true []).

(** [list(s)] for a set [s] of variables (line 384): the elements of the
    set in the order in which Python iterates over it.  That order is
    fixed by the hashes of the names, which change with the hash seed of
    the interpreter: it is taken as a function of the set, and a
    statement that depends on it assumes of the function that it returns
    a permutation of the elements. *)
Variable list_of_set : list string -> list string.

(** One round of the loop over [exprs_and_free_inames] (lines 378-400):
    the lowered left-hand side and the instructions appended for it. *)
Definition lower_lhs (generate_increments : bool)
    (e : node * pexpr * list string) : M (pexpr * list lp_Assignment) :=
  let '(lhs, rhs, free_indices) := e in
  lhs_expr <- rec_gem lhs None ;;
  match lhs_expr with
  | p_Subscript aggregate index_tuple =>
      let iname_deps := list_of_set (DependencyMapper index_tuple) in
      insns <- mapM (single_assignment generate_increments
                       lhs_expr aggregate rhs free_indices) iname_deps ;;
      ret (lhs_expr, insns)
  | _ => raise AssertionError
  end.

(** The state of a run when the instructions have been generated. *)
Record lowered : Type := mk_lowered {
  lw_ctx : ConversionContext;
  lw_exprs_and_free_inames : list (node * pexpr * list string);
  lw_cse_instructions : list lp_Assignment;
  lw_lhs : list (pexpr * list lp_Assignment)
}.

Definition lw_pymbolic_lhss (lw : lowered) : list pexpr :=
  map fst (lw_lhs lw).

Definition lw_ir_instructions (lw : lowered) : list lp_Assignment :=
  List.concat (map snd (lw_lhs lw)).

Definition lw_instructions (lw : lowered) : list lp_Assignment :=
  lw_cse_instructions lw ++ lw_ir_instructions lw.

(** *** Utilities *)

(** numpy holds the capacities as 64-bit signed integers: a product is
    reduced to that range. *)
Definition wrap_int64 (z : Z) : Z :=
  ((z + 2 ^ 63) mod 2 ^ 64 - 2 ^ 63)%Z.

Fixpoint cumprod_from (acc : Z) (l : list Z) : list Z :=
  match l with
  | [] => []
  | x :: l' =>
      let acc' := wrap_int64 (acc * x) in
      acc' :: cumprod_from acc' l'
  end.

(** [np.cumprod] and [np.flipud] on an array of rank one. *)
Definition np_cumprod (l : list Z) : list Z := cumprod_from 1 l.

Definition np_flipud (l : list Z) : list Z := rev l.

Definition cumulative_strides (strides : list Z) : list Z :=
  let temp := np_flipud (np_cumprod (np_flipud (tl strides))) in
  temp ++ [1%Z].

Fixpoint count_subexpression_uses (n : node)
    (expr_use_count : list (node * nat)) {struct n} : list (node * nat) :=
  let uses :=
    match dict_get node_eqb expr_use_count n with
    | Some k => k
    | None => 0
    end in
  let expr_use_count := dict_set node_eqb expr_use_count n (uses + 1) in
  match n with
  | Node _ children _ =>
      fold_left (fun d c => count_subexpression_uses c d) children expr_use_count
  end.

(** The assumptions of [get_empty_assumptions_domain]: the universe of
    the parameter space of the domain, which has no parameter. *)
Definition get_empty_assumptions_domain (domain : isl_set) : isl_set := [].

(** *** Write footprints

    Modelled from the spec: [loopy.symbolic.get_access_range] and the
    isl set operations are not among the sources.  A write footprint is
    the list of the index tuples that a subscript takes over the points
    of the domain, for a subscript made of integers, loop variables,
    sums and products; another subscript is rejected. *)
Definition point := list (string * Z).

Fixpoint domain_points (domain : isl_set) : list point :=
  match domain with
  | [] => [[]]
  | (iname, length) :: domain' =>
      flat_map
        (fun v => map (fun pt => (iname, Z.of_nat v) :: pt) (domain_points domain'))
        (seq 0 (Z.to_nat length))
  end.

Fixpoint aff_eval (pt : point) (e : pexpr) : option Z :=
  let eval_list := fix eval_list (l : list pexpr) : option (list Z) :=
    match l with
    | [] => Some []
    | c :: l' =>
        match aff_eval pt c, eval_list l' with
        | Some z, Some zs => Some (z :: zs)
        | _, _ => None
        end
    end in
  match e with
  | p_Num v => if Pos.eqb (Qden v) 1 then Some (Qnum v) else None
  | p_Variable x => dict_get String.eqb pt x
  | p_Sum cs => option_map (fold_right Z.add 0%Z) (eval_list cs)
  | p_Product cs => option_map (fold_right Z.mul 1%Z) (eval_list cs)
  | _ => None
  end.

Fixpoint sequence_option {A : Type} (l : list (option A)) : option (list A) :=
  match l with
  | [] => Some []
  | None :: _ => None
  | Some a :: l' => option_map (cons a) (sequence_option l')
  end.

Definition access_range := list (list Z).

Definition get_access_range (domain : isl_set) (subscript : list pexpr)
    (assumptions : isl_set) : result access_range :=
  match sequence_option
          (map (fun pt => sequence_option (map (aff_eval pt) subscript))
             (domain_points domain)) with
  | Some r => Ok r
  | None => Raise (TypeError "cannot determine access range")
  end.

(** [a & b] and [s.is_empty()]. *)
Definition range_inter (a b : access_range) : access_range :=
  filter (fun t => contains (list_eqb Z.eqb) t b) a.

Definition range_is_empty (a : access_range) : bool :=
  match a with [] => true | _ => false end.

(** [lhs.index_tuple]. *)
Definition index_tuple_of (e : pexpr) : result (list pexpr) :=
  match e with
  | p_Subscript _ index_tuple => Ok index_tuple
  | _ => Raise (AttributeError "index_tuple")
  end.

(** The loop over [pymbolic_lhss] (lines 431-437); [write_ranges] is the
    list that the loop compares against, which no statement extends. *)
Fixpoint check_write_footprints (domain assumptions : isl_set)
    (write_ranges : list access_range) (pymbolic_lhss : list pexpr)
    : result unit :=
  match pymbolic_lhss with
  | [] => Ok tt
  | lhs :: rest =>
      match index_tuple_of lhs with
      | Raise e => Raise e
      | Ok index_tuple =>
          match get_access_range domain index_tuple assumptions with
          | Raise e => Raise e
          | Ok write_range =>
              if existsb
                   (fun other_write_range =>
                      negb (range_is_empty
                              (range_inter write_range other_write_range)))
                   write_ranges
              then Raise (ValueError "assignment write ranges are not disjoint")
              else check_write_footprints domain assumptions write_ranges rest
          end
      end
  end.

(** *** The stages of [tsfc_to_loopy] *)

(** Lines 334-400: the instructions of a run. *)
Definition generate_instructions (ir : list (node * node))
    (argument_ordering : list Index) (generate_increments : bool)
    : result lowered :=
  let argument_ordering := dedup_argument_ordering argument_ordering in
  let expr_use_count :=
    fold_left (fun d a => count_subexpression_uses (snd a) d) ir [] in
  let ctx := ConversionContext_init expr_use_count in
  match mapM (lower_rhs argument_ordering) ir ctx with
  | Raise e => Raise e
  | Ok (exprs_and_free_inames, ctx1) =>
      let instructions := cse_instructions (assignments ctx1) in
      match mapM (lower_lhs generate_increments) exprs_and_free_inames ctx1 with
      | Raise e => Raise e
      | Ok (lhss, ctx2) =>
          Ok (mk_lowered ctx2 exprs_and_free_inames instructions lhss)
      end
  end.

(** Lines 404-421: the conjunction of the axes of the registered loop
    variables; [domain] is [None] until the first axis is met. *)
Definition construct_domain (ctx : ConversionContext) : result isl_set :=
  let domain :=
    fold_left
      (fun (domain : option isl_set) (v : string * Z) =>
         let axis := [v] in
         match domain with
         | None => Some axis
         | Some d => Some (d ++ axis)
         end)
      (dict_values (index_to_iname_and_length ctx)) None in
  match domain with
  | None => Raise (AttributeError "get_basic_sets")
  | Some d => Ok d
  end.

Definition global_temps (ctx : ConversionContext) : list kernel_data :=
  map (fun v => Temporary (mk_TemporaryVariable (fst v) false (Some (snd v)) GLOBAL true))
    (dict_values (literal_to_name_and_array ctx)).

Definition cse_temps (ctx : ConversionContext) : list kernel_data :=
  map (fun name => Temporary (mk_TemporaryVariable name true None PRIVATE false))
    (cse_names ctx).

Definition tsfc_to_loopy (ir : list (node * node))
    (argument_ordering : list Index) (kernel_name : string)
    (generate_increments : bool) : result kernel :=
  match generate_instructions ir argument_ordering generate_increments with
  | Raise e => Raise e
  | Ok lw =>
      let ctx := lw_ctx lw in
      match construct_domain ctx with
      | Raise e => Raise e
      | Ok domain =>
          let assumptions := get_empty_assumptions_domain domain in
          match check_write_footprints domain assumptions []
                  (lw_pymbolic_lhss lw) with
          | Raise e => Raise e
          | Ok _ =>
              let data := global_temps ctx ++ cse_temps ctx ++ [Ellipsis] in
              Ok (mk_kernel [domain]
                    (map Insn (lw_instructions lw) ++ map Rule (subst_rules ctx))
                    data kernel_name)
          end
      end
  end.

End Lowering.

(** ** Sample inputs *)

(** The module [gem.gem] without an attribute [literal_to_name]. *)
Definition gem_no_literal_to_name (n : node) : result string :=
  Raise (AttributeError "literal_to_name").

(** Two iteration orders of a set: the order in which its elements were
    inserted, and the reverse of it. *)
Definition insertion_order (s : list string) : list string := s.

Definition reverse_order (s : list string) : list string := rev s.

Definition index_i : Index := mk_Index (Some "i") 1 3.
Definition index_j : Index := mk_Index (Some "j") 2 4.
Definition index_k : Index := mk_Index (Some "k") 3 5.

Definition var (name : string) (shape : list (option nat)) : node :=
  Node (g_Variable name shape) [] [].

Definition lit0 (v : Z) : node :=
  Node (g_Literal (mk_ndarray [] [scalar_of_Z v])) [] [].

Definition indexed (c : node) (multiindex : list index) (fi : list Index) : node :=
  Node (g_Indexed multiindex) [c] fi.

Definition a_i : node := indexed (var "a" [Some 3%nat]) [g_Index index_i] [index_i].
Definition b_i : node := indexed (var "b" [Some 3%nat]) [g_Index index_i] [index_i].
Definition c_i : node := indexed (var "c" [Some 3%nat]) [g_Index index_i] [index_i].
Definition prod_bc : node := Node g_Product [b_i; c_i] [index_i].
Definition sum_of_prods : node := Node g_Sum [prod_bc; prod_bc] [index_i].

Definition lit_vec : node :=
  Node (g_Literal (mk_ndarray [2%nat] [scalar_of_Z 1; scalar_of_Z 2])) [] [].

(** Two assignments that write the same entries [a[i]], [0 <= i < 3]. *)
Definition overlapping_ir : list (node * node) := [(a_i, lit0 1); (a_i, lit0 2)].

(** An assignment whose subscript is an integer constant. *)
Definition constant_subscript_ir : list (node * node) :=
  [(indexed (var "a" [Some 3%nat]) [IntIndex 0] [], lit0 1)].

(** The context in which [sum_of_prods] is lowered, and the context after
    the first visit of its shared product. *)
Definition cse_ctx0 : ConversionContext :=
  ConversionContext_init (count_subexpression_uses sum_of_prods []).

Definition cse_ctx1 : ConversionContext :=
  Eval vm_compute in
    match rec_gem gem_no_literal_to_name prod_bc None cse_ctx0 with
    | Ok (_, ctx) => ctx
    | Raise _ => cse_ctx0
    end.

(** Two reductions of the same body [a[i]], over [j] of extent 4 and over
    [k] of extent 5, and the context after the first has been lowered. *)
Definition sum_over_j : node := Node (g_IndexSum [index_j]) [a_i] [index_i].
Definition sum_over_k : node := Node (g_IndexSum [index_k]) [a_i] [index_i].

Definition sums_ctx1 : ConversionContext :=
  Eval vm_compute in
    match expr_to_loopy gem_no_literal_to_name sum_over_j
            (ConversionContext_init []) with
    | Ok (_, ctx) => ctx
    | Raise _ => ConversionContext_init []
    end.

(** An assignment to the entries [A[i, j]] of a matrix, and an assignment
    [a[i] = b[i]]. *)
Definition A_ij : node :=
  indexed (var "A" [Some 3%nat; Some 4%nat]) [g_Index index_i; g_Index index_j]
    [index_i; index_j].

Definition matrix_ir : list (node * node) := [(A_ij, lit0 1)].

Definition copy_ir : list (node * node) := [(a_i, b_i)].

(** The assignment [a[i] = b[i] + b[i]]: the variable [b] is the aggregate
    of a subscript that is used twice. *)
Definition twice_b_ir : list (node * node) :=
  [(a_i, Node g_Sum [b_i; b_i] [index_i])].

(** An assignment whose left-hand subscript is a variable that the
    right-hand side uses twice, as the aggregate of a subscript. *)
Definition late_binding_ir : list (node * node) :=
  [(indexed (var "a" [Some 3%nat]) [g_VariableIndex (var "b" [Some 3%nat])] [],
    Node g_Sum [b_i; b_i] [index_i])].

(** ** Notions used in the statements *)

(** The range of a 64-bit signed integer. *)
Definition in_int64 (z : Z) : Prop := (- 2 ^ 63 <= z < 2 ^ 63)%Z.

Definition product (l : list Z) : Z := fold_right Z.mul 1%Z l.

(** The products of the non-empty suffixes of a list, longest first. *)
Fixpoint suffix_products (l : list Z) : list Z :=
  match l with
  | [] => []
  | x :: l' => product l :: suffix_products l'
  end.

(** The first occurrences of the elements of [l] that are not in [seen], in
    the order of [l]: an element is kept when it has not occurred before. *)
Fixpoint first_occurrences_from (seen l : list Index) : list Index :=
  match l with
  | [] => []
  | x :: l' =>
      if contains Index_eqb x seen then first_occurrences_from seen l'
      else x :: first_occurrences_from (seen ++ [x]) l'
  end.

Definition first_occurrences (l : list Index) : list Index :=
  first_occurrences_from [] l.

(** The names that the allocator of a context has handed out. *)
Definition names (ctx : ConversionContext) : list string :=
  existing_names (name_gen ctx).

(** The temporary that an entry of [assignments] binds. *)
Definition assignment_name (a : string * list string * pexpr) : string :=
  fst (fst a).

(** The number of nodes of an expression, the nodes of its index
    expressions included. *)
Fixpoint node_size (n : node) : nat :=
  match n with
  | Node cls children _ =>
      S (cls_size cls + list_sum (map node_size children))
  end
with cls_size (cls : gem_class) : nat :=
  match cls with
  | g_Indexed multiindex => list_sum (map index_size multiindex)
  | g_FlexiblyIndexed dim2idxs =>
      list_sum
        (map (fun f => list_sum (map (fun p => index_size (fst p)) (snd f)))
           dim2idxs)
  | _ => 0
  end
with index_size (i : index) : nat :=
  match i with
  | g_VariableIndex expression => S (node_size expression)
  | _ => 0
  end.

(** The invariant of the conversion context: the names in the tables, of
    the rules and of the temporaries come from the allocator; the memo of
    the common subexpressions, the recorded free indices and the binding
    assignments list the same nodes in the same order, each node once and
    each under its own temporary; only eligible nodes used more than once
    are in the memo. *)
Record wf (ctx : ConversionContext) : Prop := mk_wf {
  wf_var : forall k v, In (k, v) (var_to_name_and_shape ctx) -> In (fst v) (names ctx);
  wf_lit : forall k v, In (k, v) (literal_to_name_and_array ctx) -> In (fst v) (names ctx);
  wf_rules_in : forall r, In r (subst_rules ctx) -> In (rule_name r) (names ctx);
  wf_rules_nodup : NoDup (map rule_name (subst_rules ctx));
  wf_memo_in : forall k v, In (k, v) (node_to_var_name ctx) -> In v (names ctx);
  wf_memo_assign :
    map snd (node_to_var_name ctx) = map assignment_name (assignments ctx);
  wf_memo_nodup : NoDup (map snd (node_to_var_name ctx));
  wf_keys : map fst (node_to_var_name ctx) = map fst (node_to_inames ctx);
  wf_keys_nodup : NoDup (map fst (node_to_var_name ctx));
  wf_recorded :
    forall k fis, In (k, fis) (node_to_inames ctx) -> fis = node_free_indices k;
  wf_eligible :
    forall k v, In (k, v) (node_to_var_name ctx) ->
                _is_cse_eligible k = true /\ 1 < use_count ctx k;
  wf_cse_names : cse_names ctx = map snd (node_to_var_name ctx)
}.

(** [ctx'] is a later state of [ctx]: nothing is removed or overwritten,
    and the nodes that entered the memo have a size below [s]. *)
Record extends (s : nat) (ctx ctx' : ConversionContext) : Prop := mk_extends {
  ext_count : expr_use_count ctx' = expr_use_count ctx;
  ext_names : incl (names ctx) (names ctx');
  ext_memo :
    exists l, node_to_var_name ctx' = node_to_var_name ctx ++ l /\
              Forall (fun kv => node_size (fst kv) < s) l;
  ext_recorded : exists l, node_to_inames ctx' = node_to_inames ctx ++ l;
  ext_assignments : exists l, assignments ctx' = assignments ctx ++ l;
  ext_rules : exists l, subst_rules ctx' = subst_rules ctx ++ l
}.

(** A step that allocates names and extends the symbol tables only. *)
Record table_step (ctx ctx' : ConversionContext) : Prop := mk_table_step {
  ts_count : expr_use_count ctx' = expr_use_count ctx;
  ts_memo : node_to_var_name ctx' = node_to_var_name ctx;
  ts_recorded : node_to_inames ctx' = node_to_inames ctx;
  ts_assignments : assignments ctx' = assignments ctx;
  ts_rules : subst_rules ctx' = subst_rules ctx;
  ts_cse_names : cse_names ctx' = cse_names ctx;
  ts_names : incl (names ctx) (names ctx');
  ts_var : forall k v, In (k, v) (var_to_name_and_shape ctx') ->
                       In (k, v) (var_to_name_and_shape ctx) \/ In (fst v) (names ctx');
  ts_lit : forall k v, In (k, v) (literal_to_name_and_array ctx') ->
                       In (k, v) (literal_to_name_and_array ctx) \/ In (fst v) (names ctx')
}.

(** A computation keeps the invariant and only extends the context, with
    new memo entries of a size below [s]. *)
Definition preserves {A : Type} (s : nat) (m : M A) : Prop :=
  forall ctx r ctx', wf ctx -> m ctx = Ok (r, ctx') ->
                     wf ctx' /\ extends s ctx ctx'.

(** The variables that occur in a lowered expression, from left to right
    and with repetition. *)
Fixpoint p_variables (e : pexpr) : list string :=
  match e with
  | p_Num _ => []
  | p_Variable x => [x]
  | p_Subscript a idx => p_variables a ++ flat_map p_variables idx
  | p_Call f ps => p_variables f ++ flat_map p_variables ps
  | p_Sum cs => flat_map p_variables cs
  | p_Product cs => flat_map p_variables cs
  | p_Quotient n d => p_variables n ++ p_variables d
  | p_Power b x => p_variables b ++ p_variables x
  | p_Min cs => flat_map p_variables cs
  | p_Max cs => flat_map p_variables cs
  | p_Comparison l _ r => p_variables l ++ p_variables r
  | p_Reduction _ _ x => p_variables x
  end.

(** [dependencies] adds the variables of an expression, each once. *)
Definition deps_ok (e : pexpr) : Prop :=
  forall acc, NoDup acc ->
    NoDup (dependencies acc e) /\
    forall x, In x (dependencies acc e) <-> In x acc \/ In x (p_variables e).

(** The targets of the instructions emitted for a lowered left-hand side:
    one instruction for each variable of its subscript, whose target is
    that variable subscripting a name of its own, numbered from the name
    of the aggregate and different from it. *)
Definition fresh_targets (list_of_set : list string -> list string)
    (lhs_expr : pexpr) (insns : list lp_Assignment) : Prop :=
  exists agg index_tuple new_names,
    lhs_expr = p_Subscript (p_Variable agg) index_tuple /\
    List.length new_names =
      List.length (list_of_set (DependencyMapper index_tuple)) /\
    map assignee insns =
      map (fun nd => p_Subscript (p_Variable (fst nd)) [p_Variable (snd nd)])
        (combine new_names (list_of_set (DependencyMapper index_tuple))) /\
    NoDup new_names /\
    Forall (fun nm => nm <> agg /\ exists k, nm = numbered agg k) new_names /\
    Forall (fun insn => assignee insn <> lhs_expr) insns.

(** [d.get(node, 0)] on a dictionary of use counts. *)
Definition count_of (d : list (node * nat)) (n : node) : nat :=
  match dict_get node_eqb d n with
  | Some k => k
  | None => 0
  end.

(** The number of occurrences of [n] in the tree of the children of
    [root], the root included. *)
Fixpoint occurrences (n root : node) {struct root} : nat :=
  (if node_eqb root n then 1 else 0) +
  match root with
  | Node _ children _ => list_sum (map (occurrences n) children)
  end.

(** The base name that [index_to_iname] prefers for an index. *)
Definition index_base_name (i : Index) : string :=
  match idx_name i with
  | None => "i" ++ string_of_nat (idx_count i)
  | Some name => name
  end.

(** The names of a symbol table. *)
Definition table_names {K V : Type} (d : list (K * (string * V))) : list string :=
  map (fun kv => fst (snd kv)) d.

(** The names that a context has given to the objects of the kernel: the
    variables, the literals, the loop variables, the temporaries of the
    common subexpressions and the substitution rules. *)
Definition all_names (ctx : ConversionContext) : list string :=
  table_names (var_to_name_and_shape ctx) ++
  table_names (literal_to_name_and_array ctx) ++
  table_names (index_to_iname_and_length ctx) ++
  cse_names ctx ++
  map rule_name (subst_rules ctx).

(** The names of a context are pairwise distinct, distinct from the names
    [extra] set aside, and all handed out by the allocator. *)
Record distinct_names (extra : list string) (ctx : ConversionContext) : Prop :=
  mk_distinct_names {
    dn_nodup : NoDup (extra ++ all_names ctx);
    dn_incl : incl (extra ++ all_names ctx) (names ctx)
  }.

(** The symbol tables of [ctx'] are those of [ctx] with entries appended. *)
Record grows (ctx ctx' : ConversionContext) : Prop := mk_grows {
  gr_var : exists l, var_to_name_and_shape ctx' = var_to_name_and_shape ctx ++ l;
  gr_lit : exists l,
    literal_to_name_and_array ctx' = literal_to_name_and_array ctx ++ l;
  gr_idx : exists l,
    index_to_iname_and_length ctx' = index_to_iname_and_length ctx ++ l;
  gr_names : incl (names ctx) (names ctx')
}.

(** A computation appends to the symbol tables and keeps the names
    distinct. *)
Definition keeps {A : Type} (m : M A) : Prop :=
  forall ctx r ctx', m ctx = Ok (r, ctx') ->
    grows ctx ctx' /\
    forall extra, distinct_names extra ctx -> distinct_names extra ctx'.

(** The name that an instruction assigns to. *)
Definition target_name (insn : lp_Assignment) : option string :=
  match assignee insn with
  | p_Variable name => Some name
  | p_Subscript (p_Variable name) _ => Some name
  | _ => None
  end.

(** The parts of a kernel: its instructions, its substitution rules, its
    temporaries and the loop variables of its domains. *)
Definition kernel_insns (knl : kernel) : list lp_Assignment :=
  flat_map (fun it => match it with Insn a => [a] | Rule _ => [] end)
    (knl_instructions knl).

Definition kernel_rules (knl : kernel) : list lp_SubstitutionRule :=
  flat_map (fun it => match it with Insn _ => [] | Rule r => [r] end)
    (knl_instructions knl).

Definition kernel_temporaries (knl : kernel) : list lp_TemporaryVariable :=
  flat_map (fun d => match d with Temporary t => [t] | Ellipsis => [] end)
    (knl_data knl).

Definition kernel_inames (knl : kernel) : list string :=
  map fst (List.concat (knl_domains knl)).

(** ['cse' in insn.tags]. *)
Definition is_cse (insn : lp_Assignment) : bool :=
  contains String.eqb "cse" (tags insn).

(** The loop variables that a reduction binds. *)
Definition reduction_inames (e : pexpr) : list string :=
  match e with
  | p_Reduction _ inames _ => inames
  | _ => []
  end.

(** The loop variable that a context has for an index. *)
Definition iname_of (ctx : ConversionContext) (i : Index) : option string :=
  option_map fst (dict_get Index_eqb (index_to_iname_and_length ctx) i).

(** The loop variables of a context. *)
Definition inames (ctx : ConversionContext) : list string :=
  table_names (index_to_iname_and_length ctx).

(** The loop variables of the bindings and of the rules of a context are
    loop variables of the context. *)
Record inames_declared (ctx : ConversionContext) : Prop := mk_inames_declared {
  id_assignments :
    forall a, In a (assignments ctx) -> incl (snd (fst a)) (inames ctx);
  id_rules :
    forall r, In r (subst_rules ctx) ->
      incl (rule_arguments r) (inames ctx) /\
      incl (reduction_inames (rule_expression r)) (inames ctx)
}.

Definition declares {A : Type} (m : M A) : Prop :=
  keeps m /\
  forall ctx r ctx', m ctx = Ok (r, ctx') ->
    inames_declared ctx -> inames_declared ctx'.

(** [ctx'] is a later state of [ctx] in a run: the use counts are the
    same, and the symbol tables, the memo, the recorded free indices and
    the rules of [ctx] have been appended to. *)
Record later (ctx ctx' : ConversionContext) : Prop := mk_later {
  lt_grows : grows ctx ctx';
  lt_count : expr_use_count ctx' = expr_use_count ctx;
  lt_memo : exists l, node_to_var_name ctx' = node_to_var_name ctx ++ l;
  lt_recorded : exists l, node_to_inames ctx' = node_to_inames ctx ++ l;
  lt_rules : exists l, subst_rules ctx' = subst_rules ctx ++ l
}.

(** A computation leads from a context that has the invariant to a later
    one that has it. *)
Definition advances {A : Type} (m : M A) : Prop :=
  forall ctx r ctx', wf ctx -> m ctx = Ok (r, ctx') -> wf ctx' /\ later ctx ctx'.

(** A computation that has added no substitution rule gives the same
    result again, and changes nothing, in every later context. *)
Definition repeatable {A : Type} (m : M A) : Prop :=
  advances m /\
  forall ctx r ctx', wf ctx -> m ctx = Ok (r, ctx') ->
    subst_rules ctx' = subst_rules ctx ->
    forall ctx'', wf ctx'' -> later ctx' ctx'' -> m ctx'' = Ok (r, ctx'').

(** The entries of the symbol tables hold the attributes of their keys:
    the shape of the variable, the array of the literal, the extent of
    the index; and a key has one entry. *)
Record tables_sound (ctx : ConversionContext) : Prop := mk_tables_sound {
  tsd_var :
    forall k name shape, In (k, (name, shape)) (var_to_name_and_shape ctx) ->
      shape = node_shape k;
  tsd_lit :
    forall k name array, In (k, (name, array)) (literal_to_name_and_array ctx) ->
      forall c, node_array k c = Ok (array, c);
  tsd_idx :
    forall i iname length, In (i, (iname, length)) (index_to_iname_and_length ctx) ->
      length = idx_extent i;
  tsd_var_keys : NoDup (map fst (var_to_name_and_shape ctx));
  tsd_lit_keys : NoDup (map fst (literal_to_name_and_array ctx));
  tsd_idx_keys : NoDup (map fst (index_to_iname_and_length ctx))
}.

Definition sound {A : Type} (m : M A) : Prop :=
  forall ctx r ctx', m ctx = Ok (r, ctx') -> tables_sound ctx -> tables_sound ctx'.

(** The instructions of a top-level assignment, whatever the order in
    which the variables of the subscript are met: the lowered left-hand
    side subscripts a name [agg], and there is one instruction for each
    variable of the subscript, none twice, whose target is that variable
    alone subscripting a name of its own, numbered from [agg] and
    different from it; no target is the lowered left-hand side. *)
Definition variable_targets (lhs_expr : pexpr) (insns : list lp_Assignment)
    : Prop :=
  exists agg index_tuple new_names deps,
    lhs_expr = p_Subscript (p_Variable agg) index_tuple /\
    NoDup deps /\
    (forall x, In x deps <-> In x (flat_map p_variables index_tuple)) /\
    List.length new_names = List.length deps /\
    map assignee insns =
      map (fun nd => p_Subscript (p_Variable (fst nd)) [p_Variable (snd nd)])
        (combine new_names deps) /\
    NoDup new_names /\
    Forall (fun nm => nm <> agg /\ exists k, nm = numbered agg k) new_names /\
    Forall (fun insn => assignee insn <> lhs_expr) insns.

(** The nodes that [rec_gem] visits when it is called on [n]: [n]
    itself, the nodes visited for the children that the lowering of [n]
    hands to [rec_gem], and those visited for the expressions of the
    variable indices that it lowers.  The aggregate of a subscript is
    resolved by name and is not among them, and neither are the index
    descriptors of a flexible subscript of an aggregate of shape
    [(None,)]. *)
Fixpoint reached (n : node) : list node :=
  n ::
  match n with
  | Node cls children _ =>
      match cls with
      | g_Sum | g_Product | g_Division | g_Power | g_MathFunction _
      | g_MinValue | g_MaxValue | g_Comparison _ | g_IndexSum _ =>
          flat_map reached children
      | g_Indexed multiindex => flat_map index_reached multiindex
      | g_FlexiblyIndexed dim2idxs =>
          match children with
          | [c] =>
              if shape_eqb (node_shape c) [None] then []
              else flat_map
                     (fun f => flat_map (fun p => index_reached (fst p)) (snd f))
                     dim2idxs
          | _ => []
          end
      | _ => []
      end
  end
with index_reached (i : index) : list node :=
  match i with
  | g_VariableIndex expression => reached expression
  | _ => []
  end.

(** The eligible nodes of [l] that are used more than once have a
    temporary in the memo. *)
Definition covered (ctx : ConversionContext) (l : list node) : Prop :=
  forall n, In n l -> _is_cse_eligible n = true -> 1 < use_count ctx n ->
    exists v, dict_get node_eqb (node_to_var_name ctx) n = Some v.

(** With a node, the memo holds the nodes visited for it. *)
Definition closed (ctx : ConversionContext) : Prop :=
  forall m v, In (m, v) (node_to_var_name ctx) -> covered ctx (reached m).

(** A computation leaves the nodes of [l] covered, and keeps the memo
    closed. *)
Definition visits {A : Type} (l : list node) (m : M A) : Prop :=
  advances m /\
  forall ctx r ctx', wf ctx -> closed ctx -> m ctx = Ok (r, ctx') ->
    closed ctx' /\ covered ctx' l.

(** The binding of a memo entry: it binds the temporary of the entry,
    over the loop variables of the free indices of the node, to the
    expression that [expr_to_loopy] has returned for the node in an
    earlier context. *)
Definition binding_of (g_literal_to_name : node -> result string)
    (ctx : ConversionContext) (kv : node * string)
    (a : string * list string * pexpr) : Prop :=
  assignment_name a = snd kv /\
  map (iname_of ctx) (node_free_indices (fst kv)) = map Some (snd (fst a)) /\
  exists c c',
    wf c /\
    expr_to_loopy g_literal_to_name (fst kv) c = Ok (snd a, c') /\
    later c' ctx.

(** The bindings of a context are those of its memo entries, in the same
    order. *)
Definition bound (g_literal_to_name : node -> result string)
    (ctx : ConversionContext) : Prop :=
  Forall2 (binding_of g_literal_to_name ctx)
    (node_to_var_name ctx) (assignments ctx).

(** A computation keeps the memo entries and the bindings in step. *)
Definition binds (g_literal_to_name : node -> result string) {A : Type}
    (m : M A) : Prop :=
  advances m /\
  forall ctx r ctx', wf ctx -> m ctx = Ok (r, ctx') ->
    bound g_literal_to_name ctx -> bound g_literal_to_name ctx'.

(** * Properties *)

(** ** Equality tests *)

Lemma list_eqb_eq {A : Type} (eqb : A -> A -> bool) (l : list A) :
  list_all A (fun a => forall b, eqb a b = true -> a = b) l ->
  forall l', list_eqb eqb l l' = true -> l = l'.
Proof.
  induction 1 as [|a Ha l Hl IH]; intros [|b l']; simpl; try congruence.
  intros H. apply andb_true_iff in H as [H1 H2].
  f_equal; auto.
Qed.

Lemma list_all_intro {A : Type} (P : A -> Prop) (l : list A) :
  (forall a, P a) -> list_all A P l.
Proof. intros H. induction l; constructor; auto. Qed.

Lemma list_eqb_refl {A : Type} (eqb : A -> A -> bool) (l : list A) :
  list_all A (fun a => eqb a a = true) l -> list_eqb eqb l l = true.
Proof.
  induction 1; simpl; auto. apply andb_true_iff; auto.
Qed.

Lemma option_eqb_eq {A : Type} (eqb : A -> A -> bool) :
  (forall a b, eqb a b = true -> a = b) ->
  forall a b, option_eqb eqb a b = true -> a = b.
Proof.
  intros H [a|] [b|]; simpl; try congruence. intros E. f_equal; auto.
Qed.

Lemma option_eqb_refl {A : Type} (eqb : A -> A -> bool) :
  (forall a, eqb a a = true) -> forall a, option_eqb eqb a a = true.
Proof. intros H [a|]; simpl; auto. Qed.

Lemma scalar_eqb_eq (a b : scalar) : scalar_eqb a b = true -> a = b.
Proof.
  destruct a as [n d], b as [n' d']; unfold scalar_eqb; simpl.
  intros H. apply andb_true_iff in H as [H1 H2].
  apply Z.eqb_eq in H1. apply Pos.eqb_eq in H2. congruence.
Qed.

Lemma scalar_eqb_refl (a : scalar) : scalar_eqb a a = true.
Proof.
  unfold scalar_eqb. now rewrite Z.eqb_refl, Pos.eqb_refl.
Qed.

Lemma ndarray_eqb_eq (a b : ndarray) : ndarray_eqb a b = true -> a = b.
Proof.
  destruct a as [s f], b as [s' f']; unfold ndarray_eqb; simpl.
  intros H. apply andb_true_iff in H as [H1 H2].
  apply list_eqb_eq in H1;
    [|apply list_all_intro; intros x y E; now apply Nat.eqb_eq].
  apply list_eqb_eq in H2;
    [|apply list_all_intro; intros x y E; now apply scalar_eqb_eq].
  congruence.
Qed.

Lemma ndarray_eqb_refl (a : ndarray) : ndarray_eqb a a = true.
Proof.
  unfold ndarray_eqb. apply andb_true_iff; split; apply list_eqb_refl;
    apply list_all_intro; intros;
    [apply Nat.eqb_refl | apply scalar_eqb_refl].
Qed.

Lemma Index_eqb_eq (i j : Index) : Index_eqb i j = true -> i = j.
Proof.
  destruct i as [n c e], j as [n' c' e']; unfold Index_eqb; simpl.
  intros H. apply andb_true_iff in H as [H H3].
  apply andb_true_iff in H as [H1 H2].
  apply option_eqb_eq in H1; [|intros x y E; now apply String.eqb_eq].
  apply Nat.eqb_eq in H2. apply Z.eqb_eq in H3. congruence.
Qed.

Lemma Index_eqb_refl (i : Index) : Index_eqb i i = true.
Proof.
  unfold Index_eqb.
  rewrite option_eqb_refl by apply String.eqb_refl.
  now rewrite Nat.eqb_refl, Z.eqb_refl.
Qed.

Lemma shape_eqb_eq (s t : list (option nat)) : shape_eqb s t = true -> s = t.
Proof.
  apply list_eqb_eq. apply list_all_intro. intros a b.
  apply option_eqb_eq. intros x y E. now apply Nat.eqb_eq.
Qed.

Lemma shape_eqb_refl (s : list (option nat)) : shape_eqb s s = true.
Proof.
  apply list_eqb_refl, list_all_intro. intros a.
  apply option_eqb_refl, Nat.eqb_refl.
Qed.

Scheme node_mind := Induction for node Sort Prop
  with gem_class_mind := Induction for gem_class Sort Prop
  with index_mind := Induction for index Sort Prop.
Combined Scheme node_mutind from node_mind, gem_class_mind, index_mind.

Lemma node_eqb_sound :
  (forall n m, node_eqb n m = true -> n = m) /\
  (forall c d, cls_eqb c d = true -> c = d) /\
  (forall i j, index_eqb i j = true -> i = j).
Proof.
  apply node_mutind.
  - intros cls IHc children IHch fi [c2 ch2 fi2]. simpl. intros H.
    apply andb_true_iff in H as [H H3]. apply andb_true_iff in H as [H1 H2].
    apply IHc in H1. apply (list_eqb_eq _ _ IHch) in H2.
    apply list_eqb_eq in H3;
      [|apply list_all_intro; intros x y; apply Index_eqb_eq].
    congruence.
  - intros a [ ]; simpl; try congruence. intros H. apply Nat.eqb_eq in H. congruence.
  - intros a [ ]; simpl; try congruence. intros H. apply ndarray_eqb_eq in H. congruence.
  - intros a [ ]; simpl; try congruence. intros H. f_equal.
    revert H. apply list_eqb_eq, list_all_intro. intros x y E. now apply Nat.eqb_eq.
  - intros a s [ ]; simpl; try congruence. intros H.
    apply andb_true_iff in H as [H1 H2].
    apply String.eqb_eq in H1. apply shape_eqb_eq in H2. congruence.
  - intros [ ]; simpl; congruence.
  - intros [ ]; simpl; congruence.
  - intros [ ]; simpl; congruence.
  - intros [ ]; simpl; congruence.
  - intros a [ ]; simpl; try congruence. intros H. apply String.eqb_eq in H. congruence.
  - intros [ ]; simpl; congruence.
  - intros [ ]; simpl; congruence.
  - intros a [ ]; simpl; try congruence. intros H. apply String.eqb_eq in H. congruence.
  - intros a IH [ ]; simpl; try congruence. intros H. f_equal.
    revert H. now apply list_eqb_eq.
  - intros a IH [ ]; simpl; try congruence. intros H. f_equal.
    revert H. apply list_eqb_eq.
    induction IH as [|x Hx l Hl IHl]; constructor; auto.
    destruct Hx as [off _ idxs Hidxs]. intros [off' idxs']. simpl. intros H.
    apply andb_true_iff in H as [H1 H2]. apply Z.eqb_eq in H1.
    f_equal; auto. revert H2. apply list_eqb_eq.
    clear - Hidxs. induction Hidxs as [|p Hp l Hl IHl]; constructor; auto.
    destruct Hp as [i Hi s _]. intros [i' s']. simpl. intros H.
    apply andb_true_iff in H as [H1 H2]. apply Z.eqb_eq in H2.
    f_equal; auto.
  - intros a [ ]; simpl; try congruence. intros H. f_equal.
    revert H. apply list_eqb_eq, list_all_intro. intros x y. apply Index_eqb_eq.
  - intros a [ ]; simpl; try congruence. intros H. apply String.eqb_eq in H. congruence.
  - intros a [ ]; simpl; try congruence. intros H. apply Index_eqb_eq in H. congruence.
  - intros a IH [ ]; simpl; try congruence. intros H. f_equal. auto.
  - intros a [ ]; simpl; try congruence. intros H. apply Z.eqb_eq in H. congruence.
  - intros a [ ]; simpl; try congruence. intros H. apply String.eqb_eq in H. congruence.
Qed.

Lemma node_eqb_refl_all :
  (forall n, node_eqb n n = true) /\
  (forall c, cls_eqb c c = true) /\
  (forall i, index_eqb i i = true).
Proof.
  apply node_mutind; simpl;
    try (intros; first [apply Nat.eqb_refl | apply String.eqb_refl
                       | apply Z.eqb_refl | apply ndarray_eqb_refl
                       | apply Index_eqb_refl | reflexivity]).
  - intros cls IHc children IHch fi. rewrite IHc.
    rewrite (list_eqb_refl _ _ IHch). simpl.
    apply list_eqb_refl, list_all_intro, Index_eqb_refl.
  - intros. apply list_eqb_refl, list_all_intro, Nat.eqb_refl.
  - intros. now rewrite String.eqb_refl, shape_eqb_refl.
  - intros mi IH. now apply list_eqb_refl.
  - intros d IH. apply list_eqb_refl.
    induction IH as [|x Hx l Hl IHl]; constructor; auto.
    destruct Hx as [off _ idxs Hidxs]. simpl. rewrite Z.eqb_refl. simpl.
    apply list_eqb_refl.
    clear - Hidxs. induction Hidxs as [|p Hp l Hl IHl]; constructor; auto.
    destruct Hp as [i Hi s _]. simpl. now rewrite Hi, Z.eqb_refl.
  - intros. apply list_eqb_refl, list_all_intro, Index_eqb_refl.
  - intros e IH. exact IH.
Qed.

Lemma node_eqb_eq (n m : node) : node_eqb n m = true <-> n = m.
Proof.
  split; [apply node_eqb_sound | intros ->; apply node_eqb_refl_all].
Qed.

Lemma node_eqb_refl (n : node) : node_eqb n n = true.
Proof. now apply node_eqb_eq. Qed.

(** ** Strides *)

Lemma wrap_int64_id (z : Z) : in_int64 z -> wrap_int64 z = z.
Proof.
  unfold in_int64, wrap_int64. intros H.
  rewrite Z.mod_small; lia.
Qed.

Lemma last_cons {A : Type} (a d : A) (l : list A) : last (a :: l) d = last l a.
Proof.
  revert a d. induction l as [|b l IH]; intros a d; [reflexivity|].
  change (last (a :: b :: l) d) with (last (b :: l) d).
  now rewrite !(IH b).
Qed.

Lemma cumprod_from_app (l : list Z) (acc x : Z) :
  cumprod_from acc (l ++ [x]) =
  cumprod_from acc l ++ [wrap_int64 (last (cumprod_from acc l) acc * x)].
Proof.
  revert acc. induction l as [|y l IH]; intros acc; [reflexivity|].
  cbn [app cumprod_from]. rewrite IH. cbn [app]. now rewrite last_cons.
Qed.

Lemma hd_suffix_products (t : list Z) : hd 1%Z (suffix_products t) = product t.
Proof. destruct t; reflexivity. Qed.

Lemma last_rev_hd {A : Type} (l : list A) (d : A) : last (rev l) d = hd d l.
Proof.
  destruct l as [|a l]; [reflexivity|]. simpl. apply last_last.
Qed.

Lemma cumprod_suffix_products (t : list Z) :
  Forall in_int64 (suffix_products t) ->
  np_flipud (np_cumprod (np_flipud t)) = suffix_products t.
Proof.
  unfold np_flipud, np_cumprod.
  induction t as [|x t IH]; intros H; [reflexivity|].
  cbn [suffix_products] in H. inversion H as [|? ? Hx Ht]; subst.
  specialize (IH Ht).
  cbn [rev]. rewrite cumprod_from_app, rev_app_distr. cbn [rev app].
  rewrite IH. cbn [suffix_products]. f_equal.
  rewrite <- (rev_involutive (cumprod_from 1 (rev t))), last_rev_hd, IH.
  rewrite hd_suffix_products.
  replace (product t * x)%Z with (product (x :: t)) by (simpl; lia).
  now apply wrap_int64_id.
Qed.

Lemma nth_suffix_products (t : list Z) (i : nat) :
  (i <= List.length t)%nat ->
  nth i (suffix_products t ++ [1%Z]) 0%Z = product (skipn i t).
Proof.
  revert i. induction t as [|x t IH]; intros i Hi.
  - simpl in Hi. assert (i = 0%nat) by lia. subst. reflexivity.
  - destruct i as [|i]; [reflexivity|]. simpl in Hi.
    cbn [suffix_products app nth skipn]. apply IH. lia.
Qed.

Lemma suffix_products_in_range (t : list Z) :
  (forall i, (i < List.length t)%nat -> in_int64 (product (skipn i t))) ->
  Forall in_int64 (suffix_products t).
Proof.
  induction t as [|x t IH]; intros H; cbn [suffix_products]; constructor.
  - apply (H 0%nat). simpl. lia.
  - apply IH. intros i Hi. apply (H (S i)). simpl. lia.
Qed.

(** C7, as amended.  [cumulative_strides] returns the row-major strides of
    a capacity list: the stride of axis [i] is the product of the
    capacities strictly to its right and the last stride is 1, whenever
    each of these products fits in a 64-bit signed integer, the type in
    which numpy accumulates them.  [cumulative_strides [2;3;4]] is
    [[12;4;1]] and [cumulative_strides [5]] is [[1]]. *)
Theorem cumulative_strides_row_major (strides : list Z) :
  (forall i, (i < List.length strides)%nat ->
     in_int64 (product (skipn (S i) strides))) ->
  (forall i, (i < List.length strides)%nat ->
     nth i (cumulative_strides strides) 0%Z = product (skipn (S i) strides)) /\
  last (cumulative_strides strides) 0%Z = 1%Z /\
  cumulative_strides [2; 3; 4]%Z = [12; 4; 1]%Z /\
  cumulative_strides [5]%Z = [1]%Z.
Proof.
  intros Hrange. split; [|split; [|split; reflexivity]].
  - intros i Hi. unfold cumulative_strides.
    destruct strides as [|x t]; [simpl in Hi; lia|].
    cbn [tl]. rewrite cumprod_suffix_products.
    + simpl in Hi. cbn [skipn]. apply nth_suffix_products. lia.
    + apply suffix_products_in_range. intros j Hj.
      apply (Hrange j). simpl. lia.
  - unfold cumulative_strides. apply last_last.
Qed.

Lemma cumulative_strides_row_major_witness :
  (forall i, (i < 3)%nat -> in_int64 (product (skipn (S i) [2; 3; 4]%Z))) /\
  (forall i, (i < 3)%nat ->
     nth i (cumulative_strides [2; 3; 4]%Z) 0%Z = product (skipn (S i) [2; 3; 4]%Z)).
Proof.
  assert (H : forall i, (i < 3)%nat -> in_int64 (product (skipn (S i) [2; 3; 4]%Z))).
  { intros i Hi. destruct i as [|[|[|i]]]; try lia;
      unfold in_int64; simpl; lia. }
  split; [exact H|].
  exact (proj1 (cumulative_strides_row_major [2; 3; 4]%Z H)).
Defined.

(** C7, counterexample.  With capacities [1, 2^32, 2^32] the stride of the
    first axis is 0 and not the product 2^64 of the capacities to its
    right. *)
Lemma cumulative_strides_wraps :
  cumulative_strides [1; 2 ^ 32; 2 ^ 32]%Z = [0; 2 ^ 32; 1]%Z /\
  nth 0 (cumulative_strides [1; 2 ^ 32; 2 ^ 32]%Z) 0%Z <>
    product (skipn 1 [1; 2 ^ 32; 2 ^ 32]%Z).
Proof.
  split; [reflexivity|]. vm_compute. discriminate.
Qed.

(** ** Argument ordering *)

Lemma contains_In (x : Index) (l : list Index) :
  contains Index_eqb x l = true <-> In x l.
Proof.
  induction l as [|y l IH]; simpl; [split; [discriminate | tauto]|].
  rewrite orb_true_iff, IH. split; intros [H|H]; auto.
  - left. now apply Index_eqb_eq.
  - left. subst. apply Index_eqb_refl.
Qed.

Lemma dedup_loop_first_occurrences (l acc : list Index) :
  fold_left
    (fun new_argument_ordering idx =>
       if negb (contains Index_eqb idx new_argument_ordering)
       then new_argument_ordering ++ [idx]
       else new_argument_ordering) l acc =
  acc ++ first_occurrences_from acc l.
Proof.
  revert acc. induction l as [|x l IH]; intros acc; simpl.
  - now rewrite app_nil_r.
  - rewrite IH. destruct (contains Index_eqb x acc); simpl; [reflexivity|].
    now rewrite <- app_assoc.
Qed.

Lemma first_occurrences_from_spec (l seen : list Index) :
  NoDup (first_occurrences_from seen l) /\
  (forall x, In x (first_occurrences_from seen l) <-> In x l /\ ~ In x seen).
Proof.
  revert seen. induction l as [|y l IH]; intros seen; simpl.
  - split; [constructor | tauto].
  - destruct (contains Index_eqb y seen) eqn:E.
    + apply contains_In in E. destruct (IH seen) as [H1 H2].
      split; [exact H1|]. intros x. rewrite H2.
      split; [tauto|]. intros [[->|H] H']; tauto.
    + assert (Hy : ~ In y seen).
      { intros H. apply contains_In in H. congruence. }
      destruct (IH (seen ++ [y])) as [H1 H2]. split.
      * constructor; [|exact H1]. rewrite H2, in_app_iff. simpl. tauto.
      * intros x. simpl. rewrite H2, in_app_iff. simpl.
        split.
        -- intros [->|[H H']]; tauto.
        -- intros [[->|H] H']; [tauto|].
           destruct (contains Index_eqb x [y]) eqn:Ex.
           ++ apply contains_In in Ex. simpl in Ex. left. tauto.
           ++ right. split; [exact H|]. intros [H3|[H3|[]]]; [tauto|].
              subst. simpl in Ex. rewrite Index_eqb_refl in Ex. discriminate.
Qed.

Lemma first_occurrences_from_idem (l seen : list Index) :
  first_occurrences_from seen (first_occurrences_from seen l) =
  first_occurrences_from seen l.
Proof.
  revert seen. induction l as [|y l IH]; intros seen; simpl; [reflexivity|].
  destruct (contains Index_eqb y seen) eqn:E; [apply IH|].
  simpl. rewrite E. f_equal. apply IH.
Qed.

Section ArgumentOrdering.
Variable g_literal_to_name : node -> result string.
Variable list_of_set : list string -> list string.

Lemma dedup_first_occurrences (argument_ordering : list Index) :
  dedup_argument_ordering argument_ordering = first_occurrences argument_ordering.
Proof.
  unfold dedup_argument_ordering. now rewrite dedup_loop_first_occurrences.
Qed.

End ArgumentOrdering.

(** ** The iteration domain *)

Section Domain.
Variable g_literal_to_name : node -> result string.
Variable list_of_set : list string -> list string.

Lemma construct_domain_empty (ctx : ConversionContext) :
  index_to_iname_and_length ctx = [] ->
  construct_domain ctx = Raise (AttributeError "get_basic_sets").
Proof. unfold construct_domain. now intros ->. Qed.

(** C10.  When no loop index has been registered by the time the domain
    is built, the domain accumulator is still unset and [tsfc_to_loopy]
    raises instead of returning a kernel. *)
Theorem empty_index_table_fails (ir : list (node * node))
    (argument_ordering : list Index) (kernel_name : string)
    (generate_increments : bool) (lw : lowered) :
  generate_instructions g_literal_to_name list_of_set ir argument_ordering
    generate_increments = Ok lw ->
  index_to_iname_and_length (lw_ctx lw) = [] ->
  construct_domain (lw_ctx lw) = Raise (AttributeError "get_basic_sets") /\
  tsfc_to_loopy g_literal_to_name list_of_set ir argument_ordering kernel_name
    generate_increments = Raise (AttributeError "get_basic_sets") /\
  forall knl, tsfc_to_loopy g_literal_to_name list_of_set ir argument_ordering kernel_name
                generate_increments <> Ok knl.
Proof.
  intros Hlw Hempty.
  pose proof (construct_domain_empty _ Hempty) as Hd.
  assert (Hrun : tsfc_to_loopy g_literal_to_name list_of_set ir argument_ordering
                   kernel_name generate_increments =
                 Raise (AttributeError "get_basic_sets")).
  { unfold tsfc_to_loopy. now rewrite Hlw, Hd. }
  repeat split; auto. intros knl. rewrite Hrun. discriminate.
Qed.
End Domain.

Lemma empty_index_table_fails_witness :
  exists lw,
    generate_instructions gem_no_literal_to_name insertion_order constant_subscript_ir [] false = Ok lw /\
    index_to_iname_and_length (lw_ctx lw) = [] /\
    tsfc_to_loopy gem_no_literal_to_name insertion_order constant_subscript_ir [] "tsfc_kernel" false =
      Raise (AttributeError "get_basic_sets").
Proof.
  eexists. split; [vm_compute; reflexivity|]. split; [reflexivity|].
  refine (proj1 (proj2 (empty_index_table_fails gem_no_literal_to_name insertion_order
                          constant_subscript_ir [] "tsfc_kernel" false _ _ _))).
  - vm_compute. reflexivity.
  - reflexivity.
Defined.

(** ** Write footprints *)

Lemma check_write_footprints_no_conflict (domain assumptions : isl_set)
    (pymbolic_lhss : list pexpr) :
  check_write_footprints domain assumptions [] pymbolic_lhss <>
  Raise (ValueError "assignment write ranges are not disjoint").
Proof.
  induction pymbolic_lhss as [|lhs rest IH]; simpl; [discriminate|].
  destruct lhs; simpl; try discriminate.
  unfold get_access_range.
  destruct (sequence_option _); [exact IH | discriminate].
Qed.

(** C1, at the failing input.  The two assignments of [overlapping_ir]
    write the same entries [a[i]]: their footprints are equal and not
    empty.  The run returns a kernel all the same, and the check raises
    the write-conflict error on no input, because the list of the earlier
    footprints stays empty. *)
Theorem write_conflict_undetected :
  (exists lw,
     generate_instructions gem_no_literal_to_name insertion_order overlapping_ir [index_i] false = Ok lw /\
     lw_pymbolic_lhss lw =
       [p_Subscript (p_Variable "a") [p_Variable "i"];
        p_Subscript (p_Variable "a") [p_Variable "i"]]) /\
  (exists r,
     get_access_range [("i", 3%Z)] [p_Variable "i"] [] = Ok r /\
     range_is_empty (range_inter r r) = false) /\
  (exists knl,
     tsfc_to_loopy gem_no_literal_to_name insertion_order overlapping_ir [index_i] "tsfc_kernel" false =
       Ok knl /\ knl_domains knl = [[("i", 3%Z)]]) /\
  (forall domain assumptions pymbolic_lhss,
     check_write_footprints domain assumptions [] pymbolic_lhss <>
     Raise (ValueError "assignment write ranges are not disjoint")).
Proof.
  split; [eexists; split; vm_compute; reflexivity|].
  split; [eexists; split; vm_compute; reflexivity|].
  split; [eexists; split; vm_compute; reflexivity|].
  exact check_write_footprints_no_conflict.
Qed.

(** ** Literals *)

(** C2, at the failing input.  Lowering the rank-one literal [lit_vec]
    leaves the literal table of the context empty whatever the attribute
    of the gem module returns, and raises when the module has no such
    attribute; the method [literal_to_name] of the context, which the
    lowering of a subscripted literal goes through, allocates and records
    the name [cnst].  A literal of rank zero is lowered to its value. *)
Theorem map_literal_bypasses_literal_table :
  (forall g_literal_to_name r ctx',
     expr_to_loopy g_literal_to_name lit_vec (ConversionContext_init []) = Ok (r, ctx') ->
     ctx' = ConversionContext_init [] /\
     dict_get node_eqb (literal_to_name_and_array ctx') lit_vec = None /\
     g_literal_to_name lit_vec = Ok match r with p_Variable name => name | _ => "" end) /\
  expr_to_loopy gem_no_literal_to_name lit_vec (ConversionContext_init []) =
    Raise (AttributeError "literal_to_name") /\
  (exists ctx',
     literal_to_name lit_vec (ConversionContext_init []) = Ok ("cnst", ctx') /\
     dict_get node_eqb (literal_to_name_and_array ctx') lit_vec =
       Some ("cnst", mk_ndarray [2%nat] [scalar_of_Z 1; scalar_of_Z 2])) /\
  (forall g_literal_to_name v children fi ctx,
     expr_to_loopy g_literal_to_name
       (Node (g_Literal (mk_ndarray [] [v])) children fi) ctx = Ok (p_Num v, ctx)).
Proof.
  split; [|split; [reflexivity|split; [eexists; split; vm_compute; reflexivity|]]].
  - intros g r ctx'.
    change (expr_to_loopy g lit_vec) with
      (map_literal g lit_vec (mk_ndarray [2%nat] [scalar_of_Z 1; scalar_of_Z 2])).
    unfold map_literal. cbn [nd_shape].
    destruct (g lit_vec) as [name|e]; unfold ret, raise; intros H;
      [|discriminate H].
    inversion H; subst. auto.
  - intros. reflexivity.
Qed.

(** ** Strings and fresh names *)

Lemma contains_string_In (x : string) (l : list string) :
  contains String.eqb x l = true <-> In x l.
Proof.
  induction l as [|y l IH]; simpl; [split; [discriminate | tauto]|].
  rewrite orb_true_iff, IH, String.eqb_eq. tauto.
Qed.

Lemma contains_string_not_In (x : string) (l : list string) :
  contains String.eqb x l = false <-> ~ In x l.
Proof.
  rewrite <- contains_string_In. destruct (contains String.eqb x l); split;
    congruence.
Qed.

Lemma append_inv_head (s a b : string) : (s ++ a = s ++ b)%string -> a = b.
Proof.
  induction s as [|c s IH]; simpl; intros H; [exact H|].
  injection H as H. auto.
Qed.

Lemma to_uint_nonnil (n : nat) : Nat.to_uint n <> Decimal.Nil.
Proof.
  rewrite <- (Unsigned.of_to n), Unsigned.to_of.
  apply DecimalFacts.unorm_nonnil.
Qed.

Lemma string_of_nat_inj (n m : nat) : string_of_nat n = string_of_nat m -> n = m.
Proof.
  unfold string_of_nat. intros H. apply Unsigned.to_uint_inj.
  apply (f_equal NilZero.uint_of_string) in H.
  rewrite !NilZero.usu in H by apply to_uint_nonnil.
  now injection H.
Qed.

Lemma numbered_inj (based_on : string) (n m : nat) :
  numbered based_on n = numbered based_on m -> n = m.
Proof.
  unfold numbered. intros H.
  apply append_inv_head in H. apply (append_inv_head "_") in H.
  now apply string_of_nat_inj.
Qed.

Lemma first_unused_fresh (based_on : string) (existing : list string) :
  forall fuel try_num l,
    (forall n, try_num <= n ->
               (In (numbered based_on n) existing <-> In (numbered based_on n) l)) ->
    List.length l <= fuel ->
    ~ In (first_unused based_on existing try_num fuel) existing.
Proof.
  induction fuel as [|fuel IH]; intros try_num l Hl Hlen; simpl.
  - destruct l; [|simpl in Hlen; lia]. rewrite (Hl try_num) by lia. simpl. tauto.
  - destruct (contains String.eqb (numbered based_on try_num) existing) eqn:E.
    + apply contains_string_In in E.
      apply (IH (S try_num) (remove string_dec (numbered based_on try_num) l)).
      * intros n Hn. rewrite (Hl n) by lia. split.
        -- intros H. apply in_in_remove; [|exact H].
           intros E'. apply numbered_inj in E'. lia.
        -- intros H. now apply in_remove in H.
      * apply (Hl try_num) in E; [|lia].
        pose proof (remove_length_lt string_dec l _ E). lia.
    + now apply contains_string_not_In.
Qed.

Lemma first_unused_numbered (based_on : string) (existing : list string) :
  forall fuel try_num,
    exists n, first_unused based_on existing try_num fuel = numbered based_on n.
Proof.
  induction fuel as [|fuel IH]; intros try_num; simpl; [eauto|].
  destruct (contains String.eqb _ existing); eauto.
Qed.

Lemma get_unique_name_fresh (based_on : string) (existing : list string) :
  ~ In (get_unique_name based_on existing) existing.
Proof.
  unfold get_unique_name.
  destruct (contains String.eqb based_on existing) eqn:E.
  - apply (first_unused_fresh based_on existing _ 0 existing); [tauto | lia].
  - now apply contains_string_not_In.
Qed.

Lemma get_unique_name_form (based_on : string) (existing : list string) :
  get_unique_name based_on existing = based_on \/
  exists n, get_unique_name based_on existing = numbered based_on n.
Proof.
  unfold get_unique_name.
  destruct (contains String.eqb based_on existing); [right | left; reflexivity].
  apply first_unused_numbered.
Qed.

(** ** Dictionaries *)

Section DictFacts.
Context {K V : Type} (eqb : K -> K -> bool).
Hypothesis eqb_eq : forall a b, eqb a b = true <-> a = b.

Lemma dict_get_Some_In (d : list (K * V)) (k : K) (v : V) :
  dict_get eqb d k = Some v -> In (k, v) d.
Proof.
  induction d as [|[k' v'] d IH]; simpl; [discriminate|].
  destruct (eqb k' k) eqn:E.
  - apply eqb_eq in E. intros H. injection H as ->. subst. now left.
  - auto.
Qed.

Lemma dict_get_None_notin (d : list (K * V)) (k : K) :
  dict_get eqb d k = None <-> ~ In k (map fst d).
Proof.
  induction d as [|[k' v'] d IH]; simpl; [tauto|].
  destruct (eqb k' k) eqn:E.
  - apply eqb_eq in E. split; [discriminate | tauto].
  - rewrite IH. split; [|tauto]. intros H [H'|H']; [|tauto].
    apply eqb_eq in H'. congruence.
Qed.

Lemma dict_get_In (d : list (K * V)) (k : K) (v : V) :
  NoDup (map fst d) -> In (k, v) d -> dict_get eqb d k = Some v.
Proof.
  induction d as [|[k' v'] d IH]; simpl; [tauto|].
  intros Hnd [H|H].
  - injection H as -> ->. now rewrite (proj2 (eqb_eq k k) eq_refl).
  - inversion Hnd as [|? ? Hk Hd]; subst.
    destruct (eqb k' k) eqn:E; [|auto].
    apply eqb_eq in E. subst. exfalso. apply Hk.
    now apply (in_map fst) in H.
Qed.

Lemma dict_set_miss (d : list (K * V)) (k : K) (v : V) :
  dict_get eqb d k = None -> dict_set eqb d k v = d ++ [(k, v)].
Proof.
  induction d as [|[k' v'] d IH]; simpl; [reflexivity|].
  destruct (eqb k' k); [discriminate|]. intros H. now rewrite IH.
Qed.

Lemma dict_get_app (d l : list (K * V)) (k : K) :
  dict_get eqb (d ++ l) k =
  match dict_get eqb d k with
  | Some v => Some v
  | None => dict_get eqb l k
  end.
Proof.
  induction d as [|[k' v'] d IH]; simpl; [reflexivity|].
  destruct (eqb k' k); auto.
Qed.

End DictFacts.

Lemma dict_get_same_keys {K V W : Type} (eqb : K -> K -> bool)
    (d : list (K * V)) (d' : list (K * W)) (k : K) :
  (forall a b, eqb a b = true <-> a = b) ->
  map fst d = map fst d' ->
  dict_get eqb d k = None -> dict_get eqb d' k = None.
Proof.
  intros Heq H. rewrite !(dict_get_None_notin eqb Heq). now rewrite H.
Qed.

(** ** Runs of a computation on the context *)

Lemma bind_inv {A B : Type} (m : M A) (f : A -> M B)
    (ctx ctx'' : ConversionContext) (b : B) :
  bind m f ctx = Ok (b, ctx'') ->
  exists a ctx', m ctx = Ok (a, ctx') /\ f a ctx' = Ok (b, ctx'').
Proof.
  unfold bind. destruct (m ctx) as [[a ctx']|e]; [eauto | discriminate].
Qed.

Ltac run_inv :=
  repeat match goal with
  | H : bind _ _ _ = Ok _ |- _ =>
      let a := fresh "a" in
      let c := fresh "c" in
      let Hrun := fresh "Hrun" in
      apply bind_inv in H; destruct H as (a & c & Hrun & H)
  | H : ret _ _ = Ok _ |- _ => unfold ret in H
  | H : gets _ _ = Ok _ |- _ => unfold gets in H
  | H : modify _ _ = Ok _ |- _ => unfold modify in H
  | H : raise _ _ = Ok _ |- _ => discriminate H
  | H : Raise _ = Ok _ |- _ => discriminate H
  | H : Ok _ = Ok _ |- _ => inversion H; subst; clear H
  end.

Lemma name_gen_call_inv (based_on name : string) (ctx ctx' : ConversionContext) :
  name_gen_call based_on ctx = Ok (name, ctx') ->
  name = get_unique_name based_on (names ctx) /\
  ctx' = set_name_gen (mk_UniqueNameGenerator (name :: names ctx)) ctx.
Proof.
  unfold name_gen_call, UniqueNameGenerator_call, names.
  intros H. inversion H; subst. auto.
Qed.

Lemma table_step_refl (ctx : ConversionContext) : table_step ctx ctx.
Proof. constructor; auto using incl_refl. Qed.

Lemma table_step_trans (c1 c2 c3 : ConversionContext) :
  table_step c1 c2 -> table_step c2 c3 -> table_step c1 c3.
Proof.
  intros [ ] [ ]. constructor; try congruence.
  - eapply incl_tran; eauto.
  - intros k v H. apply ts_var1 in H as [H|H]; [|tauto].
    apply ts_var0 in H as [H|H]; auto.
  - intros k v H. apply ts_lit1 in H as [H|H]; [|tauto].
    apply ts_lit0 in H as [H|H]; auto.
Qed.

Lemma use_count_eq (c c' : ConversionContext) (n : node) :
  expr_use_count c' = expr_use_count c -> use_count c' n = use_count c n.
Proof. unfold use_count. now intros ->. Qed.

Lemma table_step_wf (c c' : ConversionContext) :
  wf c -> table_step c c' -> wf c'.
Proof.
  intros [ ] [ ]. constructor.
  - intros k v H. apply ts_var0 in H as [H|H]; eauto.
  - intros k v H. apply ts_lit0 in H as [H|H]; eauto.
  - intros r. rewrite ts_rules0. auto.
  - now rewrite ts_rules0.
  - intros k v. rewrite ts_memo0. eauto.
  - now rewrite ts_memo0, ts_assignments0.
  - now rewrite ts_memo0.
  - now rewrite ts_memo0, ts_recorded0.
  - now rewrite ts_memo0.
  - intros k fis. rewrite ts_recorded0. auto.
  - intros k v. rewrite ts_memo0, (use_count_eq c c') by assumption.
    apply wf_eligible0.
  - now rewrite ts_cse_names0, ts_memo0.
Qed.

Lemma extends_refl (s : nat) (c : ConversionContext) : extends s c c.
Proof.
  constructor; auto using incl_refl; exists []; rewrite app_nil_r; auto.
Qed.

Lemma extends_trans (s : nat) (c1 c2 c3 : ConversionContext) :
  extends s c1 c2 -> extends s c2 c3 -> extends s c1 c3.
Proof.
  intros [H1 H2 (l3 & H3 & H3') (l4 & H4) (l5 & H5) (l6 & H6)]
         [K1 K2 (m3 & K3 & K3') (m4 & K4) (m5 & K5) (m6 & K6)].
  constructor.
  - congruence.
  - eapply incl_tran; eauto.
  - exists (l3 ++ m3). rewrite K3, H3, app_assoc. split; [reflexivity|].
    apply Forall_app; auto.
  - exists (l4 ++ m4). now rewrite K4, H4, app_assoc.
  - exists (l5 ++ m5). now rewrite K5, H5, app_assoc.
  - exists (l6 ++ m6). now rewrite K6, H6, app_assoc.
Qed.

Lemma extends_mono (s s' : nat) (c c' : ConversionContext) :
  s <= s' -> extends s c c' -> extends s' c c'.
Proof.
  intros Hs [H1 H2 (l3 & H3 & H3') H4 H5 H6]. constructor; auto.
  exists l3. split; [exact H3|].
  eapply Forall_impl; [|exact H3']. simpl. intros. lia.
Qed.

Lemma table_step_extends (s : nat) (c c' : ConversionContext) :
  table_step c c' -> extends s c c'.
Proof.
  intros [ ]. constructor; auto; exists []; rewrite app_nil_r; auto.
Qed.

Lemma name_gen_call_step (based_on name : string) (ctx ctx' : ConversionContext) :
  name_gen_call based_on ctx = Ok (name, ctx') ->
  table_step ctx ctx' /\ ~ In name (names ctx) /\ names ctx' = name :: names ctx /\
  (name = based_on \/ exists n, name = numbered based_on n).
Proof.
  intros H. apply name_gen_call_inv in H as [Hn ->].
  split; [|split; [|split]].
  - constructor; auto. unfold names. simpl. apply incl_tl, incl_refl.
  - subst. apply get_unique_name_fresh.
  - reflexivity.
  - subst. apply get_unique_name_form.
Qed.

Lemma node_name_pure (n : node) (a : string) (c c' : ConversionContext) :
  node_name n c = Ok (a, c') -> c' = c.
Proof. unfold node_name. destruct (node_cls n); intros H; run_inv; reflexivity. Qed.

Lemma node_array_pure (n : node) (a : ndarray) (c c' : ConversionContext) :
  node_array n c = Ok (a, c') -> c' = c.
Proof. unfold node_array. destruct (node_cls n); intros H; run_inv; reflexivity. Qed.

Lemma variable_to_name_step (n : node) (name : string) (ctx ctx' : ConversionContext) :
  wf ctx -> variable_to_name n ctx = Ok (name, ctx') ->
  table_step ctx ctx' /\ In name (names ctx').
Proof.
  intros Hwf H. unfold variable_to_name in H. run_inv.
  destruct (dict_get node_eqb (var_to_name_and_shape c) n) as [[nm shape]|] eqn:E.
  - destruct (shape_eqb (node_shape n) shape); run_inv.
    split; [apply table_step_refl|].
    apply (dict_get_Some_In node_eqb node_eqb_eq) in E.
    apply (wf_var _ Hwf) in E. exact E.
  - run_inv. apply node_name_pure in Hrun. subst c0.
    pose proof (name_gen_call_inv _ _ _ _ Hrun0) as [_ Hc1].
    apply name_gen_call_step in Hrun0 as (Hs & Hfresh & Hnames & _).
    assert (In name (names c1)) by (rewrite Hnames; now left).
    split; [|exact H].
    eapply table_step_trans; [exact Hs|].
    constructor; auto using incl_refl.
    simpl. intros k v Hin.
    rewrite (dict_set_miss node_eqb) in Hin.
    + apply in_app_iff in Hin as [Hin|[Hin|[]]]; [now left|].
      inversion Hin; subst. now right.
    + rewrite Hc1. exact E.
Qed.

Lemma literal_to_name_step (n : node) (name : string) (ctx ctx' : ConversionContext) :
  wf ctx -> literal_to_name n ctx = Ok (name, ctx') ->
  table_step ctx ctx' /\ In name (names ctx').
Proof.
  intros Hwf H. unfold literal_to_name in H. run_inv.
  destruct (dict_get node_eqb (literal_to_name_and_array c) n) as [[nm array]|] eqn:E.
  - run_inv. apply node_array_pure in Hrun. subst c0.
    destruct (array_equal array a); run_inv.
    split; [apply table_step_refl|].
    apply (dict_get_Some_In node_eqb node_eqb_eq) in E.
    apply (wf_lit _ Hwf) in E. exact E.
  - run_inv. apply node_array_pure in Hrun0. subst c1.
    pose proof (name_gen_call_inv _ _ _ _ Hrun) as [_ Hc0].
    apply name_gen_call_step in Hrun as (Hs & Hfresh & Hnames & _).
    assert (In name (names c0)) by (rewrite Hnames; now left).
    split; [|exact H].
    eapply table_step_trans; [exact Hs|].
    constructor; auto using incl_refl.
    simpl. intros k v Hin.
    rewrite (dict_set_miss node_eqb) in Hin.
    + apply in_app_iff in Hin as [Hin|[Hin|[]]]; [now left|].
      inversion Hin; subst. now right.
    + rewrite Hc0. exact E.
Qed.

Lemma index_to_iname_step (i : Index) (iname : string) (ctx ctx' : ConversionContext) :
  index_to_iname i ctx = Ok (iname, ctx') -> table_step ctx ctx'.
Proof.
  intros H. unfold index_to_iname in H. run_inv.
  destruct (dict_get Index_eqb (index_to_iname_and_length c) i) as [[nm len]|].
  - destruct (Z.eqb (idx_extent i) len); run_inv. apply table_step_refl.
  - run_inv. apply name_gen_call_step in Hrun as (Hs & _).
    eapply table_step_trans; [exact Hs|].
    constructor; auto using incl_refl.
Qed.

Lemma mapM_table_step {A B : Type} (f : A -> M B) (l : list A) :
  (forall a c r c', f a c = Ok (r, c') -> table_step c c') ->
  forall c rs c', mapM f l c = Ok (rs, c') -> table_step c c'.
Proof.
  intros Hf. induction l as [|a l IH]; intros c rs c' H; cbn [mapM] in H; run_inv.
  - apply table_step_refl.
  - eapply table_step_trans; [eapply Hf; eassumption|]. eapply IH; eassumption.
Qed.

Lemma mapM_index_to_iname_step (l : list Index) (rs : list string)
    (c c' : ConversionContext) :
  mapM index_to_iname l c = Ok (rs, c') -> table_step c c'.
Proof. apply mapM_table_step. intros a c0 r c0'. apply index_to_iname_step. Qed.

Lemma map_index_step (i : Index) (r : pexpr) (c c' : ConversionContext) :
  map_index i c = Ok (r, c') -> table_step c c'.
Proof.
  unfold map_index. intros H. run_inv. eapply index_to_iname_step; eassumption.
Qed.

Lemma index_aggregate_to_name_step (n : node) (name : string)
    (ctx ctx' : ConversionContext) :
  wf ctx -> index_aggregate_to_name n ctx = Ok (name, ctx') ->
  table_step ctx ctx' /\ In name (names ctx').
Proof.
  intros Hwf. unfold index_aggregate_to_name.
  destruct (node_cls n); try (apply variable_to_name_step; assumption);
    destruct (is_Constant n); intros H; run_inv;
    eapply literal_to_name_step; eassumption.
Qed.

(** ** The two steps that extend the memo and the rules *)

Lemma NoDup_snoc {A : Type} (l : list A) (x : A) :
  NoDup l -> ~ In x l -> NoDup (l ++ [x]).
Proof.
  intros Hl Hx. apply NoDup_app; auto.
  - constructor; [tauto | constructor].
  - intros a Ha [H|[]]. subst. tauto.
Qed.

Lemma add_name_fresh (l : list string) (x : string) :
  ~ In x l -> add_name l x = l ++ [x].
Proof.
  intros H. unfold add_name.
  now rewrite (proj2 (contains_string_not_In x l) H).
Qed.

(** The end of a first visit of [rec_gem]: from the context [c1] reached
    by lowering the node, a temporary is allocated, the memo is extended,
    the free indices are registered (up to [c4]) and recorded, and the
    binding is appended. *)
Lemma cse_bind_wf (c1 c2 c4 : ConversionContext) (n : node) (v : string)
    (inames : list string) (result : pexpr) :
  wf c1 ->
  name_gen_call "cse" c1 = Ok (v, c2) ->
  dict_get node_eqb (node_to_var_name c1) n = None ->
  _is_cse_eligible n = true ->
  1 < use_count c1 n ->
  table_step
    (set_node_to_var_name (dict_set node_eqb (node_to_var_name c2) n v)
       (set_cse_names (add_name (cse_names c2) v) c2)) c4 ->
  let c5 :=
    set_assignments (assignments c4 ++ [(v, inames, result)])
      (set_node_to_inames
         (dict_set node_eqb (node_to_inames c4) n (node_free_indices n)) c4) in
  wf c5 /\ extends (S (node_size n)) c1 c5 /\
  node_to_var_name c5 = node_to_var_name c1 ++ [(n, v)] /\
  node_to_inames c5 = node_to_inames c1 ++ [(n, node_free_indices n)] /\
  assignments c5 = assignments c1 ++ [(v, inames, result)] /\
  subst_rules c5 = subst_rules c1 /\
  ~ In v (names c1).
Proof.
  intros Hwf Hgen Hmiss Helig Huses Hts c5.
  apply name_gen_call_step in Hgen as Hstep.
  destruct Hstep as (_ & Hfresh & _ & _).
  apply name_gen_call_inv in Hgen as [_ ->].
  destruct Hts as [T1 T2 T3 T4 T5 T6 T7 T8 T9]. simpl in *.
  assert (Hmiss' : dict_get node_eqb (node_to_inames c1) n = None).
  { eapply dict_get_same_keys; [exact node_eqb_eq | apply (wf_keys _ Hwf) | exact Hmiss]. }
  rewrite (dict_set_miss node_eqb _ _ _ Hmiss) in T2.
  assert (Hv : ~ In v (map snd (node_to_var_name c1))).
  { intros H. apply in_map_iff in H as ([k x] & Hx & H). simpl in Hx. subst x.
    apply Hfresh. eapply wf_memo_in; eauto. }
  rewrite add_name_fresh in T6 by (rewrite (wf_cse_names _ Hwf); exact Hv).
  assert (Hin4 : In v (names c4)) by (apply T7; now left).
  assert (Hincl : incl (names c1) (names c4)).
  { intros x Hx. apply T7. now right. }
  assert (M : node_to_var_name c5 = node_to_var_name c1 ++ [(n, v)]) by exact T2.
  assert (R : node_to_inames c5 = node_to_inames c1 ++ [(n, node_free_indices n)]).
  { unfold c5. simpl. rewrite T3. now apply dict_set_miss. }
  assert (A : assignments c5 = assignments c1 ++ [(v, inames, result)]).
  { unfold c5. simpl. now rewrite T4. }
  assert (Hwf5 : wf c5).
  { constructor.
    - intros k x H. apply T8 in H as [H|H]; [|exact H].
      apply Hincl. eapply wf_var; eauto.
    - intros k x H. apply T9 in H as [H|H]; [|exact H].
      apply Hincl. eapply wf_lit; eauto.
    - intros r H. change (subst_rules c5) with (subst_rules c4) in H.
      rewrite T5 in H. apply Hincl. eapply wf_rules_in; eauto.
    - change (subst_rules c5) with (subst_rules c4). rewrite T5.
      apply (wf_rules_nodup _ Hwf).
    - intros k x H. rewrite M in H. apply in_app_iff in H as [H|[H|[]]].
      + apply Hincl. eapply wf_memo_in; eauto.
      + inversion H; subst. exact Hin4.
    - rewrite M, A, !map_app. simpl. now rewrite (wf_memo_assign _ Hwf).
    - rewrite M, map_app. simpl. apply NoDup_snoc; [apply (wf_memo_nodup _ Hwf) | exact Hv].
    - rewrite M, R, !map_app. simpl. now rewrite (wf_keys _ Hwf).
    - rewrite M, map_app. simpl. apply NoDup_snoc; [apply (wf_keys_nodup _ Hwf)|].
      now apply (dict_get_None_notin node_eqb node_eqb_eq).
    - intros k fis H. rewrite R in H. apply in_app_iff in H as [H|[H|[]]].
      + eapply wf_recorded; eauto.
      + now inversion H.
    - intros k x H. rewrite M in H.
      rewrite (use_count_eq c1 c5) by exact T1.
      apply in_app_iff in H as [H|[H|[]]].
      + eapply wf_eligible; eauto.
      + inversion H; subst. auto.
    - change (cse_names c5) with (cse_names c4).
      rewrite T6, M, map_app. simpl. now rewrite (wf_cse_names _ Hwf). }
  split; [exact Hwf5|]. split; [|repeat split; auto; exact T5].
  constructor.
  - exact T1.
  - exact Hincl.
  - exists [(n, v)]. split; [exact M|]. constructor; [simpl; lia | constructor].
  - eexists; exact R.
  - eexists; exact A.
  - exists []. rewrite app_nil_r. exact T5.
Qed.

(** The end of [map_index_sum]: a rule under a name allocated at [c1] is
    appended after the indices have been registered (up to [c4]). *)
Lemma rule_append_wf (c1 c2 c4 : ConversionContext) (name : string)
    (arg_names : list string) (body : pexpr) :
  wf c1 ->
  name_gen_call "sum_tmp" c1 = Ok (name, c2) ->
  table_step c2 c4 ->
  let c5 :=
    set_subst_rules
      (subst_rules c4 ++ [mk_SubstitutionRule name arg_names body]) c4 in
  wf c5 /\ extends 0 c1 c5 /\
  subst_rules c5 = subst_rules c1 ++ [mk_SubstitutionRule name arg_names body] /\
  assignments c5 = assignments c1 /\
  ~ In name (names c1) /\
  ~ In name (map rule_name (subst_rules c1)).
Proof.
  intros Hwf Hgen Hts c5.
  apply name_gen_call_step in Hgen as (Hs & Hfresh & Hnames & _).
  assert (Hin2 : In name (names c2)) by (rewrite Hnames; now left).
  pose proof (table_step_trans _ _ _ Hs Hts) as Hts'.
  pose proof (table_step_wf _ _ Hwf Hts') as Hwf4.
  destruct Hts as [_ _ _ _ _ _ U7 _ _].
  destruct Hts' as [T1 T2 T3 T4 T5 T6 T7 T8 T9].
  assert (Hr : ~ In name (map rule_name (subst_rules c1))).
  { intros H. apply in_map_iff in H as (r & Hx & H). subst name.
    apply Hfresh. eapply wf_rules_in; eauto. }
  assert (S : subst_rules c5 =
              subst_rules c1 ++ [mk_SubstitutionRule name arg_names body]).
  { unfold c5. simpl. now rewrite T5. }
  split; [|split; [|repeat split; auto]].
  - destruct Hwf4. constructor; auto.
    + intros r H. rewrite S in H. apply in_app_iff in H as [H|[H|[]]].
      * apply T7. eapply wf_rules_in; eauto.
      * subst r. simpl. apply U7, Hin2.
    + rewrite S, map_app. simpl. apply NoDup_snoc; [apply (wf_rules_nodup _ Hwf) | exact Hr].
  - constructor; auto.
    + exists []. rewrite app_nil_r. split; [exact T2 | constructor].
    + exists []. rewrite app_nil_r. exact T3.
    + exists []. rewrite app_nil_r. exact T4.
    + eexists. exact S.
Qed.

(** ** Computations that keep the invariant *)

Lemma preserves_mono {A : Type} (s s' : nat) (m : M A) :
  s <= s' -> preserves s m -> preserves s' m.
Proof.
  intros Hs Hm ctx r ctx' Hwf H. destruct (Hm _ _ _ Hwf H) as [H1 H2].
  split; [exact H1 | eapply extends_mono; eauto].
Qed.

Lemma preserves_ret {A : Type} (s : nat) (a : A) : preserves s (ret a).
Proof.
  intros ctx r ctx' Hwf H. run_inv. split; [exact Hwf | apply extends_refl].
Qed.

Lemma preserves_raise {A : Type} (s : nat) (e : exn) : preserves s (@raise A e).
Proof. intros ctx r ctx' Hwf H. discriminate H. Qed.

Lemma preserves_bind {A B : Type} (s : nat) (m : M A) (f : A -> M B) :
  preserves s m -> (forall a, preserves s (f a)) -> preserves s (bind m f).
Proof.
  intros Hm Hf ctx r ctx' Hwf H. run_inv.
  destruct (Hm _ _ _ Hwf Hrun) as [H1 H2].
  destruct (Hf _ _ _ _ H1 H) as [H3 H4].
  split; [exact H3 | eapply extends_trans; eauto].
Qed.

Lemma preserves_mapM {A B : Type} (s : nat) (f : A -> M B) (l : list A) :
  Forall (fun a => preserves s (f a)) l -> preserves s (mapM f l).
Proof.
  induction 1 as [|a l Ha Hl IH]; cbn [mapM].
  - apply preserves_ret.
  - apply preserves_bind; [exact Ha|]. intros b.
    apply preserves_bind; [exact IH|]. intros bs. apply preserves_ret.
Qed.

Lemma preserves_table_step {A : Type} (s : nat) (m : M A) :
  (forall ctx r ctx', wf ctx -> m ctx = Ok (r, ctx') -> table_step ctx ctx') ->
  preserves s m.
Proof.
  intros Hm ctx r ctx' Hwf H. specialize (Hm _ _ _ Hwf H).
  split; [eapply table_step_wf; eauto | now apply table_step_extends].
Qed.

Lemma mapM_length {A B : Type} (f : A -> M B) (l : list A) :
  forall c rs c', mapM f l c = Ok (rs, c') -> List.length rs = List.length l.
Proof.
  induction l as [|a l IH]; intros c rs c' H; cbn [mapM] in H; run_inv;
    simpl; [reflexivity|].
  f_equal. eapply IH; eauto.
Qed.

Lemma list_all_Forall {A : Type} (P : A -> Prop) (l : list A) :
  list_all A P l -> Forall P l.
Proof. induction 1; constructor; auto. Qed.

(** *** Sizes *)

Lemma list_sum_In {A : Type} (f : A -> nat) (l : list A) (a : A) :
  In a l -> f a <= list_sum (map f l).
Proof.
  induction l as [|b l IH]; simpl; [tauto|].
  intros [->|H]; [lia|]. specialize (IH H). lia.
Qed.

Lemma child_size (cls : gem_class) (children : list node) (fi : list Index)
    (c : node) :
  In c children -> S (node_size c) <= node_size (Node cls children fi).
Proof.
  intros H. cbn [node_size]. pose proof (list_sum_In node_size _ _ H). lia.
Qed.


(** *** The reference and the first visit of [rec_gem] *)

Lemma rec_gem_reference_step (n : node) (v : string) (k : nat) (r : pexpr)
    (c c' : ConversionContext) :
  rec_gem_reference n v k c = Ok (r, c') ->
  table_step c c' /\
  (k = 0 /\ r = p_Variable v /\ c' = c \/
   k <> 0 /\ exists fis idx,
     dict_get node_eqb (node_to_inames c) n = Some fis /\
     mapM map_index fis c = Ok (idx, c') /\
     r = p_Subscript (p_Variable v) idx).
Proof.
  unfold rec_gem_reference. intros H.
  destruct (Nat.eqb k 0) eqn:E.
  - apply Nat.eqb_eq in E. run_inv. split; [apply table_step_refl | auto].
  - apply Nat.eqb_neq in E. run_inv.
    destruct (dict_get node_eqb (node_to_inames c0) n) as [fis|] eqn:G; run_inv.
    split; [|right; split; [exact E|]; eauto].
    eapply mapM_table_step; [|exact Hrun]. intros i ? ? ?. apply map_index_step.
Qed.

Lemma memo_miss_after (s : nat) (c c1 : ConversionContext) (n : node) :
  s <= node_size n ->
  extends s c c1 ->
  dict_get node_eqb (node_to_var_name c) n = None ->
  dict_get node_eqb (node_to_var_name c1) n = None.
Proof.
  intros Hs [_ _ (l & Hl & Hsz) _ _ _] Hmiss.
  rewrite Hl, dict_get_app, Hmiss.
  apply (dict_get_None_notin node_eqb node_eqb_eq).
  intros H. apply in_map_iff in H as ([k v] & Hk & H). simpl in Hk. subst k.
  rewrite Forall_forall in Hsz. specialize (Hsz _ H). simpl in Hsz. lia.
Qed.

Lemma rec_gem_first_visit_spec (lower : node -> M pexpr) (n : node)
    (ctx ctx' : ConversionContext) (hit : string * nat) :
  preserves (node_size n) (lower n) ->
  wf ctx ->
  dict_get node_eqb (node_to_var_name ctx) n = None ->
  _is_cse_eligible n = true ->
  1 < use_count ctx n ->
  rec_gem_first_visit lower n ctx = Ok (hit, ctx') ->
  exists result c1 inames,
    lower n ctx = Ok (result, c1) /\
    wf c1 /\ extends (node_size n) ctx c1 /\
    wf ctx' /\ extends (S (node_size n)) c1 ctx' /\
    node_to_var_name ctx' = node_to_var_name c1 ++ [(n, fst hit)] /\
    node_to_inames ctx' = node_to_inames c1 ++ [(n, node_free_indices n)] /\
    assignments ctx' = assignments c1 ++ [(fst hit, inames, result)] /\
    subst_rules ctx' = subst_rules c1 /\
    ~ In (fst hit) (names c1) /\
    snd hit = List.length (node_free_indices n).
Proof.
  intros Hlower Hwf Hmiss Helig Huses H.
  unfold rec_gem_first_visit in H. run_inv.
  destruct (Hlower _ _ _ Hwf Hrun) as [Hwf1 Hext1].
  pose proof (memo_miss_after _ _ _ n (le_n _) Hext1 Hmiss) as Hmiss1.
  assert (Huses1 : 1 < use_count c n).
  { rewrite (use_count_eq ctx c); [exact Huses | apply (ext_count _ _ _ Hext1)]. }
  apply mapM_index_to_iname_step in Hrun3 as Hts.
  destruct (cse_bind_wf c c0 c3 n a0 a3 a Hwf1 Hrun0 Hmiss1 Helig Huses1 Hts)
    as (W & E & M & R & As & Ru & F).
  exists a, c, a3. simpl.
  split; [exact Hrun|]. split; [exact Hwf1|]. split; [exact Hext1|].
  split; [exact W|]. split; [exact E|]. split; [exact M|]. split; [exact R|].
  split; [exact As|]. split; [exact Ru|]. split; [exact F|].
  eapply mapM_length; eauto.
Qed.

Lemma rec_gem_with_preserves (lower : node -> M pexpr) (n : node)
    (parent : option node) :
  preserves (node_size n) (lower n) ->
  preserves (S (node_size n)) (rec_gem_with lower n parent).
Proof.
  intros Hlower ctx r ctx' Hwf H. unfold rec_gem_with in H. run_inv.
  destruct ((1 <? use_count c n)%nat && _is_cse_eligible n) eqn:C.
  - apply andb_true_iff in C as [C1 C2]. apply Nat.ltb_lt in C1.
    run_inv.
    apply rec_gem_reference_step in H as [Hts _].
    destruct (dict_get node_eqb (node_to_var_name c1) n) as [v|] eqn:Em.
    + destruct (dict_get node_eqb (node_to_inames c1) n) as [fis|] eqn:Er.
      * run_inv. split; [eapply table_step_wf; eauto | now apply table_step_extends].
      * exfalso.
        pose proof (dict_get_same_keys node_eqb _ (node_to_var_name c1) n
                      node_eqb_eq (eq_sym (wf_keys _ Hwf)) Er) as E'.
        congruence.
    + destruct (rec_gem_first_visit_spec _ _ _ _ _ Hlower Hwf Em C2 C1 Hrun1)
        as (res & c1' & inames & _ & _ & E1 & W & E2 & _).
      split; [eapply table_step_wf; eauto|].
      eapply extends_trans; [|apply table_step_extends; exact Hts].
      eapply extends_trans; [eapply extends_mono; [|exact E1]; lia | exact E2].
  - destruct (Hlower _ _ _ Hwf H) as [H1 H2].
    split; [exact H1 | eapply extends_mono; [|exact H2]; lia].
Qed.

Section LoweringInvariant.
Variable g_literal_to_name : node -> result string.

Local Abbreviation lower_expr := (expr_to_loopy g_literal_to_name).
Local Abbreviation lower_index := (index_to_loopy g_literal_to_name).
Local Abbreviation lower_rec := (rec_gem g_literal_to_name).

Lemma flex_idx_to_loopy_preserves (s : nat) (f : Z * list (index * Z)) :
  Forall (fun p => preserves s (lower_index (fst p))) (snd f) ->
  preserves s (flex_idx_to_loopy lower_index f).
Proof.
  destruct f as [off idxs]. simpl. generalize (p_Num (scalar_of_Z off)).
  induction idxs as [|[i st] idxs IH]; intros acc Hall.
  - apply preserves_ret.
  - inversion Hall as [|? ? Hi Hrest]; subst. simpl in Hi.
    apply preserves_bind; [exact Hi|]. intros x. apply IH. exact Hrest.
Qed.

Lemma children_preserve (n : node) (parent : option node) (children : list node) :
  Forall (fun c => preserves (node_size c) (lower_expr c)) children ->
  (forall c, In c children -> S (node_size c) <= node_size n) ->
  Forall (fun c => preserves (node_size n)
                     (rec_gem_with lower_expr c parent)) children.
Proof.
  intros Hall Hsz. rewrite Forall_forall in *. intros c Hc.
  eapply preserves_mono; [apply Hsz, Hc|].
  apply rec_gem_with_preserves. auto.
Qed.

Lemma index_aggregate_to_name_preserves (s : nat) (c : node) :
  preserves s (index_aggregate_to_name c).
Proof.
  apply preserves_table_step. intros ctx r ctx' Hwf H.
  now apply index_aggregate_to_name_step in H.
Qed.

Lemma lowering_preserves :
  (forall n, preserves (node_size n) (lower_expr n)) /\
  (forall cls,
     match cls with
     | g_Indexed multiindex =>
         Forall (fun i => preserves (index_size i) (lower_index i)) multiindex
     | g_FlexiblyIndexed dim2idxs =>
         Forall (fun f =>
                   Forall (fun p => preserves (index_size (fst p))
                                      (lower_index (fst p))) (snd f))
           dim2idxs
     | _ => True
     end) /\
  (forall i, preserves (index_size i) (lower_index i)).
Proof.
  apply node_mutind; try (intros; exact I).
  - (* a node *)
    intros cls Hcls children Hch fi. apply list_all_Forall in Hch.
    set (n := Node cls children fi).
    assert (Hkids : forall parent,
               Forall (fun c => preserves (node_size n)
                                  (rec_gem_with lower_expr c parent)) children).
    { intros parent. apply children_preserve; [exact Hch|].
      intros c Hc. now apply child_size. }
    assert (Hkid : forall c parent, In c children ->
               preserves (node_size n) (rec_gem_with lower_expr c parent)).
    { intros c parent Hc. specialize (Hkids parent).
      rewrite Forall_forall in Hkids. auto. }
    destruct cls; subst n; cbn [expr_to_loopy].
    + apply preserves_raise.
    + unfold map_literal. destruct (nd_shape array); [apply preserves_ret|].
      destruct (g_literal_to_name _); [apply preserves_ret | apply preserves_raise].
    + apply preserves_raise.
    + unfold map_variable. apply preserves_bind; [|intros; apply preserves_ret].
      apply preserves_table_step. intros ctx r ctx' Hwf H.
      now apply variable_to_name_step in H.
    + unfold convert_multichild. apply preserves_bind; [|intros; apply preserves_ret].
      apply preserves_mapM, Hkids.
    + unfold convert_multichild. apply preserves_bind; [|intros; apply preserves_ret].
      apply preserves_mapM, Hkids.
    + unfold map_division. cbn [node_children].
      destruct children as [|a [|b [|? ?]]]; try apply preserves_raise.
      apply preserves_bind; [apply Hkid; simpl; auto|]. intros x.
      apply preserves_bind; [apply Hkid; simpl; auto|]. intros y.
      apply preserves_ret.
    + unfold map_power. cbn [node_children].
      destruct children as [|a [|b [|? ?]]]; try apply preserves_raise.
      apply preserves_bind; [apply Hkid; simpl; auto|]. intros x.
      apply preserves_bind; [apply Hkid; simpl; auto|]. intros y.
      apply preserves_ret.
    + unfold map_function. apply preserves_bind; [|intros; apply preserves_ret].
      apply preserves_mapM, Hkids.
    + unfold convert_multichild. apply preserves_bind; [|intros; apply preserves_ret].
      apply preserves_mapM, Hkids.
    + unfold convert_multichild. apply preserves_bind; [|intros; apply preserves_ret].
      apply preserves_mapM, Hkids.
    + unfold map_comparison. cbn [node_children].
      destruct children as [|a [|b [|? ?]]]; try apply preserves_raise.
      apply preserves_bind; [apply Hkid; simpl; auto|]. intros x.
      apply preserves_bind; [apply Hkid; simpl; auto|]. intros y.
      apply preserves_ret.
    + unfold map_indexed. cbn [node_children].
      destruct children as [|a [|? ?]]; try apply preserves_raise.
      apply preserves_bind; [apply index_aggregate_to_name_preserves|]. intros name.
      apply preserves_bind; [|intros; apply preserves_ret].
      apply preserves_mapM. rewrite Forall_forall in *. intros i Hi.
      eapply preserves_mono; [|apply Hcls, Hi].
      cbn [node_size cls_size].
      pose proof (list_sum_In index_size _ _ Hi). lia.
    + unfold map_flexibly_indexed. cbn [node_children].
      destruct children as [|a [|? ?]]; try apply preserves_raise.
      destruct (shape_eqb (node_shape a) [None]).
      * apply preserves_bind; [apply index_aggregate_to_name_preserves|].
        intros; apply preserves_ret.
      * apply preserves_bind; [apply index_aggregate_to_name_preserves|]. intros name.
        apply preserves_bind; [|intros; apply preserves_ret].
        apply preserves_mapM. rewrite Forall_forall in *. intros f Hf.
        apply flex_idx_to_loopy_preserves.
        specialize (Hcls f Hf). rewrite Forall_forall in *. intros p Hp.
        eapply preserves_mono; [|apply Hcls, Hp].
        cbn [node_size cls_size].
        pose proof (list_sum_In
                      (fun f => list_sum (map (fun p => index_size (fst p)) (snd f)))
                      _ _ Hf) as H1.
        pose proof (list_sum_In (fun p => index_size (fst p)) _ _ Hp) as H2.
        simpl in H1, H2. lia.
    + unfold map_index_sum. cbn [node_children].
      destruct children as [|a [|? ?]]; try apply preserves_raise.
      intros ctx r ctx' Hwf H. run_inv.
      destruct (Hkid a None (or_introl eq_refl) _ _ _ Hwf Hrun) as [W1 E1].
      apply mapM_index_to_iname_step in Hrun1 as T1.
      apply mapM_index_to_iname_step in Hrun2 as T2.
      pose proof (table_step_trans _ _ _ T1 T2) as T.
      destruct (rule_append_wf _ _ _ _ a2 (p_Reduction "sum" a3 a0) W1 Hrun0 T)
        as (W & E & _).
      split; [exact W|].
      eapply extends_trans; [exact E1|]. eapply extends_mono; [|exact E]. lia.
    + apply preserves_raise.
  - (* the indices of a subscript *)
    intros multiindex H. now apply list_all_Forall in H.
  - (* the flexible indices *)
    intros dim2idxs H.
    induction H as [|f Hf l Hl IH]; constructor; [|exact IH].
    destruct Hf as [off _ idxs Hidxs]. simpl.
    induction Hidxs as [|p Hp l' Hl' IH']; constructor; [|exact IH'].
    destruct Hp as [i Hi st _]. exact Hi.
  - intros i. cbn [index_to_loopy].
    apply preserves_table_step. intros ctx r ctx' _. apply map_index_step.
  - intros e IH. cbn [index_to_loopy index_size]. unfold map_varindex.
    now apply rec_gem_with_preserves.
  - intros z. apply preserves_ret.
  - intros t. apply preserves_raise.
Qed.

Lemma expr_to_loopy_preserves (n : node) :
  preserves (node_size n) (lower_expr n).
Proof. apply lowering_preserves. Qed.

Lemma rec_gem_preserves (n : node) (parent : option node) :
  preserves (S (node_size n)) (lower_rec n parent).
Proof. apply rec_gem_with_preserves, expr_to_loopy_preserves. Qed.

Lemma index_to_loopy_preserves (i : index) :
  preserves (index_size i) (lower_index i).
Proof. apply lowering_preserves. Qed.

End LoweringInvariant.

(** ** The invariant along a run of [tsfc_to_loopy] *)

Lemma wf_init (expr_use_count : list (node * nat)) :
  wf (ConversionContext_init expr_use_count).
Proof.
  constructor; simpl; try tauto; try constructor; intros; tauto.
Qed.

Lemma mapM_Forall2 {A B : Type} (size : A -> nat) (f : A -> M B) (l : list A) :
  (forall a, preserves (size a) (f a)) ->
  forall c rs c', wf c -> mapM f l c = Ok (rs, c') ->
    Forall2 (fun a b => exists c1 c2, wf c1 /\ f a c1 = Ok (b, c2)) l rs.
Proof.
  intros Hf. induction l as [|a l IH]; intros c rs c' Hwf H;
    cbn [mapM] in H; run_inv; constructor.
  - eauto.
  - destruct (Hf a _ _ _ Hwf Hrun) as [Hwf' _]. eapply IH; eauto.
Qed.

Lemma aggregate_name_pure (e : pexpr) (a : string) (c c' : ConversionContext) :
  aggregate_name e c = Ok (a, c') -> c' = c /\ e = p_Variable a.
Proof.
  unfold aggregate_name. destruct e; intros H; run_inv. auto.
Qed.

Section RunInvariant.
Variable g_literal_to_name : node -> result string.
Variable list_of_set : list string -> list string.

Lemma single_assignment_step (gi : bool) (lhs_expr aggregate rhs : pexpr)
    (free_indices : list string) (dep : string) (insn : lp_Assignment)
    (c c' : ConversionContext) :
  single_assignment gi lhs_expr aggregate rhs free_indices dep c = Ok (insn, c') ->
  table_step c c'.
Proof.
  unfold single_assignment. intros H. run_inv.
  apply aggregate_name_pure in Hrun as [-> _].
  now apply name_gen_call_step in Hrun0.
Qed.

Lemma lower_rhs_preserves (argument_ordering : list Index) (a : node * node) :
  preserves (S (node_size (snd a))) (lower_rhs g_literal_to_name argument_ordering a).
Proof.
  destruct a as [lhs n]. unfold lower_rhs. simpl.
  apply preserves_bind; [apply rec_gem_preserves|]. intros rhs.
  apply preserves_bind; [|intros; apply preserves_ret].
  apply preserves_table_step. intros ctx r ctx' _.
  apply mapM_index_to_iname_step.
Qed.

Lemma lower_lhs_preserves (gi : bool) (e : node * pexpr * list string) :
  preserves (S (node_size (fst (fst e)))) (lower_lhs g_literal_to_name list_of_set gi e).
Proof.
  destruct e as [[lhs rhs] free]. unfold lower_lhs. simpl.
  apply preserves_bind; [apply rec_gem_preserves|]. intros lhs_expr.
  destruct lhs_expr; try apply preserves_raise.
  apply preserves_bind; [|intros; apply preserves_ret].
  apply preserves_table_step. intros ctx r ctx' _.
  apply mapM_table_step. intros dep c insn c'. apply single_assignment_step.
Qed.

Lemma mapM_wf {A B : Type} (f : A -> M B) (size : A -> nat) (l : list A) :
  (forall a, preserves (size a) (f a)) ->
  forall c rs c', wf c -> mapM f l c = Ok (rs, c') ->
    wf c' /\ expr_use_count c' = expr_use_count c.
Proof.
  intros Hf. induction l as [|a l IH]; intros c rs c' Hwf H;
    cbn [mapM] in H; run_inv; [auto|].
  destruct (Hf a _ _ _ Hwf Hrun) as [Hwf' He].
  destruct (IH _ _ _ Hwf' Hrun0) as [Hwf'' Hc].
  split; [exact Hwf''|]. rewrite Hc. apply (ext_count _ _ _ He).
Qed.

Lemma generate_instructions_inv (ir : list (node * node))
    (argument_ordering : list Index) (gi : bool) (lw : lowered) :
  generate_instructions g_literal_to_name list_of_set ir argument_ordering gi = Ok lw ->
  exists ctx1,
    mapM (lower_rhs g_literal_to_name (dedup_argument_ordering argument_ordering)) ir
      (ConversionContext_init
         (fold_left (fun d a => count_subexpression_uses (snd a) d) ir [])) =
      Ok (lw_exprs_and_free_inames lw, ctx1) /\
    mapM (lower_lhs g_literal_to_name list_of_set gi) (lw_exprs_and_free_inames lw) ctx1 =
      Ok (lw_lhs lw, lw_ctx lw) /\
    lw_cse_instructions lw = cse_instructions (assignments ctx1) /\
    wf ctx1 /\ wf (lw_ctx lw).
Proof.
  unfold generate_instructions. intros H.
  destruct (mapM (lower_rhs _ _) ir _) as [[exprs ctx1]|] eqn:E1; [|discriminate].
  destruct (mapM (lower_lhs _ _ _) exprs ctx1) as [[lhss ctx2]|] eqn:E2; [|discriminate].
  inversion H; subst; simpl. clear H.
  destruct (mapM_wf _ _ _ (lower_rhs_preserves _) _ _ _ (wf_init _) E1) as [W1 _].
  destruct (mapM_wf _ _ _ (lower_lhs_preserves _) _ _ _ W1 E2) as [W2 _].
  exists ctx1. auto.
Qed.

End RunInvariant.

(** ** Common subexpressions *)

Lemma mapM_nil_inv {A B : Type} (f : A -> M B) (c c' : ConversionContext)
    (rs : list B) :
  mapM f [] c = Ok (rs, c') -> rs = [] /\ c' = c.
Proof. cbn [mapM]. intros H. run_inv. auto. Qed.

Section CSE.
Variable g_literal_to_name : node -> result string.
Variable list_of_set : list string -> list string.

Lemma rec_gem_unfold (n : node) (parent : option node) (ctx : ConversionContext) :
  rec_gem g_literal_to_name n parent ctx =
  if (1 <? use_count ctx n)%nat && _is_cse_eligible n
  then
    match
      match dict_get node_eqb (node_to_var_name ctx) n,
            dict_get node_eqb (node_to_inames ctx) n with
      | Some var_name, Some free_inames =>
          Ok ((var_name, List.length free_inames), ctx)
      | _, _ =>
          rec_gem_first_visit (expr_to_loopy g_literal_to_name) n ctx
      end
    with
    | Ok (hit, ctx1) => rec_gem_reference n (fst hit) (snd hit) ctx1
    | Raise e => Raise e
    end
  else expr_to_loopy g_literal_to_name n ctx.
Proof.
  unfold rec_gem, rec_gem_with, bind, gets.
  destruct ((1 <? use_count ctx n)%nat && _is_cse_eligible n); [|reflexivity].
  destruct (dict_get node_eqb (node_to_var_name ctx) n);
    [destruct (dict_get node_eqb (node_to_inames ctx) n)|]; reflexivity.
Qed.

(** C4.  A rank-zero literal and an [Indexed] or [FlexiblyIndexed] node are
    not eligible: whatever its use count, every visit of such a node by
    [rec_gem] is its structural lowering by [expr_to_loopy], and the node
    has no temporary in the memo of a context that the lowering reaches,
    in particular at the end of the instruction generation of any run. *)
Theorem ineligible_never_hoisted (n : node) :
  is_rank0_literal n = true \/ is_indexed n = true ->
  _is_cse_eligible n = false /\
  (forall parent ctx,
     rec_gem g_literal_to_name n parent ctx = expr_to_loopy g_literal_to_name n ctx) /\
  (forall ctx, wf ctx -> dict_get node_eqb (node_to_var_name ctx) n = None) /\
  (forall ir argument_ordering generate_increments lw,
     generate_instructions g_literal_to_name list_of_set ir argument_ordering
       generate_increments = Ok lw ->
     dict_get node_eqb (node_to_var_name (lw_ctx lw)) n = None).
Proof.
  intros Hn.
  assert (He : _is_cse_eligible n = false).
  { unfold _is_cse_eligible. destruct Hn as [-> | ->]; [reflexivity|].
    now destruct (negb (is_rank0_literal n)). }
  assert (Hmemo : forall ctx, wf ctx ->
                    dict_get node_eqb (node_to_var_name ctx) n = None).
  { intros ctx Hwf.
    destruct (dict_get node_eqb (node_to_var_name ctx) n) as [v|] eqn:E;
      [|reflexivity].
    apply (dict_get_Some_In node_eqb node_eqb_eq) in E.
    apply (wf_eligible _ Hwf) in E as [E _]. congruence. }
  split; [exact He|]. split; [|split; [exact Hmemo|]].
  - intros parent ctx. rewrite rec_gem_unfold, He. now rewrite andb_false_r.
  - intros ir ao gi lw H.
    apply generate_instructions_inv in H as (ctx1 & _ & _ & _ & _ & W).
    now apply Hmemo.
Qed.

(** A visit by [rec_gem] of an eligible node that is used more than once
    ends with the node in the memo under a temporary [var_name] that
    exactly one entry of [assignments] binds, with the free indices of the
    node recorded, and returns the reference to [var_name], subscripted by
    the lowered recorded free indices when there are any.  On the first
    visit the node is lowered once by [expr_to_loopy] and its result is
    bound to the fresh [var_name] by the entry appended last; on a later
    visit [var_name] is the memoized temporary and no assignment, rule or
    memo entry is added. *)
Lemma rec_gem_cse (n : node) (parent : option node)
    (ctx ctx' : ConversionContext) (r : pexpr) :
  wf ctx ->
  1 < use_count ctx n ->
  _is_cse_eligible n = true ->
  rec_gem g_literal_to_name n parent ctx = Ok (r, ctx') ->
  exists var_name,
    dict_get node_eqb (node_to_var_name ctx') n = Some var_name /\
    dict_get node_eqb (node_to_inames ctx') n = Some (node_free_indices n) /\
    count_occ string_dec (map assignment_name (assignments ctx')) var_name = 1 /\
    (node_free_indices n = [] /\ r = p_Variable var_name \/
     node_free_indices n <> [] /\
     exists idx c,
       mapM map_index (node_free_indices n) c = Ok (idx, ctx') /\
       r = p_Subscript (p_Variable var_name) idx) /\
    (dict_get node_eqb (node_to_var_name ctx) n = None ->
     exists result c1 inames,
       expr_to_loopy g_literal_to_name n ctx = Ok (result, c1) /\
       ~ In var_name (names c1) /\
       assignments ctx' = assignments c1 ++ [(var_name, inames, result)] /\
       subst_rules ctx' = subst_rules c1) /\
    (forall v, dict_get node_eqb (node_to_var_name ctx) n = Some v ->
       v = var_name /\
       assignments ctx' = assignments ctx /\
       subst_rules ctx' = subst_rules ctx /\
       node_to_var_name ctx' = node_to_var_name ctx /\
       node_to_inames ctx' = node_to_inames ctx /\
       cse_names ctx' = cse_names ctx).
Proof.
  intros Hwf Huses Helig H. rewrite rec_gem_unfold in H.
  rewrite (proj2 (Nat.ltb_lt _ _) Huses), Helig in H. cbn [andb] in H.
  assert (Hone : forall c v, wf c -> In (n, v) (node_to_var_name c) ->
            count_occ string_dec (map assignment_name (assignments c)) v = 1).
  { intros c v W Hin. rewrite <- (wf_memo_assign _ W).
    apply NoDup_count_occ'; [apply (wf_memo_nodup _ W)|].
    now apply (in_map snd) in Hin. }
  assert (Href : forall c v fis,
            dict_get node_eqb (node_to_inames c) n = Some fis ->
            rec_gem_reference n v (List.length fis) c = Ok (r, ctx') ->
            fis = [] /\ r = p_Variable v \/
            fis <> [] /\ exists idx c0,
              mapM map_index fis c0 = Ok (idx, ctx') /\
              r = p_Subscript (p_Variable v) idx).
  { intros c v fis Hrec Hr.
    apply rec_gem_reference_step in Hr as [_ [(Hk & -> & _) | (Hk & fis' & idx & G & Hm & ->)]].
    - left. split; [|reflexivity]. now destruct fis.
    - right. rewrite Hrec in G. injection G as <-.
      split; [intros ->; now apply Hk | eauto]. }
  destruct (dict_get node_eqb (node_to_var_name ctx) n) as [v|] eqn:Em.
  - destruct (dict_get node_eqb (node_to_inames ctx) n) as [fis|] eqn:Er.
    + cbn [fst snd] in H.
      assert (fis = node_free_indices n) as ->.
      { apply (dict_get_Some_In node_eqb node_eqb_eq) in Er.
        now apply (wf_recorded _ Hwf) in Er. }
      pose proof (proj1 (rec_gem_reference_step _ _ _ _ _ _ H)) as T.
      pose proof (table_step_wf _ _ Hwf T) as W.
      destruct T as [T1 T2 T3 T4 T5 T6 T7 T8 T9].
      exists v. rewrite T2, T3.
      split; [exact Em|]. split; [exact Er|].
      split.
      { rewrite <- T2 in Em.
        apply Hone; [exact W|].
        now apply (dict_get_Some_In node_eqb node_eqb_eq). }
      split; [eapply Href; eauto|].
      split; [discriminate|].
      intros v' Hv'. injection Hv' as <-. repeat split; auto.
    + exfalso.
      pose proof (dict_get_same_keys node_eqb _ (node_to_var_name ctx) n
                    node_eqb_eq (eq_sym (wf_keys _ Hwf)) Er) as E'.
      congruence.
  - destruct (rec_gem_first_visit (expr_to_loopy g_literal_to_name) n ctx)
      as [[hit c2]|] eqn:Ev; [|discriminate].
    destruct (rec_gem_first_visit_spec _ _ _ _ _
                (expr_to_loopy_preserves g_literal_to_name n) Hwf Em Helig Huses Ev)
      as (result & c1 & inames & Hl & W1 & E1 & W2 & E2 & M & R & A & S & F & K).
    pose proof (proj1 (rec_gem_reference_step _ _ _ _ _ _ H)) as T.
    pose proof (table_step_wf _ _ W2 T) as W.
    assert (Hin : In (n, fst hit) (node_to_var_name c2)).
    { rewrite M. apply in_app_iff. right. now left. }
    assert (Hinr : In (n, node_free_indices n) (node_to_inames c2)).
    { rewrite R. apply in_app_iff. right. now left. }
    assert (Gm : dict_get node_eqb (node_to_var_name c2) n = Some (fst hit)).
    { apply (dict_get_In node_eqb node_eqb_eq); [apply (wf_keys_nodup _ W2) | exact Hin]. }
    assert (Gr : dict_get node_eqb (node_to_inames c2) n = Some (node_free_indices n)).
    { apply (dict_get_In node_eqb node_eqb_eq); [|exact Hinr].
      rewrite <- (wf_keys _ W2). apply (wf_keys_nodup _ W2). }
    rewrite K in H.
    pose proof (Href _ _ _ Gr H) as Hshape.
    destruct T as [T1 T2 T3 T4 T5 T6 T7 T8 T9].
    exists (fst hit). rewrite T2, T3.
    split; [exact Gm|]. split; [exact Gr|].
    split; [apply Hone; [exact W | now rewrite T2]|].
    split; [exact Hshape|].
    split; [|discriminate].
    intros _. exists result, c1, inames.
    rewrite T4, T5. repeat split; auto.
Qed.

End CSE.

Lemma ineligible_never_hoisted_witness :
  is_indexed a_i = true /\
  forall parent ctx,
    rec_gem gem_no_literal_to_name a_i parent ctx =
    expr_to_loopy gem_no_literal_to_name a_i ctx.
Proof.
  split; [reflexivity|].
  exact (proj1 (proj2 (ineligible_never_hoisted gem_no_literal_to_name insertion_order a_i
                         (or_intror eq_refl)))).
Defined.

Lemma rec_gem_cse_witness :
  wf cse_ctx1 /\
  1 < use_count cse_ctx1 prod_bc /\
  _is_cse_eligible prod_bc = true /\
  exists r ctx',
    rec_gem gem_no_literal_to_name prod_bc None cse_ctx1 = Ok (r, ctx') /\
    exists var_name,
      dict_get node_eqb (node_to_var_name ctx') prod_bc = Some var_name /\
      count_occ string_dec (map assignment_name (assignments ctx')) var_name = 1 /\
      assignments ctx' = assignments cse_ctx1.
Proof.
  assert (W : wf cse_ctx1).
  { refine (proj1 (rec_gem_preserves gem_no_literal_to_name prod_bc None
                     cse_ctx0 _ cse_ctx1 (wf_init _) _)).
    vm_compute. reflexivity. }
  assert (U : 1 < use_count cse_ctx1 prod_bc) by (vm_compute; lia).
  split; [exact W|]. split; [exact U|]. split; [reflexivity|].
  eexists. eexists. split; [vm_compute; reflexivity|].
  destruct (rec_gem_cse gem_no_literal_to_name prod_bc None cse_ctx1 _ _
              W U eq_refl eq_refl)
    as (v & Hm & _ & Hc & _ & _ & Hlater).
  exists v. split; [exact Hm|]. split; [exact Hc|].
  exact (proj1 (proj2 (Hlater "cse" eq_refl))).
Defined.

(** C3, counterexample.  In [a[i] = b[i] + b[i]] the variable [b] is
    eligible and has the use count 2, but it is the aggregate of a
    subscript: it is resolved by name and never visited by [rec_gem], and
    the run binds no temporary at all. *)
Lemma shared_aggregate_not_bound :
  exists lw,
    generate_instructions gem_no_literal_to_name insertion_order twice_b_ir [index_i] false = Ok lw /\
    use_count (lw_ctx lw) (var "b" [Some 3%nat]) = 2 /\
    _is_cse_eligible (var "b" [Some 3%nat]) = true /\
    dict_get node_eqb (node_to_var_name (lw_ctx lw)) (var "b" [Some 3%nat]) = None /\
    assignments (lw_ctx lw) = [] /\
    lw_cse_instructions lw = [] /\
    map expression (lw_ir_instructions lw) =
      [p_Sum [p_Subscript (p_Variable "b") [p_Variable "i"];
              p_Subscript (p_Variable "b") [p_Variable "i"]]].
Proof.
  eexists. split; [vm_compute; reflexivity|].
  repeat split; reflexivity.
Qed.

(** ** Reductions *)

Section Reductions.
Variable g_literal_to_name : node -> result string.

(** C6.  Lowering an [IndexSum] node appends one substitution rule to the
    rules that the lowering of its body has left: its name is allocated
    from the base [sum_tmp] and differs from the names of all the rules
    emitted before, its arguments are the loop variables of the free
    indices of the node, and its body reduces the lowered body with [sum]
    over the loop variables of the reduction indices; the result is the
    call of the rule on its arguments.  The names of the rules stay
    pairwise distinct: two nodes never share a rule. *)
Theorem index_sum_rule (multiindex : list Index) (children : list node)
    (fi : list Index) (ctx ctx' : ConversionContext) (r : pexpr) :
  wf ctx ->
  expr_to_loopy g_literal_to_name (Node (g_IndexSum multiindex) children fi) ctx =
    Ok (r, ctx') ->
  exists c subexpr c1 name c2 arg_names c3 red c4,
    children = [c] /\
    rec_gem g_literal_to_name c None ctx = Ok (subexpr, c1) /\
    name_gen_call "sum_tmp" c1 = Ok (name, c2) /\
    mapM index_to_iname fi c2 = Ok (arg_names, c3) /\
    mapM index_to_iname multiindex c3 = Ok (red, c4) /\
    subst_rules ctx' =
      subst_rules c1 ++
      [mk_SubstitutionRule name arg_names (p_Reduction "sum" red subexpr)] /\
    (exists earlier, subst_rules c1 = subst_rules ctx ++ earlier) /\
    r = p_Call (p_Variable name) (map p_Variable arg_names) /\
    ~ In name (map rule_name (subst_rules c1)) /\
    NoDup (map rule_name (subst_rules ctx')) /\
    (name = "sum_tmp" \/ exists k, name = numbered "sum_tmp" k).
Proof.
  intros Hwf H. cbn [expr_to_loopy] in H. unfold map_index_sum in H.
  cbn [node_children node_free_indices] in H.
  destruct children as [|c [|? ?]]; try discriminate H.
  run_inv.
  destruct (rec_gem_preserves g_literal_to_name c None _ _ _ Hwf Hrun) as [W1 E1].
  apply mapM_index_to_iname_step in Hrun1 as T1.
  apply mapM_index_to_iname_step in Hrun2 as T2.
  pose proof (table_step_trans _ _ _ T1 T2) as T.
  destruct (rule_append_wf _ _ _ _ a1 (p_Reduction "sum" a2 a) W1 Hrun0 T)
    as (W & E & S & _ & _ & F).
  pose proof (name_gen_call_step _ _ _ _ Hrun0) as (_ & _ & _ & Hform).
  exists c, a, c0, a0, c1, a1, c2, a2, c3.
  split; [reflexivity|]. split; [exact Hrun|]. split; [exact Hrun0|].
  split; [exact Hrun1|]. split; [exact Hrun2|]. split; [exact S|].
  split; [apply (ext_rules _ _ _ E1)|]. split; [reflexivity|].
  split; [exact F|]. split; [apply (wf_rules_nodup _ W) | exact Hform].
Qed.

End Reductions.

Lemma index_sum_rule_witness :
  wf sums_ctx1 /\
  map rule_name (subst_rules sums_ctx1) = ["sum_tmp"] /\
  exists r ctx',
    expr_to_loopy gem_no_literal_to_name sum_over_k sums_ctx1 = Ok (r, ctx') /\
    subst_rules ctx' =
      [mk_SubstitutionRule "sum_tmp" ["i"]
         (p_Reduction "sum" ["j"] (p_Subscript (p_Variable "a") [p_Variable "i"]));
       mk_SubstitutionRule "sum_tmp_0" ["i"]
         (p_Reduction "sum" ["k"] (p_Subscript (p_Variable "a") [p_Variable "i"]))] /\
    NoDup (map rule_name (subst_rules ctx')).
Proof.
  assert (W : wf sums_ctx1).
  { refine (proj1 (expr_to_loopy_preserves gem_no_literal_to_name sum_over_j
                     (ConversionContext_init []) _ sums_ctx1 (wf_init _) _)).
    vm_compute. reflexivity. }
  split; [exact W|]. split; [reflexivity|].
  eexists. eexists. split; [vm_compute; reflexivity|].
  split; [reflexivity|].
  destruct (index_sum_rule gem_no_literal_to_name [index_k] [a_i] [index_i]
              sums_ctx1 _ _ W eq_refl)
    as (c & subexpr & c1 & name & c2 & arg_names & c3 & red & c4 & H).
  exact (proj1 (proj2 (proj2 (proj2 (proj2 (proj2 (proj2 (proj2 (proj2 (proj2 H)))))))))).
Defined.

(** ** The variables of a subscript *)

Lemma add_name_spec (acc : list string) (x : string) :
  NoDup acc ->
  NoDup (add_name acc x) /\ forall y, In y (add_name acc x) <-> In y acc \/ y = x.
Proof.
  intros Hnd. unfold add_name.
  destruct (contains String.eqb x acc) eqn:E.
  - apply contains_string_In in E. split; [exact Hnd|].
    intros y. split; [tauto|]. intros [H| ->]; assumption.
  - apply contains_string_not_In in E. split; [now apply NoDup_snoc|].
    intros y. rewrite in_app_iff. simpl. intuition.
Qed.

Lemma fold_dependencies_spec (l : list pexpr) :
  list_all pexpr deps_ok l ->
  forall acc, NoDup acc ->
    NoDup (fold_left dependencies l acc) /\
    forall x, In x (fold_left dependencies l acc) <->
              In x acc \/ In x (flat_map p_variables l).
Proof.
  induction 1 as [|e He l Hl IH]; intros acc Hnd; simpl.
  - split; [exact Hnd | tauto].
  - destruct (He acc Hnd) as [H1 H2]. destruct (IH _ H1) as [H3 H4].
    split; [exact H3|]. intros x. rewrite H4, H2, in_app_iff. tauto.
Qed.

Lemma deps_list_fold (l : list pexpr) (acc : list string) :
  (fix deps_list (acc : list string) (l : list pexpr) {struct l} : list string :=
     match l with
     | [] => acc
     | c :: l' => deps_list (dependencies acc c) l'
     end) acc l = fold_left dependencies l acc.
Proof. revert acc. induction l as [|c l IH]; intros acc; simpl; auto. Qed.

Lemma dependencies_spec (e : pexpr) : deps_ok e.
Proof.
  induction e as [v|x|a IHa idx IHidx|f IHf ps IHps|cs IH|cs IH|n IHn d IHd
                  |b IHb x IHx|cs IH|cs IH|l IHl op r IHr|op inames x IHx];
    intros acc Hnd; cbn [dependencies p_variables]; rewrite ?deps_list_fold.
  - split; [exact Hnd|]. simpl. tauto.
  - destruct (add_name_spec acc x Hnd) as [H1 H2]. split; [exact H1|].
    intros y. rewrite H2. simpl. intuition.
  - destruct (IHa acc Hnd) as [H1 H2].
    destruct (fold_dependencies_spec idx IHidx _ H1) as [H3 H4].
    split; [exact H3|]. intros y. rewrite H4, H2, in_app_iff. tauto.
  - destruct (IHf acc Hnd) as [H1 H2].
    destruct (fold_dependencies_spec ps IHps _ H1) as [H3 H4].
    split; [exact H3|]. intros y. rewrite H4, H2, in_app_iff. tauto.
  - now apply fold_dependencies_spec.
  - now apply fold_dependencies_spec.
  - destruct (IHn acc Hnd) as [H1 H2]. destruct (IHd _ H1) as [H3 H4].
    split; [exact H3|]. intros y. rewrite H4, H2, in_app_iff. tauto.
  - destruct (IHb acc Hnd) as [H1 H2]. destruct (IHx _ H1) as [H3 H4].
    split; [exact H3|]. intros y. rewrite H4, H2, in_app_iff. tauto.
  - now apply fold_dependencies_spec.
  - now apply fold_dependencies_spec.
  - destruct (IHl acc Hnd) as [H1 H2]. destruct (IHr _ H1) as [H3 H4].
    split; [exact H3|]. intros y. rewrite H4, H2, in_app_iff. tauto.
  - now apply IHx.
Qed.

Lemma DependencyMapper_spec (index_tuple : list pexpr) :
  NoDup (DependencyMapper index_tuple) /\
  forall x, In x (DependencyMapper index_tuple) <->
            In x (flat_map p_variables index_tuple).
Proof.
  unfold DependencyMapper.
  destruct (fold_dependencies_spec index_tuple
              (list_all_intro _ _ dependencies_spec) [] (NoDup_nil _)) as [H1 H2].
  split; [exact H1|]. intros x. rewrite H2. simpl. tauto.
Qed.

(** ** The instructions of the top-level assignments *)

Lemma mapM_preserves_names {A B : Type} (f : A -> M B) (l : list A) :
  (forall a, In a l -> exists s, preserves s (f a)) ->
  forall c rs c', wf c -> mapM f l c = Ok (rs, c') ->
    wf c' /\ incl (names c) (names c').
Proof.
  induction l as [|a l IH]; intros Hf c rs c' Hwf H; cbn [mapM] in H; run_inv.
  - split; [exact Hwf | apply incl_refl].
  - destruct (Hf a (or_introl eq_refl)) as [s Hs].
    destruct (Hs _ _ _ Hwf Hrun) as [W E].
    destruct (IH (fun b Hb => Hf b (or_intror Hb)) _ _ _ W Hrun0) as [W' I'].
    split; [exact W'|]. eapply incl_tran; [apply (ext_names _ _ _ E) | exact I'].
Qed.

Lemma single_assignment_inv (gi : bool) (lhs_expr rhs : pexpr) (agg : string)
    (free_indices : list string) (dep : string) (insn : lp_Assignment)
    (c c' : ConversionContext) :
  single_assignment gi lhs_expr (p_Variable agg) rhs free_indices dep c =
    Ok (insn, c') ->
  exists name,
    name_gen_call agg c = Ok (name, c') /\
    insn = mk_Assignment (p_Subscript (p_Variable name) [p_Variable dep])
             (if gi then p_add lhs_expr rhs else rhs)
             (frozenset free_indices) true [].
Proof.
  unfold single_assignment, aggregate_name. intros H. run_inv. eauto.
Qed.

Lemma single_assignments_spec (gi : bool) (lhs_expr rhs : pexpr) (agg : string)
    (free_indices : list string) (deps : list string) :
  forall c insns c',
    mapM (single_assignment gi lhs_expr (p_Variable agg) rhs free_indices) deps c =
      Ok (insns, c') ->
    exists new_names,
      List.length new_names = List.length deps /\
      insns =
        map (fun nd =>
               mk_Assignment
                 (p_Subscript (p_Variable (fst nd)) [p_Variable (snd nd)])
                 (if gi then p_add lhs_expr rhs else rhs)
                 (frozenset free_indices) true [])
          (combine new_names deps) /\
      NoDup new_names /\
      Forall (fun nm => ~ In nm (names c) /\
                        (nm = agg \/ exists k, nm = numbered agg k)) new_names.
Proof.
  induction deps as [|dep deps IH]; intros c insns c' H; cbn [mapM] in H; run_inv.
  - exists []. repeat split; constructor.
  - apply single_assignment_inv in Hrun as (name & Hgen & ->).
    apply name_gen_call_step in Hgen as (_ & Hfresh & Hnames & Hform).
    destruct (IH _ _ _ Hrun0) as (new_names & Hlen & -> & Hnd & Hall).
    exists (name :: new_names). simpl.
    split; [now rewrite Hlen|]. split; [reflexivity|].
    rewrite Forall_forall in Hall.
    split; [constructor; [|exact Hnd]|].
    + intros Hin. apply Hall in Hin as [Hin _]. apply Hin.
      rewrite Hnames. now left.
    + constructor; [auto|]. apply Forall_forall. intros nm Hnm.
      destruct (Hall _ Hnm) as [H1 H2]. split; [|exact H2].
      intros Hin. apply H1. rewrite Hnames. now right.
Qed.

Section TopLevel.
Variable g_literal_to_name : node -> result string.
Variable list_of_set : list string -> list string.

Lemma expr_to_loopy_subscript_name (n : node) (a : pexpr) (idx : list pexpr)
    (ctx c1 : ConversionContext) :
  wf ctx ->
  expr_to_loopy g_literal_to_name n ctx = Ok (p_Subscript a idx, c1) ->
  exists agg, a = p_Variable agg /\ In agg (names c1).
Proof.
  intros Hwf H. destruct n as [cls children fi].
  destruct cls; cbn [expr_to_loopy] in H;
    unfold map_identity, map_zero, map_variable, convert_multichild,
      map_division, map_power, map_function, map_comparison, map_index_sum in H;
    cbn [node_children] in H;
    try (run_inv; fail);
    try (destruct children as [|? [|? [|? ?]]]; run_inv; fail).
  - (* Literal *)
    unfold map_literal in H. destruct (nd_shape array); [run_inv|].
    destruct (g_literal_to_name _); run_inv.
  - (* Indexed *)
    unfold map_indexed in H. cbn [node_children] in H.
    destruct children as [|c [|? ?]]; run_inv.
    destruct (index_aggregate_to_name_step _ _ _ _ Hwf Hrun) as [T Hin].
    pose proof (table_step_wf _ _ Hwf T) as W.
    assert (Hidx : forall i, In i multiindex ->
              exists s, preserves s (index_to_loopy g_literal_to_name i)).
    { intros i _. exists (index_size i). apply index_to_loopy_preserves. }
    destruct (mapM_preserves_names _ _ Hidx _ _ _ W Hrun0) as [_ Hincl].
    eauto.
  - (* FlexiblyIndexed *)
    unfold map_flexibly_indexed in H. cbn [node_children] in H.
    destruct children as [|c [|? ?]]; run_inv.
    destruct (shape_eqb (node_shape c) [None]); run_inv.
    destruct (index_aggregate_to_name_step _ _ _ _ Hwf Hrun) as [T Hin].
    pose proof (table_step_wf _ _ Hwf T) as W.
    assert (Hflex : forall f, In f dim2idxs ->
              exists s, preserves s
                          (flex_idx_to_loopy (index_to_loopy g_literal_to_name) f)).
    { intros f _.
      exists (list_sum (map (fun p => index_size (fst p)) (snd f))).
      apply flex_idx_to_loopy_preserves. apply Forall_forall. intros p Hp.
      eapply preserves_mono; [|apply index_to_loopy_preserves].
      apply (list_sum_In (fun p => index_size (fst p)) _ _ Hp). }
    destruct (mapM_preserves_names _ _ Hflex _ _ _ W Hrun0) as [_ Hincl].
    eauto.
Qed.

Lemma rec_gem_subscript_name (n : node) (parent : option node) (a : pexpr)
    (idx : list pexpr) (ctx c1 : ConversionContext) :
  wf ctx ->
  rec_gem g_literal_to_name n parent ctx = Ok (p_Subscript a idx, c1) ->
  exists agg, a = p_Variable agg /\ In agg (names c1).
Proof.
  intros Hwf H. rewrite rec_gem_unfold in H.
  destruct ((1 <? use_count ctx n)%nat && _is_cse_eligible n) eqn:C;
    [|eapply expr_to_loopy_subscript_name; eauto].
  apply andb_true_iff in C as [C1 C2]. apply Nat.ltb_lt in C1.
  assert (Href : forall v k c,
            In v (names c) ->
            rec_gem_reference n v k c = Ok (p_Subscript a idx, c1) ->
            exists agg, a = p_Variable agg /\ In agg (names c1)).
  { intros v k c Hv Hr.
    apply rec_gem_reference_step in Hr as [T [(_ & E & _) | (_ & fis & idx' & _ & _ & E)]];
      [discriminate E|].
    injection E as -> _. exists v. split; [reflexivity|].
    now apply (ts_names _ _ T). }
  destruct (dict_get node_eqb (node_to_var_name ctx) n) as [v|] eqn:Em.
  - destruct (dict_get node_eqb (node_to_inames ctx) n) as [fis|] eqn:Er.
    + cbn [fst snd] in H. eapply Href; [|exact H].
      apply (dict_get_Some_In node_eqb node_eqb_eq) in Em.
      eapply wf_memo_in; eauto.
    + exfalso.
      pose proof (dict_get_same_keys node_eqb _ (node_to_var_name ctx) n
                    node_eqb_eq (eq_sym (wf_keys _ Hwf)) Er) as E'.
      congruence.
  - destruct (rec_gem_first_visit (expr_to_loopy g_literal_to_name) n ctx)
      as [[hit c2]|] eqn:Ev; [|discriminate].
    destruct (rec_gem_first_visit_spec _ _ _ _ _
                (expr_to_loopy_preserves g_literal_to_name n) Hwf Em C2 C1 Ev)
      as (result & c0 & inames & _ & _ & _ & W2 & _ & M & _).
    eapply Href; [|exact H].
    apply (wf_memo_in _ W2 n). rewrite M. apply in_app_iff. right. now left.
Qed.

Lemma lower_lhs_spec (gi : bool) (lhs : node) (rhs : pexpr)
    (free_indices : list string) (lhs_expr : pexpr) (insns : list lp_Assignment)
    (ctx ctx' : ConversionContext) :
  wf ctx ->
  lower_lhs g_literal_to_name list_of_set gi (lhs, rhs, free_indices) ctx =
    Ok ((lhs_expr, insns), ctx') ->
  fresh_targets list_of_set lhs_expr insns /\
  Forall (fun insn =>
            expression insn = (if gi then p_add lhs_expr rhs else rhs) /\
            forced_iname_deps insn = frozenset free_indices /\
            forced_iname_deps_is_final insn = true /\
            tags insn = []) insns.
Proof.
  intros Hwf H. unfold lower_lhs in H. run_inv.
  destruct a; run_inv.
  destruct (rec_gem_subscript_name _ _ _ _ _ _ Hwf Hrun) as (agg & -> & Hagg).
  destruct (single_assignments_spec _ _ _ _ _ _ _ _ _ Hrun0)
    as (new_names & Hlen & -> & Hnd & Hall).
  assert (Hall' : Forall (fun nm => nm <> agg /\ exists k, nm = numbered agg k)
                    new_names).
  { eapply Forall_impl; [|exact Hall]. simpl. intros nm [H1 H2].
    assert (nm <> agg) by (intros ->; tauto).
    split; [assumption|]. destruct H2 as [H2|H2]; [contradiction | exact H2]. }
  split.
  - exists agg, index_tuple, new_names.
    split; [reflexivity|]. split; [exact Hlen|].
    split; [now rewrite map_map|]. split; [exact Hnd|]. split; [exact Hall'|].
    apply Forall_forall. intros insn Hin.
    apply in_map_iff in Hin as ([nm dep] & <- & Hin). simpl.
    apply in_combine_l in Hin. rewrite Forall_forall in Hall'.
    destruct (Hall' _ Hin) as [Hne _]. congruence.
  - apply Forall_forall. intros insn Hin.
    apply in_map_iff in Hin as (nd & <- & _). simpl. auto.
Qed.

End TopLevel.

Section TopLevelRun.
Variable g_literal_to_name : node -> result string.
Variable list_of_set : list string -> list string.

Lemma lowered_lhs_spec (ir : list (node * node)) (argument_ordering : list Index)
    (gi : bool) (lw : lowered) :
  generate_instructions g_literal_to_name list_of_set ir argument_ordering gi = Ok lw ->
  Forall2
    (fun e p =>
       fresh_targets list_of_set (fst p) (snd p) /\
       Forall (fun insn =>
                 expression insn =
                   (if gi then p_add (fst p) (snd (fst e)) else snd (fst e)) /\
                 forced_iname_deps insn = frozenset (snd e) /\
                 forced_iname_deps_is_final insn = true /\
                 tags insn = []) (snd p))
    (lw_exprs_and_free_inames lw) (lw_lhs lw).
Proof.
  intros H.
  apply generate_instructions_inv in H as (ctx1 & _ & H2 & _ & W1 & _).
  pose proof (mapM_Forall2 _ _ _ (lower_lhs_preserves g_literal_to_name list_of_set gi)
                _ _ _ W1 H2) as HF.
  eapply Forall2_impl; [|exact HF].
  intros [[lhs rhs] free] [lhs_expr insns] (c1 & c2 & W & Hrun). simpl.
  eapply lower_lhs_spec; eauto.
Qed.

(** C5, as amended.  The flag [generate_increments] applies to every
    instruction of every top-level assignment of a run alike.  Without
    it the source of an instruction is the lowered right-hand side; with
    it the source is the sum of the lowered left-hand subscript of the
    assignment and the lowered right-hand side, where the lowered
    left-hand subscript is not the target of the instruction. *)
Theorem assignment_mode_uniform (ir : list (node * node))
    (argument_ordering : list Index) (generate_increments : bool) (lw : lowered) :
  generate_instructions g_literal_to_name list_of_set ir argument_ordering
    generate_increments = Ok lw ->
  Forall2
    (fun e p =>
       Forall (fun insn =>
                 expression insn =
                   (if generate_increments
                    then p_add (fst p) (snd (fst e))
                    else snd (fst e)) /\
                 assignee insn <> fst p) (snd p))
    (lw_exprs_and_free_inames lw) (lw_lhs lw).
Proof.
  intros H. apply lowered_lhs_spec in H.
  eapply Forall2_impl; [|exact H]. simpl.
  intros e p [(agg & idx & new_names & _ & _ & _ & _ & _ & Hne) Hall].
  rewrite Forall_forall in *. intros insn Hin.
  split; [apply (Hall _ Hin) | apply (Hne _ Hin)].
Qed.

End TopLevelRun.

Lemma assignment_mode_uniform_witness :
  exists lw,
    generate_instructions gem_no_literal_to_name insertion_order copy_ir [index_i] true = Ok lw /\
    Forall2
      (fun e p =>
         Forall (fun insn =>
                   expression insn = p_add (fst p) (snd (fst e)) /\
                   assignee insn <> fst p) (snd p))
      (lw_exprs_and_free_inames lw) (lw_lhs lw).
Proof.
  eexists. split; [vm_compute; reflexivity|].
  refine (assignment_mode_uniform gem_no_literal_to_name insertion_order copy_ir [index_i] true _ _).
  vm_compute. reflexivity.
Defined.

(** C5, counterexample.  In accumulate mode the assignment [a[i] = b[i]]
    gives the instruction [a_0[i] = a[i] + b[i]]: its source is not the
    sum of its target and the right-hand side, and the target variable
    does not occur in it. *)
Lemma accumulate_reads_lowered_lhs :
  exists lw insn,
    generate_instructions gem_no_literal_to_name insertion_order copy_ir [index_i] true = Ok lw /\
    lw_ir_instructions lw = [insn] /\
    assignee insn = p_Subscript (p_Variable "a_0") [p_Variable "i"] /\
    expression insn =
      p_Sum [p_Subscript (p_Variable "a") [p_Variable "i"];
             p_Subscript (p_Variable "b") [p_Variable "i"]] /\
    expression insn <>
      p_add (assignee insn) (p_Subscript (p_Variable "b") [p_Variable "i"]) /\
    ~ In "a_0" (p_variables (expression insn)).
Proof.
  eexists. eexists. split; [vm_compute; reflexivity|].
  split; [reflexivity|]. split; [reflexivity|]. split; [reflexivity|].
  split; [vm_compute; discriminate|].
  vm_compute. intros [H|[H|[H|[H|[]]]]]; discriminate H.
Qed.

(** * Further properties of the lowering *)

(** ** The symbol tables *)

Lemma dict_get_set_same {K V : Type} (eqb : K -> K -> bool)
    (d : list (K * V)) (k : K) (v : V) :
  (forall a, eqb a a = true) ->
  dict_get eqb (dict_set eqb d k v) k = Some v.
Proof.
  intros Hrefl. induction d as [|[k' v'] d IH]; simpl.
  - now rewrite Hrefl.
  - destruct (eqb k' k) eqn:E; simpl; rewrite E; auto.
Qed.

Lemma dict_get_set {K V : Type} (eqb : K -> K -> bool)
    (d : list (K * V)) (k k' : K) (v : V) :
  (forall a b, eqb a b = true <-> a = b) ->
  dict_get eqb (dict_set eqb d k v) k' =
  if eqb k k' then Some v else dict_get eqb d k'.
Proof.
  intros Heq. induction d as [|[k1 v1] d IH]; simpl; [reflexivity|].
  destruct (eqb k1 k) eqn:E1; simpl.
  - apply Heq in E1. subst k1. now destruct (eqb k k').
  - rewrite IH. destruct (eqb k1 k') eqn:E2; [|reflexivity].
    apply Heq in E2. subst k1.
    destruct (eqb k k') eqn:E3; [|reflexivity].
    apply Heq in E3. subst k'.
    rewrite (proj2 (Heq k k) eq_refl) in E1. discriminate.
Qed.

(** X1.  [variable_to_name] is a get-or-create on the variable table: a
    call that returns records the name with the shape of the node, and a
    second call on the same node returns the same name and changes
    nothing.  On a node that is not in the table the name is one that the
    allocator has not handed out before, the preferred name of the
    variable or a numbered variant of it, and the table gets one more
    entry; on a node in the table the context is unchanged. *)
Theorem variable_to_name_get_or_create (n : node) (name : string)
    (ctx ctx' : ConversionContext) :
  variable_to_name n ctx = Ok (name, ctx') ->
  variable_to_name n ctx' = Ok (name, ctx') /\
  dict_get node_eqb (var_to_name_and_shape ctx') n = Some (name, node_shape n) /\
  (dict_get node_eqb (var_to_name_and_shape ctx) n = None ->
     ~ In name (names ctx) /\
     names ctx' = name :: names ctx /\
     var_to_name_and_shape ctx' =
       var_to_name_and_shape ctx ++ [(n, (name, node_shape n))] /\
     exists based_on,
       node_name n ctx = Ok (based_on, ctx) /\
       (name = based_on \/ exists k, name = numbered based_on k)) /\
  (forall v, dict_get node_eqb (var_to_name_and_shape ctx) n = Some v ->
     ctx' = ctx /\ v = (name, node_shape n)).
Proof.
  intros H. unfold variable_to_name in H. run_inv.
  destruct (dict_get node_eqb (var_to_name_and_shape c) n) as [[nm shape]|] eqn:E.
  - destruct (shape_eqb (node_shape n) shape) eqn:Es; run_inv.
    apply shape_eqb_eq in Es. subst shape.
    assert (Hagain : variable_to_name n ctx' = Ok (name, ctx')).
    { unfold variable_to_name, bind, gets. rewrite E.
      now rewrite shape_eqb_refl. }
    split; [exact Hagain|]. split; [exact E|]. split; [discriminate|].
    intros v Hv. injection Hv as <-. auto.
  - run_inv.
    pose proof (node_name_pure _ _ _ _ Hrun) as Hc. subst c0.
    pose proof (name_gen_call_inv _ _ _ _ Hrun0) as [_ Hc1].
    apply name_gen_call_step in Hrun0 as (_ & Hfresh & Hnames & Hform).
    assert (Hset : dict_set node_eqb (var_to_name_and_shape c1) n (name, node_shape n) =
                   var_to_name_and_shape c ++ [(n, (name, node_shape n))]).
    { rewrite Hc1. simpl. now apply dict_set_miss. }
    assert (Hget : dict_get node_eqb
                     (dict_set node_eqb (var_to_name_and_shape c1) n
                        (name, node_shape n)) n = Some (name, node_shape n)).
    { apply dict_get_set_same, node_eqb_refl. }
    split; [|split; [exact Hget|split; [|discriminate]]].
    + unfold variable_to_name, bind, gets. simpl. rewrite Hget.
      now rewrite shape_eqb_refl.
    + intros _. split; [exact Hfresh|]. split; [exact Hnames|].
      split; [exact Hset|]. exists a. auto.
Qed.

Lemma variable_to_name_get_or_create_witness :
  exists ctx',
    variable_to_name (var "a" [Some 3%nat]) (ConversionContext_init []) =
      Ok ("a", ctx') /\
    variable_to_name (var "a" [Some 3%nat]) ctx' = Ok ("a", ctx').
Proof.
  eexists. split; [vm_compute; reflexivity|].
  refine (proj1 (variable_to_name_get_or_create _ _ (ConversionContext_init []) _ _)).
  vm_compute. reflexivity.
Defined.

(** X2.  [index_to_iname] is a get-or-create on the index table: a call
    that returns records the loop variable with the extent of the index,
    and a second call on the same index returns the same loop variable and
    changes nothing.  For an index that is not in the table the loop
    variable is a name that the allocator has not handed out before,
    derived from the name of the index or, for an index without a name,
    from [i] followed by its count. *)
Theorem index_to_iname_get_or_create (i : Index) (iname : string)
    (ctx ctx' : ConversionContext) :
  index_to_iname i ctx = Ok (iname, ctx') ->
  index_to_iname i ctx' = Ok (iname, ctx') /\
  dict_get Index_eqb (index_to_iname_and_length ctx') i = Some (iname, idx_extent i) /\
  (dict_get Index_eqb (index_to_iname_and_length ctx) i = None ->
     ~ In iname (names ctx) /\
     names ctx' = iname :: names ctx /\
     index_to_iname_and_length ctx' =
       index_to_iname_and_length ctx ++ [(i, (iname, idx_extent i))] /\
     (iname = index_base_name i \/ exists k, iname = numbered (index_base_name i) k)) /\
  (forall v, dict_get Index_eqb (index_to_iname_and_length ctx) i = Some v ->
     ctx' = ctx /\ v = (iname, idx_extent i)).
Proof.
  assert (Heq : forall a b, Index_eqb a b = true <-> a = b).
  { intros a b. split; [apply Index_eqb_eq | intros ->; apply Index_eqb_refl]. }
  intros H. unfold index_to_iname in H. run_inv.
  destruct (dict_get Index_eqb (index_to_iname_and_length c) i) as [[nm len]|] eqn:E.
  - destruct (Z.eqb (idx_extent i) len) eqn:Es; run_inv.
    apply Z.eqb_eq in Es. subst len.
    assert (Hagain : index_to_iname i ctx' = Ok (iname, ctx')).
    { unfold index_to_iname, bind, gets. rewrite E. now rewrite Z.eqb_refl. }
    split; [exact Hagain|]. split; [exact E|]. split; [discriminate|].
    intros v Hv. injection Hv as <-. auto.
  - run_inv.
    pose proof (name_gen_call_inv _ _ _ _ Hrun) as [_ Hc0].
    apply name_gen_call_step in Hrun as (_ & Hfresh & Hnames & Hform).
    assert (Hset : dict_set Index_eqb (index_to_iname_and_length c0) i
                     (iname, idx_extent i) =
                   index_to_iname_and_length c ++ [(i, (iname, idx_extent i))]).
    { rewrite Hc0. simpl. now apply dict_set_miss. }
    assert (Hget : dict_get Index_eqb
                     (dict_set Index_eqb (index_to_iname_and_length c0) i
                        (iname, idx_extent i)) i = Some (iname, idx_extent i)).
    { apply dict_get_set_same, Index_eqb_refl. }
    split; [|split; [exact Hget|split; [|discriminate]]].
    + unfold index_to_iname, bind, gets. simpl. rewrite Hget.
      now rewrite Z.eqb_refl.
    + intros _. split; [exact Hfresh|]. split; [exact Hnames|].
      split; [exact Hset | exact Hform].
Qed.

Lemma index_to_iname_get_or_create_witness :
  exists ctx',
    index_to_iname (mk_Index None 7 4) (ConversionContext_init []) = Ok ("i7", ctx') /\
    index_to_iname (mk_Index None 7 4) ctx' = Ok ("i7", ctx').
Proof.
  eexists. split; [vm_compute; reflexivity|].
  refine (proj1 (index_to_iname_get_or_create _ _ (ConversionContext_init []) _ _)).
  vm_compute. reflexivity.
Defined.

(** X3.  [literal_to_name] is a get-or-create on the literal table: a call
    that returns records the name with the array of the literal, and a
    second call on the same literal returns the same name and changes
    nothing.  For a literal that is not in the table the name is [cnst] or
    a numbered variant that the allocator has not handed out before. *)
Theorem literal_to_name_get_or_create (literal : node) (name : string)
    (ctx ctx' : ConversionContext) :
  literal_to_name literal ctx = Ok (name, ctx') ->
  literal_to_name literal ctx' = Ok (name, ctx') /\
  (exists array,
     node_array literal ctx' = Ok (array, ctx') /\
     dict_get node_eqb (literal_to_name_and_array ctx') literal = Some (name, array)) /\
  (dict_get node_eqb (literal_to_name_and_array ctx) literal = None ->
     ~ In name (names ctx) /\
     names ctx' = name :: names ctx /\
     (name = "cnst" \/ exists k, name = numbered "cnst" k)) /\
  (forall v, dict_get node_eqb (literal_to_name_and_array ctx) literal = Some v ->
     ctx' = ctx /\ fst v = name).
Proof.
  assert (Harr : forall c a c0, node_array literal c = Ok (a, c0) ->
            c0 = c /\ node_cls literal = g_Literal a).
  { intros c a c0. unfold node_array.
    destruct (node_cls literal); intros H; run_inv. auto. }
  intros H. unfold literal_to_name in H. run_inv.
  destruct (dict_get node_eqb (literal_to_name_and_array c) literal)
    as [[nm array]|] eqn:E.
  - run_inv. destruct (Harr _ _ _ Hrun) as [-> Hcls].
    destruct (array_equal array a) eqn:Ea; run_inv.
    apply ndarray_eqb_eq in Ea. subst a.
    assert (Hagain : literal_to_name literal ctx' = Ok (name, ctx')).
    { unfold literal_to_name, bind, gets. rewrite E.
      unfold node_array. rewrite Hcls. unfold ret, array_equal.
      now rewrite ndarray_eqb_refl. }
    split; [exact Hagain|]. split; [|split; [discriminate|]].
    + exists array. split; [|exact E].
      unfold node_array. now rewrite Hcls.
    + intros v Hv. injection Hv as <-. auto.
  - run_inv. destruct (Harr _ _ _ Hrun0) as [-> Hcls].
    pose proof (name_gen_call_inv _ _ _ _ Hrun) as [_ Hc0].
    apply name_gen_call_step in Hrun as (_ & Hfresh & Hnames & Hform).
    assert (Hget : dict_get node_eqb
                     (dict_set node_eqb (literal_to_name_and_array c0) literal
                        (name, a0)) literal = Some (name, a0)).
    { apply dict_get_set_same, node_eqb_refl. }
    split; [|split; [|split; [|discriminate]]].
    + unfold literal_to_name, bind, gets. simpl. rewrite Hget.
      unfold node_array. rewrite Hcls. unfold ret, array_equal.
      now rewrite ndarray_eqb_refl.
    + exists a0. split; [|exact Hget].
      unfold node_array. now rewrite Hcls.
    + intros _. auto.
Qed.

Lemma literal_to_name_get_or_create_witness :
  exists ctx',
    literal_to_name lit_vec (ConversionContext_init []) = Ok ("cnst", ctx') /\
    literal_to_name lit_vec ctx' = Ok ("cnst", ctx').
Proof.
  eexists. split; [vm_compute; reflexivity|].
  refine (proj1 (literal_to_name_get_or_create _ _ (ConversionContext_init []) _ _)).
  vm_compute. reflexivity.
Defined.

(** ** The count of the uses *)

Lemma count_of_set (d : list (node * nat)) (k k' : node) (v : nat) :
  count_of (dict_set node_eqb d k v) k' =
  if node_eqb k k' then v else count_of d k'.
Proof.
  unfold count_of. rewrite (dict_get_set node_eqb d k k' v node_eqb_eq).
  now destruct (node_eqb k k').
Qed.

Lemma count_children_fold (n : node) (children : list node) :
  (forall c, In c children -> forall d,
     count_of (count_subexpression_uses c d) n = count_of d n + occurrences n c) ->
  forall d,
    count_of (fold_left (fun d c => count_subexpression_uses c d) children d) n =
    count_of d n + list_sum (map (occurrences n) children).
Proof.
  induction children as [|c children IH]; intros H d; simpl; [lia|].
  rewrite IH by (intros; apply H; now right).
  rewrite H by now left. lia.
Qed.

Lemma count_subexpression_uses_count (root n : node) (d : list (node * nat)) :
  count_of (count_subexpression_uses root d) n = count_of d n + occurrences n root.
Proof.
  revert d. remember (node_size root) as k eqn:Hk. revert root Hk.
  induction k as [k IH] using lt_wf_ind. intros [cls children fi] Hk d.
  cbn [count_subexpression_uses occurrences].
  rewrite count_children_fold.
  - rewrite count_of_set. fold (count_of d (Node cls children fi)).
    destruct (node_eqb (Node cls children fi) n) eqn:E; [|lia].
    apply node_eqb_eq in E. subst n. lia.
  - intros c Hc d'. apply (IH (node_size c)); [|reflexivity].
    subst k. apply (child_size cls children fi c Hc).
Qed.

Lemma count_ir_fold (n : node) (ir : list (node * node)) (d : list (node * nat)) :
  count_of (fold_left (fun d a => count_subexpression_uses (snd a) d) ir d) n =
  count_of d n + list_sum (map (fun a => occurrences n (snd a)) ir).
Proof.
  revert d. induction ir as [|a ir IH]; intros d; simpl; [lia|].
  rewrite IH, count_subexpression_uses_count. lia.
Qed.

(** X4.  [count_subexpression_uses] adds to the count of every node the
    number of its occurrences in the expression, the expression itself
    included and the repetitions of a shared subexpression counted each;
    the counts of the nodes that do not occur are unchanged. *)
Theorem count_subexpression_uses_occurrences (root n : node)
    (expr_use_count : list (node * nat)) :
  count_of (count_subexpression_uses root expr_use_count) n =
  count_of expr_use_count n + occurrences n root.
Proof. apply count_subexpression_uses_count. Qed.

(** X5.  Along a run the use count of a node is the number of its
    occurrences in the right-hand sides of the assignments, from the start
    to the end of the run: the left-hand sides are not counted, and the
    lowering never changes a count. *)
Theorem use_count_of_a_run (g_literal_to_name : node -> result string)
    (list_of_set : list string -> list string)
    (ir : list (node * node)) (argument_ordering : list Index)
    (generate_increments : bool) (lw : lowered) (n : node) :
  generate_instructions g_literal_to_name list_of_set ir argument_ordering
    generate_increments = Ok lw ->
  use_count (lw_ctx lw) n = list_sum (map (fun a => occurrences n (snd a)) ir).
Proof.
  intros H.
  destruct (generate_instructions_inv _ _ _ _ _ _ H) as (ctx1 & E1 & E2 & _ & W1 & _).
  destruct (mapM_wf _ _ _ (lower_rhs_preserves g_literal_to_name _) _ _ _
              (wf_init _) E1) as [_ C1].
  destruct (mapM_wf _ _ _ (lower_lhs_preserves g_literal_to_name list_of_set _) _ _ _ W1 E2)
    as [_ C2].
  unfold use_count. rewrite C2, C1. simpl.
  apply (count_ir_fold n ir []).
Qed.

Lemma use_count_of_a_run_witness :
  exists lw,
    generate_instructions gem_no_literal_to_name insertion_order twice_b_ir [index_i] false = Ok lw /\
    use_count (lw_ctx lw) (var "b" [Some 3%nat]) =
      list_sum (map (fun a => occurrences (var "b" [Some 3%nat]) (snd a)) twice_b_ir) /\
    use_count (lw_ctx lw) (var "b" [Some 3%nat]) = 2.
Proof.
  eexists. split; [vm_compute; reflexivity|].
  split; [|vm_compute; reflexivity].
  apply (use_count_of_a_run gem_no_literal_to_name insertion_order twice_b_ir [index_i] false).
  vm_compute. reflexivity.
Defined.

(** ** An induction principle for the lowering

    A property of the computations on the context that the steps of the
    lowering have, and that sequencing keeps, holds of the lowering of
    every expression and of every index. *)

Section LoweringInduction.
Variable g_literal_to_name : node -> result string.
Variable P : forall A : Type, M A -> Prop.

Hypothesis P_ret : forall (A : Type) (a : A), P A (ret a).
Hypothesis P_raise : forall (A : Type) (e : exn), P A (raise e).
Hypothesis P_bind : forall (A B : Type) (m : M A) (f : A -> M B),
  P A m -> (forall a, P B (f a)) -> P B (bind m f).
Hypothesis P_variable_to_name : forall n, P string (variable_to_name n).
Hypothesis P_literal_to_name : forall n, P string (literal_to_name n).
Hypothesis P_index_to_iname : forall i, P string (index_to_iname i).
Hypothesis P_rec_gem : forall n parent,
  P pexpr (expr_to_loopy g_literal_to_name n) ->
  P pexpr (rec_gem_with (expr_to_loopy g_literal_to_name) n parent).
Hypothesis P_rule : forall (subexpr : pexpr) (fi multiindex : list Index),
  P pexpr
    (name <- name_gen_call "sum_tmp" ;;
     arg_names <- mapM index_to_iname fi ;;
     red <- mapM index_to_iname multiindex ;;
     modify (fun ctx => set_subst_rules
               (subst_rules ctx ++
                [mk_SubstitutionRule name arg_names
                   (p_Reduction "sum" red subexpr)]) ctx) ;;
     ret (p_Call (p_Variable name) (map p_Variable arg_names))).

Lemma P_mapM {A B : Type} (f : A -> M B) (l : list A) :
  Forall (fun a => P B (f a)) l -> P (list B) (mapM f l).
Proof.
  induction 1 as [|a l Ha Hl IH]; cbn [mapM].
  - apply P_ret.
  - apply P_bind; [exact Ha|]. intros b.
    apply P_bind; [exact IH|]. intros bs. apply P_ret.
Qed.

Lemma P_index_aggregate_to_name (c : node) :
  P string (index_aggregate_to_name c).
Proof.
  unfold index_aggregate_to_name.
  destruct (node_cls c); try apply P_variable_to_name;
    destruct (is_Constant c); auto.
Qed.

Lemma P_flex_idx_to_loopy (f : Z * list (index * Z)) :
  Forall (fun p => P pexpr (index_to_loopy g_literal_to_name (fst p))) (snd f) ->
  P pexpr (flex_idx_to_loopy (index_to_loopy g_literal_to_name) f).
Proof.
  destruct f as [off idxs]. simpl. generalize (p_Num (scalar_of_Z off)).
  induction idxs as [|[i st] idxs IH]; intros acc Hall.
  - apply P_ret.
  - inversion Hall as [|? ? Hi Hrest]; subst. simpl in Hi.
    apply P_bind; [exact Hi|]. intros x. apply IH. exact Hrest.
Qed.

Lemma lowering_ind :
  (forall n, P pexpr (expr_to_loopy g_literal_to_name n)) /\
  (forall cls,
     match cls with
     | g_Indexed multiindex =>
         Forall (fun i => P pexpr (index_to_loopy g_literal_to_name i)) multiindex
     | g_FlexiblyIndexed dim2idxs =>
         Forall (fun f =>
                   Forall (fun p => P pexpr
                                      (index_to_loopy g_literal_to_name (fst p)))
                     (snd f))
           dim2idxs
     | _ => True
     end) /\
  (forall i, P pexpr (index_to_loopy g_literal_to_name i)).
Proof.
  apply node_mutind; try (intros; exact I).
  - intros cls Hcls children Hch fi. apply list_all_Forall in Hch.
    set (n := Node cls children fi).
    assert (Hkids : forall parent,
               Forall (fun c => P pexpr
                          (rec_gem_with (expr_to_loopy g_literal_to_name) c parent))
                 children).
    { intros parent. rewrite Forall_forall in *. auto. }
    assert (Hkid : forall c parent, In c children ->
               P pexpr (rec_gem_with (expr_to_loopy g_literal_to_name) c parent)).
    { intros c parent Hc. rewrite Forall_forall in Hch. auto. }
    destruct cls; subst n; cbn [expr_to_loopy].
    + apply P_raise.
    + unfold map_literal. destruct (nd_shape array); [apply P_ret|].
      destruct (g_literal_to_name _); [apply P_ret | apply P_raise].
    + apply P_raise.
    + unfold map_variable. apply P_bind; [apply P_variable_to_name|].
      intros; apply P_ret.
    + unfold convert_multichild. apply P_bind; [|intros; apply P_ret].
      apply P_mapM, Hkids.
    + unfold convert_multichild. apply P_bind; [|intros; apply P_ret].
      apply P_mapM, Hkids.
    + unfold map_division. cbn [node_children].
      destruct children as [|a [|b [|? ?]]]; try apply P_raise.
      apply P_bind; [apply Hkid; simpl; auto|]. intros x.
      apply P_bind; [apply Hkid; simpl; auto|]. intros y.
      apply P_ret.
    + unfold map_power. cbn [node_children].
      destruct children as [|a [|b [|? ?]]]; try apply P_raise.
      apply P_bind; [apply Hkid; simpl; auto|]. intros x.
      apply P_bind; [apply Hkid; simpl; auto|]. intros y.
      apply P_ret.
    + unfold map_function. apply P_bind; [|intros; apply P_ret].
      apply P_mapM, Hkids.
    + unfold convert_multichild. apply P_bind; [|intros; apply P_ret].
      apply P_mapM, Hkids.
    + unfold convert_multichild. apply P_bind; [|intros; apply P_ret].
      apply P_mapM, Hkids.
    + unfold map_comparison. cbn [node_children].
      destruct children as [|a [|b [|? ?]]]; try apply P_raise.
      apply P_bind; [apply Hkid; simpl; auto|]. intros x.
      apply P_bind; [apply Hkid; simpl; auto|]. intros y.
      apply P_ret.
    + unfold map_indexed. cbn [node_children].
      destruct children as [|a [|? ?]]; try apply P_raise.
      apply P_bind; [apply P_index_aggregate_to_name|]. intros name.
      apply P_bind; [|intros; apply P_ret].
      apply P_mapM. exact Hcls.
    + unfold map_flexibly_indexed. cbn [node_children].
      destruct children as [|a [|? ?]]; try apply P_raise.
      destruct (shape_eqb (node_shape a) [None]).
      * apply P_bind; [apply P_index_aggregate_to_name|].
        intros; apply P_ret.
      * apply P_bind; [apply P_index_aggregate_to_name|]. intros name.
        apply P_bind; [|intros; apply P_ret].
        apply P_mapM. rewrite Forall_forall in *. intros f Hf.
        apply P_flex_idx_to_loopy. auto.
    + unfold map_index_sum. cbn [node_children node_free_indices].
      destruct children as [|a [|? ?]]; try apply P_raise.
      apply P_bind; [apply Hkid; simpl; auto|]. intros subexpr.
      apply P_rule.
    + apply P_raise.
  - intros multiindex H. now apply list_all_Forall in H.
  - intros dim2idxs H.
    induction H as [|f Hf l Hl IH]; constructor; [|exact IH].
    destruct Hf as [off _ idxs Hidxs]. simpl.
    induction Hidxs as [|p Hp l' Hl' IH']; constructor; [|exact IH'].
    destruct Hp as [i Hi st _]. exact Hi.
  - intros i. cbn [index_to_loopy]. unfold map_index.
    apply P_bind; [apply P_index_to_iname|]. intros; apply P_ret.
  - intros e IH. cbn [index_to_loopy]. unfold map_varindex.
    now apply P_rec_gem.
  - intros z. apply P_ret.
  - intros t. apply P_raise.
Qed.

Lemma rec_gem_ind (n : node) (parent : option node) :
  P pexpr (rec_gem g_literal_to_name n parent).
Proof. apply P_rec_gem, lowering_ind. Qed.

End LoweringInduction.

(** ** The names of a context are pairwise distinct *)

Lemma grows_refl (c : ConversionContext) : grows c c.
Proof. constructor; try (exists []; now rewrite app_nil_r). apply incl_refl. Qed.

Lemma grows_trans (c1 c2 c3 : ConversionContext) :
  grows c1 c2 -> grows c2 c3 -> grows c1 c3.
Proof.
  intros [(l1 & H1) (l2 & H2) (l3 & H3) H4] [(m1 & K1) (m2 & K2) (m3 & K3) K4].
  constructor.
  - exists (l1 ++ m1). now rewrite K1, H1, app_assoc.
  - exists (l2 ++ m2). now rewrite K2, H2, app_assoc.
  - exists (l3 ++ m3). now rewrite K3, H3, app_assoc.
  - eapply incl_tran; eauto.
Qed.

Lemma perm_skip_app {A : Type} (x : A) (p l l' : list A) :
  Permutation (x :: l) l' -> Permutation (x :: p ++ l) (p ++ l').
Proof.
  intros H. eapply Permutation_trans; [apply Permutation_middle|].
  now apply Permutation_app_head.
Qed.

Lemma perm_snoc_app {A : Type} (x : A) (l r : list A) :
  Permutation (x :: l ++ r) ((l ++ [x]) ++ r).
Proof. rewrite <- app_assoc. simpl. apply Permutation_middle. Qed.

(** A name of the allocator is set aside. *)
Lemma distinct_names_reserve (extra : list string) (c c' : ConversionContext)
    (name : string) :
  ~ In name (names c) -> names c' = name :: names c ->
  all_names c' = all_names c ->
  distinct_names extra c -> distinct_names (name :: extra) c'.
Proof.
  intros Hfresh Hnames Hall [Hnd Hincl]. constructor; rewrite Hall; simpl.
  - constructor; [|exact Hnd]. intros H. apply Hfresh, Hincl, H.
  - rewrite Hnames. intros x [<-|Hx]; [now left|]. right. apply Hincl, Hx.
Qed.

(** A name set aside enters a table. *)
Lemma distinct_names_release (extra : list string) (c c' : ConversionContext)
    (name : string) :
  Permutation (name :: all_names c) (all_names c') ->
  incl (names c) (names c') ->
  distinct_names (name :: extra) c -> distinct_names extra c'.
Proof.
  intros Hperm Hnames [Hnd Hincl].
  assert (Hp : Permutation ((name :: extra) ++ all_names c) (extra ++ all_names c')).
  { simpl. eapply Permutation_trans; [apply Permutation_middle|].
    now apply Permutation_app_head. }
  constructor.
  - eapply Permutation_NoDup; eauto.
  - intros x Hx. apply Hnames, Hincl.
    eapply Permutation_in; [apply Permutation_sym, Hp | exact Hx].
Qed.

Lemma distinct_names_alloc (extra : list string) (c c' : ConversionContext)
    (name : string) :
  ~ In name (names c) -> names c' = name :: names c ->
  Permutation (name :: all_names c) (all_names c') ->
  distinct_names extra c -> distinct_names extra c'.
Proof.
  intros Hfresh Hnames Hperm H.
  apply (distinct_names_release extra
           (set_name_gen (mk_UniqueNameGenerator (name :: names c)) c) c' name).
  - exact Hperm.
  - rewrite Hnames. apply incl_refl.
  - now apply (distinct_names_reserve extra c).
Qed.

Lemma distinct_names_same (extra : list string) (c c' : ConversionContext) :
  all_names c' = all_names c -> incl (names c) (names c') ->
  distinct_names extra c -> distinct_names extra c'.
Proof.
  intros Hall Hnames [Hnd Hincl]. constructor; rewrite Hall; [exact Hnd|].
  eapply incl_tran; eauto.
Qed.

(** The two outcomes of a call of a symbol table. *)
Lemma variable_to_name_cases (n : node) (name : string)
    (ctx ctx' : ConversionContext) :
  variable_to_name n ctx = Ok (name, ctx') ->
  ctx' = ctx /\
    dict_get node_eqb (var_to_name_and_shape ctx) n = Some (name, node_shape n) \/
  dict_get node_eqb (var_to_name_and_shape ctx) n = None /\
    ~ In name (names ctx) /\
    ctx' = set_var_to_name_and_shape
             (var_to_name_and_shape ctx ++ [(n, (name, node_shape n))])
             (set_name_gen (mk_UniqueNameGenerator (name :: names ctx)) ctx).
Proof.
  intros H. unfold variable_to_name in H. run_inv.
  destruct (dict_get node_eqb (var_to_name_and_shape c) n) as [[nm shape]|] eqn:E.
  - destruct (shape_eqb (node_shape n) shape) eqn:Es; run_inv.
    apply shape_eqb_eq in Es. subst shape. left. auto.
  - run_inv. apply node_name_pure in Hrun. subst c0.
    pose proof (name_gen_call_inv _ _ _ _ Hrun0) as [_ Hc1].
    apply name_gen_call_step in Hrun0 as (_ & Hfresh & _ & _).
    right. split; [reflexivity|]. split; [exact Hfresh|].
    subst c1. simpl. f_equal. now apply dict_set_miss.
Qed.

Lemma literal_to_name_cases (n : node) (name : string)
    (ctx ctx' : ConversionContext) :
  literal_to_name n ctx = Ok (name, ctx') ->
  exists array,
    node_array n ctx = Ok (array, ctx) /\
    (ctx' = ctx /\
       dict_get node_eqb (literal_to_name_and_array ctx) n = Some (name, array) \/
     dict_get node_eqb (literal_to_name_and_array ctx) n = None /\
       ~ In name (names ctx) /\
       ctx' = set_literal_to_name_and_array
                (literal_to_name_and_array ctx ++ [(n, (name, array))])
                (set_name_gen (mk_UniqueNameGenerator (name :: names ctx)) ctx)).
Proof.
  assert (Harr : forall c a c0 c1, node_array n c = Ok (a, c0) ->
            node_array n c1 = Ok (a, c1)).
  { intros c a c0 c1. unfold node_array.
    destruct (node_cls n); intros H; run_inv. reflexivity. }
  intros H. unfold literal_to_name in H. run_inv.
  destruct (dict_get node_eqb (literal_to_name_and_array c) n)
    as [[nm array]|] eqn:E.
  - run_inv. exists array.
    destruct (array_equal array a) eqn:Ea; run_inv.
    apply ndarray_eqb_eq in Ea. subst a.
    pose proof (node_array_pure _ _ _ _ Hrun). subst ctx'.
    split; [exact Hrun | left; auto].
  - run_inv. exists a0.
    pose proof (name_gen_call_inv _ _ _ _ Hrun) as [_ Hc0].
    apply name_gen_call_step in Hrun as (_ & Hfresh & _ & _).
    pose proof (node_array_pure _ _ _ _ Hrun0). subst c1.
    split; [eapply Harr; eauto | right].
    split; [reflexivity|]. split; [exact Hfresh|].
    subst c0. simpl. f_equal. now apply dict_set_miss.
Qed.

Lemma index_to_iname_cases (i : Index) (iname : string)
    (ctx ctx' : ConversionContext) :
  index_to_iname i ctx = Ok (iname, ctx') ->
  ctx' = ctx /\
    dict_get Index_eqb (index_to_iname_and_length ctx) i =
      Some (iname, idx_extent i) \/
  dict_get Index_eqb (index_to_iname_and_length ctx) i = None /\
    ~ In iname (names ctx) /\
    ctx' = set_index_to_iname_and_length
             (index_to_iname_and_length ctx ++ [(i, (iname, idx_extent i))])
             (set_name_gen (mk_UniqueNameGenerator (iname :: names ctx)) ctx).
Proof.
  intros H. unfold index_to_iname in H. run_inv.
  destruct (dict_get Index_eqb (index_to_iname_and_length c) i) as [[nm len]|] eqn:E.
  - destruct (Z.eqb (idx_extent i) len) eqn:Es; run_inv.
    apply Z.eqb_eq in Es. subst len. left. auto.
  - run_inv.
    pose proof (name_gen_call_inv _ _ _ _ Hrun) as [_ Hc0].
    apply name_gen_call_step in Hrun as (_ & Hfresh & _ & _).
    right. split; [reflexivity|]. split; [exact Hfresh|].
    subst c0. simpl. f_equal. now apply dict_set_miss.
Qed.

Lemma keeps_ret {A : Type} (a : A) : keeps (ret a).
Proof.
  intros ctx r ctx' H. run_inv. split; [apply grows_refl | auto].
Qed.

Lemma keeps_raise {A : Type} (e : exn) : keeps (@raise A e).
Proof. intros ctx r ctx' H. discriminate H. Qed.

Lemma keeps_bind {A B : Type} (m : M A) (f : A -> M B) :
  keeps m -> (forall a, keeps (f a)) -> keeps (bind m f).
Proof.
  intros Hm Hf ctx r ctx' H. run_inv.
  destruct (Hm _ _ _ Hrun) as [G1 D1]. destruct (Hf _ _ _ _ H) as [G2 D2].
  split; [eapply grows_trans; eauto | auto].
Qed.

Lemma keeps_mapM {A B : Type} (f : A -> M B) (l : list A) :
  (forall a, keeps (f a)) -> keeps (mapM f l).
Proof.
  intros Hf. induction l as [|a l IH]; cbn [mapM].
  - apply keeps_ret.
  - apply keeps_bind; [apply Hf|]. intros b.
    apply keeps_bind; [exact IH|]. intros bs. apply keeps_ret.
Qed.

Lemma keeps_variable_to_name (n : node) : keeps (variable_to_name n).
Proof.
  intros ctx name ctx' H.
  apply variable_to_name_cases in H as [[-> _]|(_ & Hfresh & ->)].
  - split; [apply grows_refl | auto].
  - split.
    + constructor; simpl; try (exists []; now rewrite app_nil_r); eauto.
      apply incl_tl, incl_refl.
    + intros extra. apply (distinct_names_alloc extra ctx _ name Hfresh);
        [reflexivity|].
      unfold all_names, table_names. simpl. rewrite map_app. simpl.
      apply perm_snoc_app.
Qed.

Lemma keeps_literal_to_name (n : node) : keeps (literal_to_name n).
Proof.
  intros ctx name ctx' H.
  apply literal_to_name_cases in H as (array & _ & [[-> _]|(_ & Hfresh & ->)]).
  - split; [apply grows_refl | auto].
  - split.
    + constructor; simpl; try (exists []; now rewrite app_nil_r); eauto.
      apply incl_tl, incl_refl.
    + intros extra. apply (distinct_names_alloc extra ctx _ name Hfresh);
        [reflexivity|].
      unfold all_names, table_names. simpl. rewrite map_app. simpl.
      apply perm_skip_app, perm_snoc_app.
Qed.

Lemma keeps_index_to_iname (i : Index) : keeps (index_to_iname i).
Proof.
  intros ctx name ctx' H.
  apply index_to_iname_cases in H as [[-> _]|(_ & Hfresh & ->)].
  - split; [apply grows_refl | auto].
  - split.
    + constructor; simpl; try (exists []; now rewrite app_nil_r); eauto.
      apply incl_tl, incl_refl.
    + intros extra. apply (distinct_names_alloc extra ctx _ name Hfresh);
        [reflexivity|].
      unfold all_names, table_names. simpl. rewrite map_app. simpl.
      apply perm_skip_app, perm_skip_app, perm_snoc_app.
Qed.

Lemma keeps_rec_gem_reference (n : node) (v : string) (k : nat) :
  keeps (rec_gem_reference n v k).
Proof.
  unfold rec_gem_reference. destruct (Nat.eqb k 0); [apply keeps_ret|].
  intros ctx r ctx' H. run_inv.
  destruct (dict_get node_eqb (node_to_inames c) n); run_inv.
  eapply (keeps_mapM map_index); [|exact Hrun].
  intros i. unfold map_index.
  apply keeps_bind; [apply keeps_index_to_iname | intros; apply keeps_ret].
Qed.

Lemma keeps_rec_gem_first_visit (lower : node -> M pexpr) (n : node) :
  keeps (lower n) -> keeps (rec_gem_first_visit lower n).
Proof.
  intros Hl ctx hit ctx' H. unfold rec_gem_first_visit in H. run_inv.
  destruct (Hl _ _ _ Hrun) as [G1 D1].
  pose proof (name_gen_call_inv _ _ _ _ Hrun0) as [_ Hc0].
  apply name_gen_call_step in Hrun0 as (_ & Hfresh & _ & _).
  destruct (keeps_mapM index_to_iname _ keeps_index_to_iname _ _ _ Hrun3)
    as [G3 D3].
  split.
  - eapply grows_trans; [exact G1|].
    destruct G3 as [V L I N]. subst c0. simpl in *.
    constructor; simpl; auto.
    intros x Hx. apply N. now right.
  - intros extra Hd. specialize (D1 _ Hd).
    apply (distinct_names_same extra c3); [reflexivity | apply incl_refl|].
    apply D3.
    assert (Hcse : ~ In a0 (cse_names c)).
    { intros Hin. apply Hfresh. apply (dn_incl _ _ D1).
      apply in_app_iff. right. unfold all_names.
      rewrite !in_app_iff. auto. }
    apply (distinct_names_alloc extra c _ a0 Hfresh).
    + subst c0. reflexivity.
    + subst c0. unfold all_names. simpl. rewrite (add_name_fresh _ _ Hcse).
      apply perm_skip_app, perm_skip_app, perm_skip_app, perm_snoc_app.
    + exact D1.
Qed.

Lemma keeps_rec_gem_with (lower : node -> M pexpr) (n : node)
    (parent : option node) :
  keeps (lower n) -> keeps (rec_gem_with lower n parent).
Proof.
  intros Hl ctx r ctx' H. unfold rec_gem_with in H. run_inv.
  destruct ((1 <? use_count c n)%nat && _is_cse_eligible n);
    [|exact (Hl _ _ _ H)].
  run_inv.
  destruct (keeps_rec_gem_reference _ _ _ _ _ _ H) as [G2 D2].
  assert (K : grows c1 c2 /\
              forall extra, distinct_names extra c1 -> distinct_names extra c2).
  { destruct (dict_get node_eqb (node_to_var_name c1) n);
      [destruct (dict_get node_eqb (node_to_inames c1) n)|];
      try (apply (keeps_rec_gem_first_visit lower n Hl _ _ _ Hrun1)).
    run_inv. split; [apply grows_refl | auto]. }
  destruct K as [G1 D1].
  split; [eapply grows_trans; eauto | auto].
Qed.

Lemma keeps_rule (subexpr : pexpr) (fi multiindex : list Index) :
  keeps
    (name <- name_gen_call "sum_tmp" ;;
     arg_names <- mapM index_to_iname fi ;;
     red <- mapM index_to_iname multiindex ;;
     modify (fun ctx => set_subst_rules
               (subst_rules ctx ++
                [mk_SubstitutionRule name arg_names
                   (p_Reduction "sum" red subexpr)]) ctx) ;;
     ret (p_Call (p_Variable name) (map p_Variable arg_names))).
Proof.
  intros ctx r ctx' H. run_inv.
  pose proof (name_gen_call_inv _ _ _ _ Hrun) as [_ Hc].
  apply name_gen_call_step in Hrun as (_ & Hfresh & Hnames & _).
  destruct (keeps_mapM index_to_iname _ keeps_index_to_iname _ _ _ Hrun0)
    as [G1 D1].
  destruct (keeps_mapM index_to_iname _ keeps_index_to_iname _ _ _ Hrun1)
    as [G2 D2].
  pose proof (grows_trans _ _ _ G1 G2) as G.
  split.
  - destruct G as [V L I N]. subst c. simpl in *.
    constructor; simpl; auto.
    intros x Hx. apply N. now right.
  - intros extra Hd.
    apply (distinct_names_release extra c1 _ a).
    + unfold all_names. simpl. rewrite map_app. simpl.
      rewrite !app_assoc. apply Permutation_cons_append.
    + apply incl_refl.
    + apply D2, D1.
      apply (distinct_names_reserve extra ctx c a Hfresh Hnames); [|exact Hd].
      subst c. reflexivity.
Qed.

Lemma rec_gem_keeps (g_literal_to_name : node -> result string) (n : node)
    (parent : option node) :
  keeps (rec_gem g_literal_to_name n parent).
Proof.
  apply (rec_gem_ind g_literal_to_name (@keeps)).
  - intros; apply keeps_ret.
  - intros; apply keeps_raise.
  - intros; now apply keeps_bind.
  - apply keeps_variable_to_name.
  - apply keeps_literal_to_name.
  - apply keeps_index_to_iname.
  - intros; now apply keeps_rec_gem_with.
  - apply keeps_rule.
Qed.

Lemma distinct_names_perm (extra extra' : list string) (c : ConversionContext) :
  Permutation extra extra' -> distinct_names extra c -> distinct_names extra' c.
Proof.
  intros Hp [Hnd Hincl].
  assert (Hp' : Permutation (extra ++ all_names c) (extra' ++ all_names c))
    by now apply Permutation_app_tail.
  constructor.
  - eapply Permutation_NoDup; eauto.
  - intros x Hx. apply Hincl.
    eapply Permutation_in; [apply Permutation_sym, Hp' | exact Hx].
Qed.

Lemma distinct_names_init (expr_use_count : list (node * nat)) :
  distinct_names [] (ConversionContext_init expr_use_count).
Proof. constructor; simpl; [constructor | intros x []]. Qed.

(** The target of an instruction of a top-level assignment is set aside
    from the names of the context. *)
Lemma single_assignment_reserve (gi : bool) (lhs_expr aggregate rhs : pexpr)
    (free_indices : list string) (dep : string) (insn : lp_Assignment)
    (c c' : ConversionContext) :
  single_assignment gi lhs_expr aggregate rhs free_indices dep c = Ok (insn, c') ->
  exists name,
    target_name insn = Some name /\ tags insn = [] /\
    grows c c' /\
    forall extra, distinct_names extra c -> distinct_names (name :: extra) c'.
Proof.
  unfold single_assignment. intros H. run_inv.
  apply aggregate_name_pure in Hrun as [-> _].
  pose proof (name_gen_call_inv _ _ _ _ Hrun0) as [_ Hc].
  apply name_gen_call_step in Hrun0 as (_ & Hfresh & Hnames & _).
  exists a0. split; [reflexivity|]. split; [reflexivity|]. split.
  - subst c'. constructor; simpl; try (exists []; now rewrite app_nil_r).
    apply incl_tl, incl_refl.
  - intros extra. apply distinct_names_reserve; auto. subst c'. reflexivity.
Qed.

Lemma mapM_reserve {A : Type} (f : A -> M lp_Assignment) (l : list A) :
  (forall a insn c c', f a c = Ok (insn, c') ->
     exists name,
       target_name insn = Some name /\ tags insn = [] /\
       grows c c' /\
       forall extra, distinct_names extra c -> distinct_names (name :: extra) c') ->
  forall c insns c', mapM f l c = Ok (insns, c') ->
    exists targets,
      map target_name insns = map Some targets /\
      Forall (fun insn => tags insn = []) insns /\
      grows c c' /\
      forall extra, distinct_names extra c -> distinct_names (targets ++ extra) c'.
Proof.
  intros Hf. induction l as [|a l IH]; intros c insns c' H;
    cbn [mapM] in H; run_inv.
  - exists []. split; [reflexivity|]. split; [constructor|].
    split; [apply grows_refl | auto].
  - destruct (Hf _ _ _ _ Hrun) as (t & Ht & Htag & G1 & D1).
    destruct (IH _ _ _ Hrun0) as (ts & Hts & Htags & G2 & D2).
    exists (t :: ts). simpl. rewrite Ht, Hts.
    split; [reflexivity|]. split; [now constructor|].
    split; [eapply grows_trans; eauto|].
    intros extra Hd.
    apply (distinct_names_perm (ts ++ t :: extra)).
    + apply Permutation_sym, (Permutation_middle ts extra t).
    + apply D2, D1, Hd.
Qed.

Section RunNames.
Variable g_literal_to_name : node -> result string.
Variable list_of_set : list string -> list string.

Lemma lower_rhs_keeps (argument_ordering : list Index) (a : node * node) :
  keeps (lower_rhs g_literal_to_name argument_ordering a).
Proof.
  destruct a as [lhs n]. unfold lower_rhs.
  apply keeps_bind; [apply rec_gem_keeps|]. intros rhs.
  apply keeps_bind; [|intros; apply keeps_ret].
  apply keeps_mapM, keeps_index_to_iname.
Qed.

Lemma lower_lhs_reserve (gi : bool) (e : node * pexpr * list string)
    (p : pexpr * list lp_Assignment) (c c' : ConversionContext) :
  lower_lhs g_literal_to_name list_of_set gi e c = Ok (p, c') ->
  exists targets,
    map target_name (snd p) = map Some targets /\
    Forall (fun insn => tags insn = []) (snd p) /\
    grows c c' /\
    forall extra, distinct_names extra c -> distinct_names (targets ++ extra) c'.
Proof.
  destruct e as [[lhs rhs] free]. unfold lower_lhs. intros H. run_inv.
  destruct a; run_inv.
  destruct (rec_gem_keeps g_literal_to_name _ _ _ _ _ Hrun) as [G1 D1].
  destruct (mapM_reserve _ _ (single_assignment_reserve gi _ _ _ _) _ _ _ Hrun0)
    as (ts & Hts & Htags & G2 & D2).
  exists ts. simpl. split; [exact Hts|]. split; [exact Htags|].
  split; [eapply grows_trans; eauto | auto].
Qed.

Lemma lower_lhss_reserve (gi : bool) (es : list (node * pexpr * list string)) :
  forall c lhss c',
    mapM (lower_lhs g_literal_to_name list_of_set gi) es c = Ok (lhss, c') ->
    exists targets,
      map target_name (List.concat (map snd lhss)) = map Some targets /\
      Forall (fun insn => tags insn = []) (List.concat (map snd lhss)) /\
      grows c c' /\
      forall extra, distinct_names extra c -> distinct_names (targets ++ extra) c'.
Proof.
  induction es as [|e es IH]; intros c lhss c' H; cbn [mapM] in H; run_inv.
  - exists []. split; [reflexivity|]. split; [constructor|].
    split; [apply grows_refl | auto].
  - destruct (lower_lhs_reserve _ _ _ _ _ Hrun) as (t & Ht & Htag & G1 & D1).
    destruct (IH _ _ _ Hrun0) as (ts & Hts & Htags & G2 & D2).
    exists (t ++ ts). simpl. rewrite !map_app, Ht, Hts.
    split; [reflexivity|]. split; [now apply Forall_app|].
    split; [eapply grows_trans; eauto|].
    intros extra Hd.
    apply (distinct_names_perm (ts ++ t ++ extra)).
    + rewrite !app_assoc. apply Permutation_app_tail, Permutation_app_comm.
    + apply D2, D1, Hd.
Qed.

Lemma run_names_distinct (ir : list (node * node))
    (argument_ordering : list Index) (gi : bool) (lw : lowered) :
  generate_instructions g_literal_to_name list_of_set ir argument_ordering gi = Ok lw ->
  exists targets,
    map target_name (lw_ir_instructions lw) = map Some targets /\
    Forall (fun insn => tags insn = []) (lw_ir_instructions lw) /\
    distinct_names targets (lw_ctx lw).
Proof.
  intros H.
  apply generate_instructions_inv in H as (ctx1 & E1 & E2 & _).
  destruct (keeps_mapM _ _ (lower_rhs_keeps _) _ _ _ E1) as [_ D1].
  destruct (lower_lhss_reserve _ _ _ _ _ E2) as (ts & Hts & Htags & _ & D2).
  exists ts. split; [exact Hts|]. split; [exact Htags|].
  rewrite <- (app_nil_r ts). apply D2, D1, distinct_names_init.
Qed.

(** X6.  At the end of a run that generates its instructions, the names
    given to the variables, to the literals, to the loop indices, to the
    temporaries of the common subexpressions and to the substitution
    rules, and the names that the instructions of the top-level
    assignments assign to, are pairwise distinct; every one of them has
    been handed out by the name allocator of the context. *)
Theorem names_pairwise_distinct (ir : list (node * node))
    (argument_ordering : list Index) (generate_increments : bool) (lw : lowered) :
  generate_instructions g_literal_to_name list_of_set ir argument_ordering
    generate_increments = Ok lw ->
  exists targets,
    map target_name (lw_ir_instructions lw) = map Some targets /\
    NoDup (targets ++
           table_names (var_to_name_and_shape (lw_ctx lw)) ++
           table_names (literal_to_name_and_array (lw_ctx lw)) ++
           table_names (index_to_iname_and_length (lw_ctx lw)) ++
           cse_names (lw_ctx lw) ++
           map rule_name (subst_rules (lw_ctx lw))) /\
    incl (targets ++ all_names (lw_ctx lw)) (names (lw_ctx lw)).
Proof.
  intros H. apply run_names_distinct in H as (ts & Hts & _ & [Hnd Hincl]).
  exists ts. auto.
Qed.

End RunNames.

Lemma names_pairwise_distinct_witness :
  exists lw,
    generate_instructions gem_no_literal_to_name insertion_order
      [(a_i, sum_of_prods); (A_ij, sum_over_j)] [index_i; index_j] false = Ok lw /\
    exists targets,
      map target_name (lw_ir_instructions lw) = map Some targets /\
      NoDup (targets ++
             table_names (var_to_name_and_shape (lw_ctx lw)) ++
             table_names (literal_to_name_and_array (lw_ctx lw)) ++
             table_names (index_to_iname_and_length (lw_ctx lw)) ++
             cse_names (lw_ctx lw) ++
             map rule_name (subst_rules (lw_ctx lw))) /\
      incl (targets ++ all_names (lw_ctx lw)) (names (lw_ctx lw)).
Proof.
  eexists. split; [vm_compute; reflexivity|].
  apply (names_pairwise_distinct gem_no_literal_to_name insertion_order
           [(a_i, sum_of_prods); (A_ij, sum_over_j)] [index_i; index_j] false).
  vm_compute. reflexivity.
Defined.

(** ** The kernel of a run *)

Lemma construct_domain_inv (ctx : ConversionContext) (d : isl_set) :
  construct_domain ctx = Ok d ->
  d = dict_values (index_to_iname_and_length ctx) /\
  index_to_iname_and_length ctx <> [].
Proof.
  unfold construct_domain.
  set (f := fun (domain : option isl_set) (v : string * Z) =>
              match domain with
              | None => Some [v]
              | Some d => Some (d ++ [v])
              end).
  assert (Hsome : forall l d0, fold_left f l (Some d0) = Some (d0 ++ l)).
  { induction l as [|v l IH]; intros d0; simpl.
    - now rewrite app_nil_r.
    - rewrite IH, <- app_assoc. reflexivity. }
  destruct (index_to_iname_and_length ctx) as [|kv t] eqn:E.
  - discriminate.
  - unfold dict_values. simpl. rewrite Hsome. intros H. inversion H.
    split; [reflexivity | discriminate].
Qed.

Lemma kernel_items_insns (l : list lp_Assignment) (r : list lp_SubstitutionRule) :
  flat_map (fun it => match it with Insn a => [a] | Rule _ => [] end)
    (map Insn l ++ map Rule r) = l.
Proof.
  rewrite flat_map_app.
  replace (flat_map _ (map Rule r)) with (@nil lp_Assignment)
    by (induction r; simpl; auto).
  rewrite app_nil_r. induction l; simpl; congruence.
Qed.

Lemma kernel_items_rules (l : list lp_Assignment) (r : list lp_SubstitutionRule) :
  flat_map (fun it => match it with Insn _ => [] | Rule r => [r] end)
    (map Insn l ++ map Rule r) = r.
Proof.
  rewrite flat_map_app.
  replace (flat_map _ (map Insn l)) with (@nil lp_SubstitutionRule)
    by (induction l; simpl; auto).
  simpl. induction r; simpl; congruence.
Qed.

Section Kernel.
Variable g_literal_to_name : node -> result string.
Variable list_of_set : list string -> list string.

(** A returned kernel is assembled from the state of the run. *)
Lemma kernel_parts (ir : list (node * node)) (argument_ordering : list Index)
    (kernel_name : string) (gi : bool) (knl : kernel) :
  tsfc_to_loopy g_literal_to_name list_of_set ir argument_ordering kernel_name gi = Ok knl ->
  exists lw,
    generate_instructions g_literal_to_name list_of_set ir argument_ordering gi = Ok lw /\
    index_to_iname_and_length (lw_ctx lw) <> [] /\
    knl_domains knl = [dict_values (index_to_iname_and_length (lw_ctx lw))] /\
    kernel_insns knl = lw_instructions lw /\
    kernel_rules knl = subst_rules (lw_ctx lw) /\
    kernel_temporaries knl =
      map (fun v => mk_TemporaryVariable (fst v) false (Some (snd v)) GLOBAL true)
        (dict_values (literal_to_name_and_array (lw_ctx lw))) ++
      map (fun name => mk_TemporaryVariable name true None PRIVATE false)
        (cse_names (lw_ctx lw)) /\
    knl_name knl = kernel_name.
Proof.
  unfold tsfc_to_loopy. intros H.
  destruct (generate_instructions _ _ _ _) as [lw|] eqn:E; [|discriminate].
  destruct (construct_domain (lw_ctx lw)) as [d|] eqn:Ed; [|discriminate].
  destruct (check_write_footprints _ _ _ _); [|discriminate].
  inversion H; subst; clear H.
  apply construct_domain_inv in Ed as [-> Hne].
  exists lw. split; [reflexivity|]. split; [exact Hne|]. split; [reflexivity|].
  unfold kernel_insns, kernel_rules, kernel_temporaries. simpl.
  split; [apply kernel_items_insns|]. split; [apply kernel_items_rules|].
  split; [|reflexivity].
  unfold global_temps, cse_temps. rewrite !flat_map_app. simpl.
  rewrite app_nil_r. f_equal.
  - induction (dict_values _); simpl; congruence.
  - induction (cse_names _); simpl; congruence.
Qed.

End Kernel.

Lemma cse_instructions_spec (l : list (string * list string * pexpr)) :
  map target_name (cse_instructions l) = map (fun a => Some (assignment_name a)) l /\
  Forall (fun insn => tags insn = ["cse"]) (cse_instructions l).
Proof.
  induction l as [|[[v free] rhs] l [IH1 IH2]]; simpl; [split; auto|].
  split; [|constructor; auto].
  rewrite IH1. f_equal. unfold target_name, subscr. simpl.
  now destruct free.
Qed.

Lemma filter_none {A : Type} (f : A -> bool) (l : list A) :
  Forall (fun a => f a = false) l -> filter f l = [].
Proof.
  induction 1 as [|a l Ha Hl IH]; simpl; [reflexivity|]. now rewrite Ha.
Qed.

Lemma filter_all {A : Type} (f : A -> bool) (l : list A) :
  Forall (fun a => f a = true) l -> filter f l = l.
Proof.
  induction 1 as [|a l Ha Hl IH]; simpl; [reflexivity|]. rewrite Ha. congruence.
Qed.

(** The instructions of a run: those tagged [cse] are the bindings of the
    common subexpressions, the other ones come from the assignments. *)
Lemma lw_instructions_split (cse ir : list lp_Assignment) :
  Forall (fun insn => tags insn = ["cse"]) cse ->
  Forall (fun insn => tags insn = []) ir ->
  filter is_cse (cse ++ ir) = cse /\
  filter (fun insn => negb (is_cse insn)) (cse ++ ir) = ir.
Proof.
  intros Hc Hi. rewrite !filter_app.
  assert (C1 : Forall (fun a => is_cse a = true) cse).
  { eapply Forall_impl; [|exact Hc]. unfold is_cse. now intros a ->. }
  assert (I1 : Forall (fun a => is_cse a = false) ir).
  { eapply Forall_impl; [|exact Hi]. unfold is_cse. now intros a ->. }
  split.
  - rewrite (filter_all _ _ C1), (filter_none _ _ I1). apply app_nil_r.
  - rewrite filter_none, filter_all; [reflexivity| |].
    + eapply Forall_impl; [|exact I1]. simpl. now intros a ->.
    + eapply Forall_impl; [|exact C1]. simpl. now intros a ->.
Qed.

Lemma mapM_extends {A B : Type} (f : A -> M B) (size : A -> nat) (l : list A) :
  (forall a, preserves (size a) (f a)) ->
  forall c rs c', wf c -> mapM f l c = Ok (rs, c') ->
    exists s, extends s c c'.
Proof.
  intros Hf. induction l as [|a l IH]; intros c rs c' Hwf H;
    cbn [mapM] in H; run_inv.
  - exists 0. apply extends_refl.
  - destruct (Hf a _ _ _ Hwf Hrun) as [Hwf' He].
    destruct (IH _ _ _ Hwf' Hrun0) as (s & Hs).
    exists (Nat.max (size a) s).
    apply (extends_trans _ c c0 c').
    + apply (extends_mono (size a)); [lia | exact He].
    + apply (extends_mono s); [lia | exact Hs].
Qed.

Section KernelNames.
Variable g_literal_to_name : node -> result string.
Variable list_of_set : list string -> list string.

(** X7.  In a kernel that [tsfc_to_loopy] returns, the loop variables of
    the domain, the names of the temporaries, the names of the
    substitution rules and the names that the instructions of the
    top-level assignments assign to are pairwise distinct. *)
Theorem kernel_names_distinct (ir : list (node * node))
    (argument_ordering : list Index) (kernel_name : string)
    (generate_increments : bool) (knl : kernel) :
  tsfc_to_loopy g_literal_to_name list_of_set ir argument_ordering kernel_name
    generate_increments = Ok knl ->
  exists targets,
    map target_name
      (filter (fun insn => negb (is_cse insn)) (kernel_insns knl)) =
      map Some targets /\
    NoDup (kernel_inames knl ++
           map tv_name (kernel_temporaries knl) ++
           map rule_name (kernel_rules knl) ++
           targets).
Proof.
  intros H.
  apply kernel_parts in H as (lw & Hgen & _ & Hdom & Hins & Hrules & Htemps & _).
  destruct (run_names_distinct _ _ _ _ _ _ Hgen) as (ts & Hts & Htags & [Hnd _]).
  pose proof (generate_instructions_inv _ _ _ _ _ _ Hgen) as (ctx1 & _ & _ & Hcse & _).
  exists ts. split.
  - rewrite Hins. unfold lw_instructions.
    destruct (lw_instructions_split (lw_cse_instructions lw)
                (lw_ir_instructions lw)) as [_ ->]; auto.
    rewrite Hcse. apply cse_instructions_spec.
  - unfold kernel_inames. rewrite Hdom, Hrules, Htemps. simpl.
    rewrite app_nil_r, map_app, !map_map. simpl.
    unfold all_names, table_names, dict_values in *.
    rewrite !map_map in *.
    set (V := map _ (var_to_name_and_shape _)) in *.
    set (L := map _ (literal_to_name_and_array _)) in *.
    set (I := map _ (index_to_iname_and_length _)) in *.
    rewrite map_id.
    set (C := cse_names _) in *. set (R := map _ (subst_rules _)) in *.
    apply (NoDup_app_remove_l V).
    eapply Permutation_NoDup; [|exact Hnd].
    eapply Permutation_trans; [apply Permutation_app_comm|].
    rewrite <- !app_assoc. apply Permutation_app_head.
    eapply Permutation_trans; [apply Permutation_app_swap_app|].
    apply Permutation_app_head. reflexivity.
Qed.

(** X8.  In a kernel that [tsfc_to_loopy] returns, an instruction is
    tagged [cse] or has no tag.  The instructions tagged [cse] assign to
    pairwise distinct names, and each of these names is declared in the
    data of the kernel as a private temporary of type [float64]. *)
Theorem cse_targets_declared (ir : list (node * node))
    (argument_ordering : list Index) (kernel_name : string)
    (generate_increments : bool) (knl : kernel) :
  tsfc_to_loopy g_literal_to_name list_of_set ir argument_ordering kernel_name
    generate_increments = Ok knl ->
  (forall insn, In insn (kernel_insns knl) ->
     tags insn = ["cse"] \/ tags insn = []) /\
  exists temps,
    map target_name (filter is_cse (kernel_insns knl)) = map Some temps /\
    NoDup temps /\
    forall t, In t temps ->
      In (mk_TemporaryVariable t true None PRIVATE false) (kernel_temporaries knl).
Proof.
  intros H.
  apply kernel_parts in H as (lw & Hgen & _ & _ & Hins & _ & Htemps & _).
  destruct (run_names_distinct _ _ _ _ _ _ Hgen) as (ts & _ & Htags & _).
  pose proof (generate_instructions_inv _ _ _ _ _ _ Hgen)
    as (ctx1 & _ & E2 & Hcse & W1 & W2).
  destruct (cse_instructions_spec (assignments ctx1)) as [Htn Hct].
  rewrite Hins. unfold lw_instructions. rewrite Hcse. split.
  - intros insn Hin. rewrite Forall_forall in *.
    apply in_app_iff in Hin as [Hin|Hin]; auto.
  - exists (map assignment_name (assignments ctx1)).
    destruct (lw_instructions_split _ _ Hct Htags) as [-> _].
    split; [now rewrite map_map|].
    rewrite <- (wf_memo_assign _ W1). split; [apply (wf_memo_nodup _ W1)|].
    intros t Ht. rewrite Htemps. apply in_app_iff. right.
    apply in_map_iff. exists t. split; [reflexivity|].
    rewrite (wf_cse_names _ W2).
    destruct (mapM_extends _ _ _ (lower_lhs_preserves g_literal_to_name list_of_set _)
                _ _ _ W1 E2) as (s & Hs).
    destruct (ext_memo _ _ _ Hs) as (l & -> & _).
    rewrite map_app. apply in_app_iff. now left.
Qed.

End KernelNames.

Lemma kernel_names_distinct_witness :
  exists knl,
    tsfc_to_loopy gem_no_literal_to_name insertion_order [(a_i, sum_of_prods); (A_ij, sum_over_j)]
      [index_i; index_j] "tsfc_kernel" false = Ok knl /\
    exists targets,
      map target_name
        (filter (fun insn => negb (is_cse insn)) (kernel_insns knl)) =
        map Some targets /\
      NoDup (kernel_inames knl ++
             map tv_name (kernel_temporaries knl) ++
             map rule_name (kernel_rules knl) ++
             targets).
Proof.
  eexists. split; [vm_compute; reflexivity|].
  apply (kernel_names_distinct gem_no_literal_to_name insertion_order
           [(a_i, sum_of_prods); (A_ij, sum_over_j)] [index_i; index_j]
           "tsfc_kernel" false).
  vm_compute. reflexivity.
Defined.

Lemma cse_targets_declared_witness :
  exists knl,
    tsfc_to_loopy gem_no_literal_to_name insertion_order [(a_i, sum_of_prods)] [index_i]
      "tsfc_kernel" false = Ok knl /\
    map target_name (filter is_cse (kernel_insns knl)) = [Some "cse"] /\
    (forall insn, In insn (kernel_insns knl) ->
       tags insn = ["cse"] \/ tags insn = []) /\
    exists temps,
      map target_name (filter is_cse (kernel_insns knl)) = map Some temps /\
      NoDup temps /\
      forall t, In t temps ->
        In (mk_TemporaryVariable t true None PRIVATE false)
          (kernel_temporaries knl).
Proof.
  eexists. split; [vm_compute; reflexivity|].
  split; [vm_compute; reflexivity|].
  apply (cse_targets_declared gem_no_literal_to_name insertion_order [(a_i, sum_of_prods)]
           [index_i] "tsfc_kernel" false).
  vm_compute. reflexivity.
Defined.

(** ** The loop variables of the instructions *)

Lemma grows_inames (c c' : ConversionContext) :
  grows c c' -> incl (inames c) (inames c').
Proof.
  intros [_ _ (l & Hl) _]. unfold inames, table_names. rewrite Hl, map_app.
  apply incl_appl, incl_refl.
Qed.

Lemma iname_of_grows (c c' : ConversionContext) (i : Index) (r : string) :
  grows c c' -> iname_of c i = Some r -> iname_of c' i = Some r.
Proof.
  intros [_ _ (l & Hl) _]. unfold iname_of. rewrite Hl, dict_get_app.
  now destruct (dict_get Index_eqb (index_to_iname_and_length c) i).
Qed.

Lemma iname_of_In (c : ConversionContext) (i : Index) (r : string) :
  iname_of c i = Some r -> In r (inames c).
Proof.
  unfold iname_of, inames, table_names.
  destruct (dict_get Index_eqb (index_to_iname_and_length c) i) as [v|] eqn:E;
    [|discriminate].
  simpl. intros H. injection H as <-.
  assert (Heq : forall a b, Index_eqb a b = true <-> a = b).
  { intros a b. split; [apply Index_eqb_eq | intros ->; apply Index_eqb_refl]. }
  apply (dict_get_Some_In Index_eqb Heq) in E.
  apply in_map_iff. exists (i, v). auto.
Qed.

Lemma index_to_iname_lookup (i : Index) (r : string) (c c' : ConversionContext) :
  index_to_iname i c = Ok (r, c') -> iname_of c' i = Some r.
Proof.
  intros H. unfold iname_of.
  apply index_to_iname_cases in H as [[-> ->]|(Hmiss & _ & ->)]; [reflexivity|].
  simpl. rewrite dict_get_app, Hmiss. simpl. now rewrite Index_eqb_refl.
Qed.

Lemma mapM_index_to_iname_lookup (l : list Index) :
  forall c rs c', mapM index_to_iname l c = Ok (rs, c') ->
    forall c'', grows c' c'' -> map (iname_of c'') l = map Some rs.
Proof.
  induction l as [|i l IH]; intros c rs c' H c'' G; cbn [mapM] in H; run_inv;
    [reflexivity|].
  simpl. f_equal; [|eapply IH; eauto].
  destruct (keeps_mapM index_to_iname l keeps_index_to_iname _ _ _ Hrun0)
    as [G1 _].
  apply (iname_of_grows c0); [eapply grows_trans; eauto|].
  eapply index_to_iname_lookup; eauto.
Qed.

Lemma lookup_incl (c : ConversionContext) (l : list Index) (rs : list string) :
  map (iname_of c) l = map Some rs -> incl rs (inames c).
Proof.
  revert rs. induction l as [|i l IH]; intros [|r rs] H; simpl in H;
    try discriminate; [intros x []|].
  injection H as H1 H2. intros x [<-|Hx]; [eapply iname_of_In; eauto|].
  now apply (IH rs).
Qed.

Lemma mapM_index_to_iname_incl (l : list Index) (rs : list string)
    (c c' : ConversionContext) :
  mapM index_to_iname l c = Ok (rs, c') -> incl rs (inames c').
Proof.
  intros H. apply (lookup_incl c' l).
  eapply mapM_index_to_iname_lookup; [exact H | apply grows_refl].
Qed.

Lemma inames_declared_mono (c c' : ConversionContext) :
  assignments c' = assignments c -> subst_rules c' = subst_rules c ->
  incl (inames c) (inames c') ->
  inames_declared c -> inames_declared c'.
Proof.
  intros Ha Hr Hi [H1 H2]. constructor.
  - rewrite Ha. intros a Hin. eapply incl_tran; eauto.
  - rewrite Hr. intros r Hin. destruct (H2 r Hin).
    split; eapply incl_tran; eauto.
Qed.

Lemma declares_ret {A : Type} (a : A) : declares (ret a).
Proof. split; [apply keeps_ret|]. intros ctx r ctx' H. now run_inv. Qed.

Lemma declares_raise {A : Type} (e : exn) : declares (@raise A e).
Proof. split; [apply keeps_raise|]. intros ctx r ctx' H. discriminate H. Qed.

Lemma declares_bind {A B : Type} (m : M A) (f : A -> M B) :
  declares m -> (forall a, declares (f a)) -> declares (bind m f).
Proof.
  intros [Km Dm] Hf. split.
  - apply keeps_bind; [exact Km|]. intros a. apply Hf.
  - intros ctx r ctx' H. run_inv. intros Hd.
    eapply (proj2 (Hf a)); eauto.
Qed.

Lemma declares_mapM {A B : Type} (f : A -> M B) (l : list A) :
  (forall a, declares (f a)) -> declares (mapM f l).
Proof.
  intros Hf. induction l as [|a l IH]; cbn [mapM].
  - apply declares_ret.
  - apply declares_bind; [apply Hf|]. intros b.
    apply declares_bind; [exact IH|]. intros bs. apply declares_ret.
Qed.

Lemma declares_variable_to_name (n : node) : declares (variable_to_name n).
Proof.
  split; [apply keeps_variable_to_name|]. intros ctx r ctx' H.
  apply variable_to_name_cases in H as [[-> _]|(_ & _ & ->)]; [auto|].
  apply inames_declared_mono; auto using incl_refl.
Qed.

Lemma declares_literal_to_name (n : node) : declares (literal_to_name n).
Proof.
  split; [apply keeps_literal_to_name|]. intros ctx r ctx' H.
  apply literal_to_name_cases in H as (array & _ & [[-> _]|(_ & _ & ->)]); [auto|].
  apply inames_declared_mono; auto using incl_refl.
Qed.

Lemma declares_index_to_iname (i : Index) : declares (index_to_iname i).
Proof.
  split; [apply keeps_index_to_iname|]. intros ctx r ctx' H.
  pose proof (keeps_index_to_iname i _ _ _ H) as [G _].
  apply grows_inames in G.
  apply index_to_iname_cases in H as [[-> _]|(_ & _ & ->)]; [auto|].
  apply inames_declared_mono; auto.
Qed.

Lemma declares_rec_gem_reference (n : node) (v : string) (k : nat) :
  declares (rec_gem_reference n v k).
Proof.
  split; [apply keeps_rec_gem_reference|].
  unfold rec_gem_reference. destruct (Nat.eqb k 0);
    [apply (proj2 (declares_ret _))|].
  assert (Hmi : forall i, declares (map_index i)).
  { intros i. unfold map_index.
    apply declares_bind; [apply declares_index_to_iname|].
    intros; apply declares_ret. }
  intros ctx r ctx' H. run_inv.
  destruct (dict_get node_eqb (node_to_inames c) n) as [l|]; run_inv.
  exact (proj2 (declares_mapM map_index l Hmi) _ _ _ Hrun).
Qed.

Lemma declares_rec_gem_first_visit (lower : node -> M pexpr) (n : node) :
  declares (lower n) -> declares (rec_gem_first_visit lower n).
Proof.
  intros [Kl Dl]. split; [now apply keeps_rec_gem_first_visit|].
  intros ctx hit ctx' H Hd. unfold rec_gem_first_visit in H. run_inv.
  specialize (Dl _ _ _ Hrun Hd).
  pose proof (name_gen_call_inv _ _ _ _ Hrun0) as [_ Hc0].
  pose proof (mapM_index_to_iname_incl _ _ _ _ Hrun3) as Hin.
  destruct (keeps_mapM index_to_iname _ keeps_index_to_iname _ _ _ Hrun3)
    as [G3 _].
  apply grows_inames in G3.
  match type of Hrun3 with
  | mapM _ _ ?c2 = _ =>
      assert (D2 : inames_declared c2)
        by (subst c0; apply (inames_declared_mono c); auto using incl_refl)
  end.
  destruct (proj2 (declares_mapM index_to_iname (node_free_indices n)
                     declares_index_to_iname) _ _ _ Hrun3 D2) as [A3 R3].
  constructor; simpl.
  - intros x Hx. apply in_app_iff in Hx as [Hx|[<-|[]]]; [now apply A3|].
    exact Hin.
  - exact R3.
Qed.

Lemma declares_rec_gem_with (lower : node -> M pexpr) (n : node)
    (parent : option node) :
  declares (lower n) -> declares (rec_gem_with lower n parent).
Proof.
  intros Hl. split; [apply keeps_rec_gem_with, Hl|].
  intros ctx r ctx' H. unfold rec_gem_with in H. run_inv.
  destruct ((1 <? use_count c n)%nat && _is_cse_eligible n);
    [|exact (proj2 Hl _ _ _ H)].
  run_inv. intros Hd.
  apply (proj2 (declares_rec_gem_reference _ _ _) _ _ _ H).
  destruct (dict_get node_eqb (node_to_var_name c1) n);
    [destruct (dict_get node_eqb (node_to_inames c1) n)|];
    try (apply (proj2 (declares_rec_gem_first_visit lower n Hl) _ _ _ Hrun1 Hd)).
  now run_inv.
Qed.

Lemma declares_rule (subexpr : pexpr) (fi multiindex : list Index) :
  declares
    (name <- name_gen_call "sum_tmp" ;;
     arg_names <- mapM index_to_iname fi ;;
     red <- mapM index_to_iname multiindex ;;
     modify (fun ctx => set_subst_rules
               (subst_rules ctx ++
                [mk_SubstitutionRule name arg_names
                   (p_Reduction "sum" red subexpr)]) ctx) ;;
     ret (p_Call (p_Variable name) (map p_Variable arg_names))).
Proof.
  split; [apply keeps_rule|].
  intros ctx r ctx' H Hd. run_inv.
  pose proof (name_gen_call_inv _ _ _ _ Hrun) as [_ Hc].
  assert (D0 : inames_declared c)
    by (subst c; apply (inames_declared_mono ctx); auto using incl_refl).
  pose proof (declares_mapM index_to_iname) as Hm.
  apply (proj2 (Hm fi declares_index_to_iname) _ _ _ Hrun0) in D0.
  apply (proj2 (Hm multiindex declares_index_to_iname) _ _ _ Hrun1) in D0.
  destruct D0 as [A1 R1].
  pose proof (mapM_index_to_iname_incl _ _ _ _ Hrun0) as I0.
  pose proof (mapM_index_to_iname_incl _ _ _ _ Hrun1) as I1.
  destruct (keeps_mapM index_to_iname _ keeps_index_to_iname _ _ _ Hrun1)
    as [G1 _].
  apply grows_inames in G1.
  constructor; simpl.
  - exact A1.
  - intros x Hx. apply in_app_iff in Hx as [Hx|[<-|[]]]; [now apply R1|].
    simpl. split; [eapply incl_tran; eauto | exact I1].
Qed.

Lemma rec_gem_declares (g_literal_to_name : node -> result string) (n : node)
    (parent : option node) :
  declares (rec_gem g_literal_to_name n parent).
Proof.
  apply (rec_gem_ind g_literal_to_name (@declares)).
  - intros; apply declares_ret.
  - intros; apply declares_raise.
  - intros; now apply declares_bind.
  - apply declares_variable_to_name.
  - apply declares_literal_to_name.
  - apply declares_index_to_iname.
  - intros; now apply declares_rec_gem_with.
  - apply declares_rule.
Qed.

Lemma frozenset_spec (l : list string) :
  NoDup (frozenset l) /\ forall x, In x (frozenset l) <-> In x l.
Proof.
  unfold frozenset.
  assert (H : forall acc, NoDup acc ->
            NoDup (fold_left add_name l acc) /\
            forall x, In x (fold_left add_name l acc) <-> In x acc \/ In x l).
  { induction l as [|y l IH]; intros acc Hacc; simpl; [split; [auto|tauto]|].
    destruct (add_name_spec acc y Hacc) as [Hnd Hin].
    destruct (IH _ Hnd) as [H1 H2]. split; [exact H1|].
    intros x. rewrite H2, Hin. intuition. }
  destruct (H [] (NoDup_nil _)) as [H1 H2]. split; [exact H1|].
  intros x. rewrite H2. simpl. tauto.
Qed.

Lemma Forall2_compose {A B C : Type} (R : A -> B -> Prop) (S : B -> C -> Prop)
    (l1 : list A) (l2 : list B) (l3 : list C) :
  Forall2 R l1 l2 -> Forall2 S l2 l3 ->
  Forall2 (fun a c => exists b, R a b /\ S b c) l1 l3.
Proof.
  intros H. revert l3. induction H as [|a b l1 l2 Hab _ IH]; intros l3 H3;
    inversion H3; subst; constructor; eauto.
Qed.

Section RunInames.
Variable g_literal_to_name : node -> result string.
Variable list_of_set : list string -> list string.

Lemma lower_rhs_declares (argument_ordering : list Index) (a : node * node) :
  declares (lower_rhs g_literal_to_name argument_ordering a).
Proof.
  destruct a as [lhs n]. unfold lower_rhs.
  apply declares_bind; [apply rec_gem_declares|]. intros rhs.
  apply declares_bind; [|intros; apply declares_ret].
  apply declares_mapM, declares_index_to_iname.
Qed.

Lemma lower_lhs_declares (gi : bool) (e : node * pexpr * list string) :
  declares (lower_lhs g_literal_to_name list_of_set gi e).
Proof.
  destruct e as [[lhs rhs] free]. unfold lower_lhs.
  apply declares_bind; [apply rec_gem_declares|]. intros lhs_expr.
  destruct lhs_expr; try apply declares_raise.
  apply declares_bind; [|intros; apply declares_ret].
  apply declares_mapM. intros dep. split.
  - intros c insn c' H.
    destruct (single_assignment_reserve _ _ _ _ _ _ _ _ _ H)
      as (t & _ & _ & G & D).
    split; [exact G|]. intros extra Hd. specialize (D _ Hd).
    destruct D as [Hnd Hincl]. constructor.
    + simpl in Hnd. now inversion Hnd.
    + intros x Hx. apply Hincl. now right.
  - intros c insn c' H. unfold single_assignment in H. run_inv.
    apply aggregate_name_pure in Hrun as [-> _].
    apply name_gen_call_inv in Hrun0 as [_ ->].
    apply inames_declared_mono; auto using incl_refl.
Qed.

(** The loop variables recorded for a right-hand side are those that the
    context has, from then on, for the indices of the argument ordering
    that are free in the right-hand side. *)
Lemma lower_rhss_lookup (argument_ordering : list Index) (ir : list (node * node)) :
  forall c es c',
    mapM (lower_rhs g_literal_to_name argument_ordering) ir c = Ok (es, c') ->
    Forall2
      (fun a e =>
         fst (fst e) = fst a /\
         forall c'', grows c' c'' ->
           map (iname_of c'')
             (filter (fun i => contains Index_eqb i (node_free_indices (snd a)))
                argument_ordering) = map Some (snd e))
      ir es.
Proof.
  induction ir as [|[lhs n] ir IH]; intros c es c' H; cbn [mapM] in H; run_inv;
    constructor; [|eapply IH; eauto].
  destruct (keeps_mapM _ ir (lower_rhs_keeps g_literal_to_name argument_ordering)
              _ _ _ Hrun0) as [G _].
  unfold lower_rhs in Hrun. run_inv. simpl. split; [reflexivity|].
  intros c'' G'. eapply mapM_index_to_iname_lookup; [exact Hrun2|].
  eapply grows_trans; eauto.
Qed.

Lemma run_inames (ir : list (node * node)) (argument_ordering : list Index)
    (gi : bool) (lw : lowered) :
  generate_instructions g_literal_to_name list_of_set ir argument_ordering gi = Ok lw ->
  inames_declared (lw_ctx lw) /\
  (forall a, In a (lw_cse_instructions lw) ->
     incl (forced_iname_deps a) (inames (lw_ctx lw))) /\
  Forall2
    (fun a p =>
       exists free_inames,
         map (iname_of (lw_ctx lw))
           (filter (fun i => contains Index_eqb i (node_free_indices (snd a)))
              (dedup_argument_ordering argument_ordering)) =
           map Some free_inames /\
         Forall (fun insn => forced_iname_deps insn = frozenset free_inames /\
                             forced_iname_deps_is_final insn = true) (snd p))
    ir (lw_lhs lw).
Proof.
  intros H. pose proof (lowered_lhs_spec _ _ _ _ _ _ H) as Hspec.
  apply generate_instructions_inv in H as (ctx1 & E1 & E2 & Hcse & _).
  assert (D0 : inames_declared
                 (ConversionContext_init
                    (fold_left (fun d a => count_subexpression_uses (snd a) d) ir [])))
    by (constructor; simpl; intros ? []).
  pose proof (proj2 (declares_mapM _ ir (lower_rhs_declares _)) _ _ _ E1 D0) as D1.
  pose proof (proj2 (declares_mapM _ _ (lower_lhs_declares gi)) _ _ _ E2 D1) as D2.
  destruct (proj1 (declares_mapM _ _ (lower_lhs_declares gi)) _ _ _ E2) as [G2 _].
  split; [exact D2|]. split.
  - intros a Ha. rewrite Hcse in Ha. unfold cse_instructions in Ha.
    apply in_map_iff in Ha as ([[v free] rhs] & <- & Hin). simpl.
    intros x Hx. apply (proj1 (proj2 (frozenset_spec free) x)) in Hx.
    apply (grows_inames _ _ G2). apply (id_assignments _ D1 _ Hin). exact Hx.
  - pose proof (lower_rhss_lookup _ _ _ _ _ E1) as Hlook.
    eapply Forall2_impl; [|exact (Forall2_compose _ _ _ _ _ Hlook Hspec)].
    simpl. intros a p (e & [_ He] & _ & Hall).
    exists (snd e). split; [apply He, G2|].
    eapply Forall_impl; [|exact Hall]. simpl. intros insn (_ & H1 & H2 & _). auto.
Qed.

(** X9.  In a run that generates its instructions, every instruction of a
    top-level assignment is forced into the loops of the indices of the
    argument ordering, taken once each in the order of their first
    occurrence, that are free in the right-hand side of the assignment:
    the loop variables are those that the index table holds for these
    indices at the end of the run, and the set is marked as final. *)
Theorem exposed_inames (ir : list (node * node)) (argument_ordering : list Index)
    (generate_increments : bool) (lw : lowered) :
  generate_instructions g_literal_to_name list_of_set ir argument_ordering
    generate_increments = Ok lw ->
  Forall2
    (fun a p =>
       exists free_inames,
         map (iname_of (lw_ctx lw))
           (filter (fun i => contains Index_eqb i (node_free_indices (snd a)))
              (first_occurrences argument_ordering)) =
           map Some free_inames /\
         Forall (fun insn => forced_iname_deps insn = frozenset free_inames /\
                             forced_iname_deps_is_final insn = true) (snd p))
    ir (lw_lhs lw).
Proof.
  intros H. rewrite <- dedup_first_occurrences. now apply run_inames in H.
Qed.

(** X10.  In a kernel that [tsfc_to_loopy] returns, every loop variable
    that an instruction is forced into, every argument of a substitution
    rule and every loop variable that a rule reduces over is a loop
    variable of the domain of the kernel. *)
Theorem kernel_inames_declared (ir : list (node * node))
    (argument_ordering : list Index) (kernel_name : string)
    (generate_increments : bool) (knl : kernel) :
  tsfc_to_loopy g_literal_to_name list_of_set ir argument_ordering kernel_name
    generate_increments = Ok knl ->
  (forall insn, In insn (kernel_insns knl) ->
     incl (forced_iname_deps insn) (kernel_inames knl)) /\
  (forall r, In r (kernel_rules knl) ->
     incl (rule_arguments r) (kernel_inames knl) /\
     incl (reduction_inames (rule_expression r)) (kernel_inames knl)).
Proof.
  intros H.
  apply kernel_parts in H as (lw & Hgen & _ & Hdom & Hins & Hrules & _).
  destruct (run_inames _ _ _ _ Hgen) as (D & Hcse & Hir).
  assert (Hin : kernel_inames knl = inames (lw_ctx lw)).
  { unfold kernel_inames, inames, table_names. rewrite Hdom. simpl.
    unfold dict_values. now rewrite app_nil_r, map_map. }
  rewrite Hin, Hins, Hrules. split; [|apply (id_rules _ D)].
  intros insn Hi. unfold lw_instructions in Hi.
  apply in_app_iff in Hi as [Hi|Hi]; [now apply Hcse|].
  unfold lw_ir_instructions in Hi.
  apply in_concat in Hi as (insns & Hinsns & Hi).
  apply in_map_iff in Hinsns as (p & <- & Hp).
  assert (Hall : Forall (fun p => forall insn, In insn (snd p) ->
                           incl (forced_iname_deps insn) (inames (lw_ctx lw)))
                   (lw_lhs lw)).
  { clear - Hir. induction Hir as [|a p l l' (free & Hf & Hall) _ IH];
      constructor; [|exact IH].
    intros insn Hi. rewrite Forall_forall in Hall.
    destruct (Hall _ Hi) as [-> _].
    intros x Hx. apply (proj1 (proj2 (frozenset_spec free) x)) in Hx.
    apply (lookup_incl _ _ _ Hf). exact Hx. }
  rewrite Forall_forall in Hall. apply (Hall p Hp insn Hi).
Qed.

End RunInames.

Lemma exposed_inames_witness :
  exists lw,
    generate_instructions gem_no_literal_to_name insertion_order
      [(a_i, sum_of_prods); (A_ij, sum_over_j)] [index_j; index_i; index_j] false =
      Ok lw /\
    Forall2
      (fun a p =>
         exists free_inames,
           map (iname_of (lw_ctx lw))
             (filter (fun i => contains Index_eqb i (node_free_indices (snd a)))
                (first_occurrences [index_j; index_i; index_j])) =
             map Some free_inames /\
           Forall (fun insn => forced_iname_deps insn = frozenset free_inames /\
                               forced_iname_deps_is_final insn = true) (snd p))
      [(a_i, sum_of_prods); (A_ij, sum_over_j)] (lw_lhs lw).
Proof.
  eexists. split; [vm_compute; reflexivity|].
  apply (exposed_inames gem_no_literal_to_name insertion_order
           [(a_i, sum_of_prods); (A_ij, sum_over_j)]
           [index_j; index_i; index_j] false).
  vm_compute. reflexivity.
Defined.

Lemma kernel_inames_declared_witness :
  exists knl,
    tsfc_to_loopy gem_no_literal_to_name insertion_order [(a_i, sum_of_prods); (A_ij, sum_over_j)]
      [index_i; index_j] "tsfc_kernel" false = Ok knl /\
    (forall insn, In insn (kernel_insns knl) ->
       incl (forced_iname_deps insn) (kernel_inames knl)) /\
    (forall r, In r (kernel_rules knl) ->
       incl (rule_arguments r) (kernel_inames knl) /\
       incl (reduction_inames (rule_expression r)) (kernel_inames knl)).
Proof.
  eexists. split; [vm_compute; reflexivity|].
  apply (kernel_inames_declared gem_no_literal_to_name insertion_order
           [(a_i, sum_of_prods); (A_ij, sum_over_j)] [index_i; index_j]
           "tsfc_kernel" false).
  vm_compute. reflexivity.
Defined.

(** ** Lowering an expression again *)

Lemma later_refl (c : ConversionContext) : later c c.
Proof.
  constructor; try (exists []; now rewrite app_nil_r); auto using grows_refl.
Qed.

Lemma later_trans (c1 c2 c3 : ConversionContext) :
  later c1 c2 -> later c2 c3 -> later c1 c3.
Proof.
  intros [G1 C1 (l1 & M1) (l2 & R1) (l3 & S1)] [G2 C2 (m1 & M2) (m2 & R2) (m3 & S2)].
  constructor.
  - eapply grows_trans; eauto.
  - congruence.
  - exists (l1 ++ m1). now rewrite M2, M1, app_assoc.
  - exists (l2 ++ m2). now rewrite R2, R1, app_assoc.
  - exists (l3 ++ m3). now rewrite S2, S1, app_assoc.
Qed.

Lemma advances_intro {A : Type} (s : nat) (m : M A) :
  preserves s m -> keeps m -> advances m.
Proof.
  intros Hp Hk ctx r ctx' Hwf H.
  destruct (Hp _ _ _ Hwf H) as [W [E1 _ (l & E3 & _) E4 _ E6]].
  destruct (Hk _ _ _ H) as [G _].
  split; [exact W|]. constructor; eauto.
Qed.

Lemma app_eq_self {A : Type} (l l1 l2 : list A) :
  (l ++ l1) ++ l2 = l -> l1 = [] /\ l2 = [].
Proof.
  rewrite <- app_assoc. intros H.
  rewrite <- (app_nil_r l) in H at 2. apply app_inv_head in H.
  now apply app_eq_nil in H.
Qed.

Lemma repeatable_ret {A : Type} (a : A) : repeatable (ret a).
Proof.
  split.
  - intros ctx r ctx' Hwf H. run_inv. split; [exact Hwf | apply later_refl].
  - intros ctx r ctx' _ H _ ctx'' _ _. now run_inv.
Qed.

Lemma repeatable_raise {A : Type} (e : exn) : repeatable (@raise A e).
Proof. split; intros ctx r ctx' _ H; discriminate H. Qed.

Lemma repeatable_bind {A B : Type} (m : M A) (f : A -> M B) :
  repeatable m -> (forall a, repeatable (f a)) -> repeatable (bind m f).
Proof.
  intros [Am Rm] Hf. split.
  - intros ctx r ctx' Hwf H. run_inv.
    destruct (Am _ _ _ Hwf Hrun) as [W1 L1].
    destruct (proj1 (Hf a) _ _ _ W1 H) as [W2 L2].
    split; [exact W2 | eapply later_trans; eauto].
  - intros ctx r ctx' Hwf H Hrules ctx'' Hwf'' Hl. run_inv.
    destruct (Am _ _ _ Hwf Hrun) as [W1 L1].
    destruct (proj1 (Hf a) _ _ _ W1 H) as [W2 L2].
    destruct (lt_rules _ _ L1) as (l1 & S1).
    destruct (lt_rules _ _ L2) as (l2 & S2).
    assert (E : l1 = [] /\ l2 = []).
    { apply (app_eq_self (subst_rules ctx)). now rewrite <- S1, <- S2. }
    destruct E as [-> ->]. rewrite app_nil_r in S1, S2.
    unfold bind.
    rewrite (Rm _ _ _ Hwf Hrun S1 ctx'' Hwf'' (later_trans _ _ _ L2 Hl)).
    apply (proj2 (Hf a) _ _ _ W1 H S2 ctx'' Hwf'' Hl).
Qed.

Lemma dict_get_app_Some {K V : Type} (eqb : K -> K -> bool)
    (d l : list (K * V)) (k : K) (v : V) :
  dict_get eqb d k = Some v -> dict_get eqb (d ++ l) k = Some v.
Proof. intros H. now rewrite dict_get_app, H. Qed.

Lemma variable_to_name_lookup (n : node) (name : string)
    (c c' : ConversionContext) :
  variable_to_name n c = Ok (name, c') ->
  dict_get node_eqb (var_to_name_and_shape c') n = Some (name, node_shape n).
Proof.
  intros H.
  apply variable_to_name_cases in H as [[-> H]|(Hmiss & _ & ->)]; [exact H|].
  simpl. rewrite dict_get_app, Hmiss. simpl. now rewrite node_eqb_refl.
Qed.

Lemma literal_to_name_lookup (n : node) (name : string)
    (c c' : ConversionContext) :
  literal_to_name n c = Ok (name, c') ->
  exists array,
    (forall c0, node_array n c0 = Ok (array, c0)) /\
    dict_get node_eqb (literal_to_name_and_array c') n = Some (name, array).
Proof.
  intros H.
  apply literal_to_name_cases in H as (array & Ha & H). exists array. split.
  - intros c0. revert Ha. unfold node_array.
    destruct (node_cls n); intros Ha; run_inv. reflexivity.
  - destruct H as [[-> H]|(Hmiss & _ & ->)]; [exact H|].
    simpl. rewrite dict_get_app, Hmiss. simpl. now rewrite node_eqb_refl.
Qed.

Lemma repeatable_variable_to_name (n : node) : repeatable (variable_to_name n).
Proof.
  split.
  - apply (advances_intro 0); [|apply keeps_variable_to_name].
    apply preserves_table_step. intros ctx r ctx' Hwf H.
    now apply variable_to_name_step in H.
  - intros ctx name ctx' _ H _ ctx'' _ [[(l & Hl) _ _ _] _ _ _ _].
    apply variable_to_name_lookup in H.
    unfold variable_to_name, bind, gets.
    rewrite Hl, (dict_get_app_Some _ _ l _ _ H).
    now rewrite shape_eqb_refl.
Qed.

Lemma repeatable_literal_to_name (n : node) : repeatable (literal_to_name n).
Proof.
  split.
  - apply (advances_intro 0); [|apply keeps_literal_to_name].
    apply preserves_table_step. intros ctx r ctx' Hwf H.
    now apply literal_to_name_step in H.
  - intros ctx name ctx' _ H _ ctx'' _ [[_ (l & Hl) _ _] _ _ _ _].
    apply literal_to_name_lookup in H as (array & Ha & H).
    unfold literal_to_name, bind, gets.
    rewrite Hl, (dict_get_app_Some _ _ l _ _ H), Ha.
    unfold array_equal. now rewrite ndarray_eqb_refl.
Qed.

Lemma index_to_iname_again (i : Index) (r : string) (c : ConversionContext) :
  dict_get Index_eqb (index_to_iname_and_length c) i = Some (r, idx_extent i) ->
  index_to_iname i c = Ok (r, c).
Proof.
  intros H. unfold index_to_iname, bind, gets. rewrite H.
  now rewrite Z.eqb_refl.
Qed.

Lemma index_to_iname_entry (i : Index) (r : string) (c c' : ConversionContext) :
  index_to_iname i c = Ok (r, c') ->
  dict_get Index_eqb (index_to_iname_and_length c') i = Some (r, idx_extent i).
Proof.
  intros H.
  apply index_to_iname_cases in H as [[-> H]|(Hmiss & _ & ->)]; [exact H|].
  simpl. rewrite dict_get_app, Hmiss. simpl. now rewrite Index_eqb_refl.
Qed.

Lemma repeatable_index_to_iname (i : Index) : repeatable (index_to_iname i).
Proof.
  split.
  - apply (advances_intro 0); [|apply keeps_index_to_iname].
    apply preserves_table_step. intros ctx r ctx' Hwf H.
    now apply index_to_iname_step in H.
  - intros ctx name ctx' _ H _ ctx'' _ [[_ _ (l & Hl) _] _ _ _ _].
    apply index_to_iname_entry in H. apply index_to_iname_again.
    rewrite Hl. now apply dict_get_app_Some.
Qed.

Lemma repeatable_mapM {A B : Type} (f : A -> M B) (l : list A) :
  (forall a, repeatable (f a)) -> repeatable (mapM f l).
Proof.
  intros Hf. induction l as [|a l IH]; cbn [mapM].
  - apply repeatable_ret.
  - apply repeatable_bind; [apply Hf|]. intros b.
    apply repeatable_bind; [exact IH|]. intros bs. apply repeatable_ret.
Qed.

Lemma repeatable_map_index (i : Index) : repeatable (map_index i).
Proof.
  unfold map_index.
  apply repeatable_bind; [apply repeatable_index_to_iname|].
  intros; apply repeatable_ret.
Qed.

Lemma rec_gem_reference_again (n : node) (v : string) (k : nat) (r : pexpr)
    (c c' c'' : ConversionContext) :
  wf c -> rec_gem_reference n v k c = Ok (r, c') ->
  wf c'' -> later c' c'' ->
  dict_get node_eqb (node_to_inames c'') n = dict_get node_eqb (node_to_inames c) n ->
  rec_gem_reference n v k c'' = Ok (r, c'').
Proof.
  intros Hwf H Hwf'' Hl Hrec. unfold rec_gem_reference in *.
  destruct (Nat.eqb k 0); [now run_inv|]. run_inv.
  unfold bind, gets. rewrite Hrec.
  destruct (dict_get node_eqb (node_to_inames c0) n) as [fis|]; run_inv.
  assert (T : table_step c0 c').
  { eapply mapM_table_step; [|exact Hrun]. intros i ? ? ?. apply map_index_step. }
  rewrite (proj2 (repeatable_mapM map_index fis repeatable_map_index)
             _ _ _ Hwf Hrun (ts_rules _ _ T) _ Hwf'' Hl).
  reflexivity.
Qed.

Lemma expr_to_loopy_keeps (g_literal_to_name : node -> result string) (n : node) :
  keeps (expr_to_loopy g_literal_to_name n).
Proof.
  apply (lowering_ind g_literal_to_name (@keeps)).
  - intros; apply keeps_ret.
  - intros; apply keeps_raise.
  - intros; now apply keeps_bind.
  - apply keeps_variable_to_name.
  - apply keeps_literal_to_name.
  - apply keeps_index_to_iname.
  - intros; now apply keeps_rec_gem_with.
  - apply keeps_rule.
Qed.

Section Repeat.
Variable g_literal_to_name : node -> result string.

Lemma repeatable_rec_gem_with (n : node) (parent : option node) :
  repeatable (expr_to_loopy g_literal_to_name n) ->
  repeatable (rec_gem_with (expr_to_loopy g_literal_to_name) n parent).
Proof.
  intros [Al Rl].
  assert (Adv : advances (rec_gem_with (expr_to_loopy g_literal_to_name) n parent)).
  { apply (advances_intro (S (node_size n))).
    - apply rec_gem_with_preserves, expr_to_loopy_preserves.
    - apply keeps_rec_gem_with, expr_to_loopy_keeps. }
  split; [exact Adv|].
  intros ctx r ctx' Hwf H Hrules ctx'' Hwf'' Hl.
  destruct (Adv _ _ _ Hwf H) as [Hwf' Hl'].
  change (rec_gem g_literal_to_name n parent ctx = Ok (r, ctx')) in H.
  change (rec_gem g_literal_to_name n parent ctx'' = Ok (r, ctx'')).
  rewrite rec_gem_unfold in H |- *.
  assert (Hcount : use_count ctx'' n = use_count ctx n).
  { rewrite (use_count_eq ctx' ctx'') by apply (lt_count _ _ Hl).
    apply use_count_eq, (lt_count _ _ Hl'). }
  rewrite Hcount.
  destruct ((1 <? use_count ctx n)%nat && _is_cse_eligible n) eqn:C;
    [|exact (Rl _ _ _ Hwf H Hrules _ Hwf'' Hl)].
  apply andb_true_iff in C as [C1 C2]. apply Nat.ltb_lt in C1.
  destruct (lt_memo _ _ Hl) as (lm & Hm).
  destruct (lt_recorded _ _ Hl) as (lr & Hr).
  destruct (dict_get node_eqb (node_to_var_name ctx) n) as [v|] eqn:Em;
    [destruct (dict_get node_eqb (node_to_inames ctx) n) as [fis|] eqn:Er|].
  - simpl in H.
    pose proof (rec_gem_reference_step _ _ _ _ _ _ H) as [T _].
    assert (Em'' : dict_get node_eqb (node_to_var_name ctx'') n = Some v).
    { rewrite Hm, (ts_memo _ _ T). now apply dict_get_app_Some. }
    assert (Er'' : dict_get node_eqb (node_to_inames ctx'') n = Some fis).
    { rewrite Hr, (ts_recorded _ _ T). now apply dict_get_app_Some. }
    rewrite Em'', Er''. simpl.
    apply (rec_gem_reference_again n v _ r ctx ctx'); auto. congruence.
  - exfalso.
    pose proof (dict_get_same_keys node_eqb _ (node_to_var_name ctx) n
                  node_eqb_eq (eq_sym (wf_keys _ Hwf)) Er) as E'.
    congruence.
  - destruct (rec_gem_first_visit (expr_to_loopy g_literal_to_name) n ctx)
      as [[hit cf]|] eqn:Efv; [|discriminate].
    destruct (rec_gem_first_visit_spec _ _ _ _ _
                (expr_to_loopy_preserves g_literal_to_name n) Hwf Em C2 C1 Efv)
      as (res & c1 & inames & _ & W1 & E1 & Wf & _ & M & R & _ & _ & _ & Hlen).
    pose proof (memo_miss_after _ _ _ n (le_n _) E1 Em) as Em1.
    pose proof (dict_get_same_keys node_eqb _ (node_to_inames c1) n
                  node_eqb_eq (wf_keys _ W1) Em1) as Er1.
    pose proof (rec_gem_reference_step _ _ _ _ _ _ H) as [T _].
    assert (Emf : dict_get node_eqb (node_to_var_name cf) n = Some (fst hit)).
    { rewrite M, dict_get_app, Em1. simpl. now rewrite node_eqb_refl. }
    assert (Erf : dict_get node_eqb (node_to_inames cf) n =
                  Some (node_free_indices n)).
    { rewrite R, dict_get_app, Er1. simpl. now rewrite node_eqb_refl. }
    assert (Em'' : dict_get node_eqb (node_to_var_name ctx'') n = Some (fst hit)).
    { rewrite Hm, (ts_memo _ _ T). now apply dict_get_app_Some. }
    assert (Er'' : dict_get node_eqb (node_to_inames ctx'') n =
                   Some (node_free_indices n)).
    { rewrite Hr, (ts_recorded _ _ T). now apply dict_get_app_Some. }
    rewrite Em'', Er''. simpl. rewrite <- Hlen.
    apply (rec_gem_reference_again n _ _ r cf ctx'); auto. congruence.
Qed.

Lemma repeatable_rule (subexpr : pexpr) (fi multiindex : list Index) :
  repeatable
    (name <- name_gen_call "sum_tmp" ;;
     arg_names <- mapM index_to_iname fi ;;
     red <- mapM index_to_iname multiindex ;;
     modify (fun ctx => set_subst_rules
               (subst_rules ctx ++
                [mk_SubstitutionRule name arg_names
                   (p_Reduction "sum" red subexpr)]) ctx) ;;
     ret (p_Call (p_Variable name) (map p_Variable arg_names))).
Proof.
  assert (Hspec : forall ctx r ctx',
            wf ctx ->
            (name <- name_gen_call "sum_tmp" ;;
             arg_names <- mapM index_to_iname fi ;;
             red <- mapM index_to_iname multiindex ;;
             modify (fun ctx => set_subst_rules
                       (subst_rules ctx ++
                        [mk_SubstitutionRule name arg_names
                           (p_Reduction "sum" red subexpr)]) ctx) ;;
             ret (p_Call (p_Variable name) (map p_Variable arg_names))) ctx =
              Ok (r, ctx') ->
            wf ctx' /\ extends 0 ctx ctx' /\
            exists rule, subst_rules ctx' = subst_rules ctx ++ [rule]).
  { intros ctx r ctx' Hwf H. run_inv.
    apply mapM_index_to_iname_step in Hrun0 as T1.
    apply mapM_index_to_iname_step in Hrun1 as T2.
    pose proof (table_step_trans _ _ _ T1 T2) as T.
    destruct (rule_append_wf _ _ _ _ a0 (p_Reduction "sum" a1 subexpr) Hwf Hrun T)
      as (W & E & S & _).
    split; [exact W|]. split; [exact E|]. eexists. exact S. }
  split.
  - apply (advances_intro 0); [|apply keeps_rule].
    intros ctx r ctx' Hwf H. destruct (Hspec _ _ _ Hwf H) as (W & E & _). auto.
  - intros ctx r ctx' Hwf H Hrules. exfalso.
    destruct (Hspec _ _ _ Hwf H) as (_ & _ & rule & S).
    rewrite Hrules in S.
    destruct (app_eq_self (subst_rules ctx) [rule] []) as [E _];
      [rewrite app_nil_r; now symmetry | discriminate E].
Qed.

Lemma rec_gem_repeatable (n : node) (parent : option node) :
  repeatable (rec_gem g_literal_to_name n parent).
Proof.
  apply (rec_gem_ind g_literal_to_name (@repeatable)).
  - intros; apply repeatable_ret.
  - intros; apply repeatable_raise.
  - intros; now apply repeatable_bind.
  - apply repeatable_variable_to_name.
  - apply repeatable_literal_to_name.
  - apply repeatable_index_to_iname.
  - intros; now apply repeatable_rec_gem_with.
  - apply repeatable_rule.
Qed.

(** X11.  A lowering by [rec_gem] that has added no substitution rule can
    be repeated: in the context that it has produced, and in the context
    that the lowering of any other expression produces from there, the
    same node is lowered to the same expression, and the context is left
    as it is.  No name is allocated and no table, binding or rule is
    added by the second lowering. *)
Theorem lowering_repeatable (n : node) (parent : option node)
    (ctx ctx' : ConversionContext) (r : pexpr) :
  wf ctx ->
  rec_gem g_literal_to_name n parent ctx = Ok (r, ctx') ->
  subst_rules ctx' = subst_rules ctx ->
  rec_gem g_literal_to_name n parent ctx' = Ok (r, ctx') /\
  forall m parent' r' ctx'',
    rec_gem g_literal_to_name m parent' ctx' = Ok (r', ctx'') ->
    rec_gem g_literal_to_name n parent ctx'' = Ok (r, ctx'').
Proof.
  intros Hwf H Hrules.
  destruct (rec_gem_repeatable n parent) as [Adv Rep].
  destruct (Adv _ _ _ Hwf H) as [Hwf' _]. split.
  - apply (Rep _ _ _ Hwf H Hrules); [exact Hwf' | apply later_refl].
  - intros m parent' r' ctx'' Hm.
    destruct (proj1 (rec_gem_repeatable m parent') _ _ _ Hwf' Hm) as [Hwf'' Hl].
    now apply (Rep _ _ _ Hwf H Hrules).
Qed.

End Repeat.

Lemma lowering_repeatable_witness :
  exists r ctx',
    rec_gem gem_no_literal_to_name sum_of_prods None cse_ctx0 = Ok (r, ctx') /\
    rec_gem gem_no_literal_to_name sum_of_prods None ctx' = Ok (r, ctx').
Proof.
  eexists. eexists. split; [vm_compute; reflexivity|].
  refine (proj1 (lowering_repeatable gem_no_literal_to_name sum_of_prods None
                   cse_ctx0 _ _ (wf_init _) _ _)); vm_compute; reflexivity.
Defined.

(** ** What a lowering leaves behind *)

Section Appends.
Variable g_literal_to_name : node -> result string.
Variable list_of_set : list string -> list string.

(** X12.  [rec_gem] only appends: from a context that has the invariant,
    a lowering leaves the use counts as they are, and every symbol table,
    the memo, the recorded free indices, the bindings and the rules of
    the resulting context are those of the start with entries added at
    the end; the set of the temporaries, kept in the order of insertion,
    only gains members.  No entry is removed, replaced or reordered, and
    the names handed out stay handed out. *)
Theorem lowering_only_appends (n : node) (parent : option node)
    (ctx ctx' : ConversionContext) (r : pexpr) :
  wf ctx ->
  rec_gem g_literal_to_name n parent ctx = Ok (r, ctx') ->
  wf ctx' /\
  expr_use_count ctx' = expr_use_count ctx /\
  (exists l, var_to_name_and_shape ctx' = var_to_name_and_shape ctx ++ l) /\
  (exists l, literal_to_name_and_array ctx' = literal_to_name_and_array ctx ++ l) /\
  (exists l, index_to_iname_and_length ctx' = index_to_iname_and_length ctx ++ l) /\
  (exists l, node_to_var_name ctx' = node_to_var_name ctx ++ l) /\
  (exists l, node_to_inames ctx' = node_to_inames ctx ++ l) /\
  (exists l, assignments ctx' = assignments ctx ++ l) /\
  (exists l, subst_rules ctx' = subst_rules ctx ++ l) /\
  (exists l, cse_names ctx' = cse_names ctx ++ l) /\
  incl (names ctx) (names ctx').
Proof.
  intros Hwf H.
  destruct (rec_gem_preserves g_literal_to_name n parent _ _ _ Hwf H)
    as [W [E1 E2 (lm & E3 & _) E4 E5 E6]].
  destruct (rec_gem_keeps g_literal_to_name n parent _ _ _ H) as [[G1 G2 G3 _] _].
  repeat (split; [assumption|]).
  split; [eauto|]. split; [assumption|]. split; [assumption|].
  split; [assumption|]. split; [|exact E2].
  exists (map snd lm).
  now rewrite (wf_cse_names _ W), (wf_cse_names _ Hwf), E3, map_app.
Qed.

(** X13.  At the end of a run that generates its instructions, a node has
    a temporary only if it is eligible and occurs more than once in the
    right-hand sides of the assignments.  When no eligible node occurs
    twice, the run binds no common subexpression: it has no instruction
    tagged [cse], no temporary and no binding. *)
Theorem cse_only_for_shared (ir : list (node * node))
    (argument_ordering : list Index) (generate_increments : bool) (lw : lowered) :
  generate_instructions g_literal_to_name list_of_set ir argument_ordering
    generate_increments = Ok lw ->
  (forall n v, In (n, v) (node_to_var_name (lw_ctx lw)) ->
     _is_cse_eligible n = true /\
     1 < list_sum (map (fun a => occurrences n (snd a)) ir)) /\
  ((forall n, _is_cse_eligible n = true ->
      list_sum (map (fun a => occurrences n (snd a)) ir) <= 1) ->
   lw_cse_instructions lw = [] /\
   cse_names (lw_ctx lw) = [] /\
   assignments (lw_ctx lw) = []).
Proof.
  intros H.
  destruct (generate_instructions_inv _ _ _ _ _ _ H)
    as (ctx1 & E1 & E2 & Hcse & W1 & W2).
  destruct (mapM_wf _ _ _ (lower_rhs_preserves g_literal_to_name _) _ _ _
              (wf_init _) E1) as [_ C1].
  destruct (mapM_wf _ _ _ (lower_lhs_preserves g_literal_to_name list_of_set _) _ _ _ W1 E2)
    as [_ C2].
  assert (Hcount : forall c n,
            wf c ->
            expr_use_count c =
              fold_left (fun d a => count_subexpression_uses (snd a) d) ir [] ->
            forall v, In (n, v) (node_to_var_name c) ->
            _is_cse_eligible n = true /\
            1 < list_sum (map (fun a => occurrences n (snd a)) ir)).
  { intros c n W Hc v Hin. destruct (wf_eligible _ W _ _ Hin) as [He Hu].
    split; [exact He|]. unfold use_count in Hu. rewrite Hc in Hu.
    pose proof (count_ir_fold n ir []) as Hf. unfold count_of in Hf.
    simpl in Hf. rewrite Hf in Hu. exact Hu. }
  assert (Hempty : forall c,
            wf c ->
            expr_use_count c =
              fold_left (fun d a => count_subexpression_uses (snd a) d) ir [] ->
            (forall n, _is_cse_eligible n = true ->
               list_sum (map (fun a => occurrences n (snd a)) ir) <= 1) ->
            cse_names c = [] /\ assignments c = []).
  { intros c W Hc Hno.
    assert (Hm : node_to_var_name c = []).
    { destruct (node_to_var_name c) as [|[n v] l] eqn:Em; [reflexivity|].
      destruct (Hcount c n W Hc v) as [He Hu]; [rewrite Em; now left|].
      specialize (Hno n He). lia. }
    split; [now rewrite (wf_cse_names _ W), Hm|].
    pose proof (wf_memo_assign _ W) as Ha. rewrite Hm in Ha. simpl in Ha.
    symmetry in Ha. now apply map_eq_nil in Ha. }
  split.
  - intros n v. apply Hcount; [exact W2|]. now rewrite C2, C1.
  - intros Hno.
    destruct (Hempty ctx1 W1 C1 Hno) as [_ A1].
    destruct (Hempty (lw_ctx lw) W2) as [N2 A2]; [now rewrite C2, C1 | exact Hno|].
    rewrite Hcse, A1. auto.
Qed.

End Appends.

Lemma lowering_only_appends_witness :
  exists r ctx',
    rec_gem gem_no_literal_to_name sum_of_prods None cse_ctx0 = Ok (r, ctx') /\
    assignments ctx' <> [] /\
    exists l, assignments ctx' = assignments cse_ctx0 ++ l.
Proof.
  eexists. eexists. split; [vm_compute; reflexivity|].
  split; [vm_compute; discriminate|].
  refine (proj1 (proj2 (proj2 (proj2 (proj2 (proj2 (proj2 (proj2
            (lowering_only_appends gem_no_literal_to_name sum_of_prods None
               cse_ctx0 _ _ (wf_init _) _))))))))).
  vm_compute. reflexivity.
Defined.

Lemma cse_only_for_shared_witness :
  exists lw,
    generate_instructions gem_no_literal_to_name insertion_order copy_ir [index_i] false = Ok lw /\
    lw_ir_instructions lw <> [] /\
    lw_cse_instructions lw = [] /\
    cse_names (lw_ctx lw) = [] /\
    assignments (lw_ctx lw) = [].
Proof.
  eexists. split; [vm_compute; reflexivity|].
  split; [vm_compute; discriminate|].
  refine (proj2 (cse_only_for_shared gem_no_literal_to_name insertion_order copy_ir [index_i]
                   false _ _) _); [vm_compute; reflexivity|].
  intros n He. unfold copy_ir, b_i, indexed, var.
  cbn [map snd list_sum occurrences].
  match goal with
  | |- context [node_eqb ?b n] =>
      destruct (node_eqb b n) eqn:E;
        [apply node_eqb_eq in E; subst n; discriminate He|]
  end.
  match goal with
  | |- context [node_eqb ?b n] => destruct (node_eqb b n)
  end; simpl; lia.
Defined.

(** ** The lowering of the node classes *)

Lemma mapM_repeat {A B : Type} (f : A -> M B) (l : list A) :
  (forall a, repeatable (f a)) ->
  forall ctx rs ctx',
    wf ctx -> mapM f l ctx = Ok (rs, ctx') ->
    subst_rules ctx' = subst_rules ctx ->
    Forall2 (fun a r => f a ctx' = Ok (r, ctx')) l rs.
Proof.
  intros Hf. induction l as [|a l IH]; intros ctx rs ctx' Hwf H Hrules;
    cbn [mapM] in H; run_inv; constructor.
  - destruct (proj1 (Hf a) _ _ _ Hwf Hrun) as [W1 L1].
    destruct (proj1 (repeatable_mapM f l Hf) _ _ _ W1 Hrun0) as [W2 L2].
    destruct (lt_rules _ _ L1) as (l1 & S1).
    destruct (lt_rules _ _ L2) as (l2 & S2).
    destruct (app_eq_self (subst_rules ctx) l1 l2) as [-> ->];
      [now rewrite <- S1, <- S2|].
    rewrite app_nil_r in S1.
    apply (proj2 (Hf a) _ _ _ Hwf Hrun S1 _ W2 L2).
  - destruct (proj1 (Hf a) _ _ _ Hwf Hrun) as [W1 L1].
    destruct (proj1 (repeatable_mapM f l Hf) _ _ _ W1 Hrun0) as [W2 L2].
    destruct (lt_rules _ _ L1) as (l1 & S1).
    destruct (lt_rules _ _ L2) as (l2 & S2).
    destruct (app_eq_self (subst_rules ctx) l1 l2) as [-> ->];
      [now rewrite <- S1, <- S2|].
    rewrite app_nil_r in S2.
    apply (IH _ _ _ W1 Hrun0 S2).
Qed.

Lemma index_aggregate_to_name_lookup (c : node) (name : string)
    (ctx c1 : ConversionContext) :
  index_aggregate_to_name c ctx = Ok (name, c1) ->
  match node_cls c with
  | g_Variable _ _ =>
      dict_get node_eqb (var_to_name_and_shape c1) c = Some (name, node_shape c)
  | _ =>
      exists array,
        dict_get node_eqb (literal_to_name_and_array c1) c = Some (name, array)
  end /\
  index_to_iname_and_length c1 = index_to_iname_and_length ctx.
Proof.
  unfold index_aggregate_to_name. intros H.
  assert (Hv : variable_to_name c ctx = Ok (name, c1) ->
               index_to_iname_and_length c1 = index_to_iname_and_length ctx).
  { intros Hv. now apply variable_to_name_cases in Hv as [[-> _]|(_ & _ & ->)]. }
  assert (Hl : literal_to_name c ctx = Ok (name, c1) ->
               (exists array,
                  dict_get node_eqb (literal_to_name_and_array c1) c =
                    Some (name, array)) /\
               index_to_iname_and_length c1 = index_to_iname_and_length ctx).
  { intros Hl. split.
    - apply literal_to_name_lookup in Hl as (array & _ & Hl). eauto.
    - now apply literal_to_name_cases in Hl as (? & _ & [[-> _]|(_ & _ & ->)]). }
  destruct (node_cls c);
    try (split; [exact (variable_to_name_lookup _ _ _ _ H) | exact (Hv H)]);
    destruct (is_Constant c); try discriminate H; now apply Hl.
Qed.

Lemma aggregate_lookup_grows (c : node) (name : string)
    (c1 c2 : ConversionContext) :
  grows c1 c2 ->
  match node_cls c with
  | g_Variable _ _ =>
      dict_get node_eqb (var_to_name_and_shape c1) c = Some (name, node_shape c)
  | _ =>
      exists array,
        dict_get node_eqb (literal_to_name_and_array c1) c = Some (name, array)
  end ->
  match node_cls c with
  | g_Variable _ _ =>
      dict_get node_eqb (var_to_name_and_shape c2) c = Some (name, node_shape c)
  | _ =>
      exists array,
        dict_get node_eqb (literal_to_name_and_array c2) c = Some (name, array)
  end.
Proof.
  intros [(lv & Hv) (ll & Hl) _ _].
  destruct (node_cls c); intros H;
    try (destruct H as (arr & H); exists arr; rewrite Hl;
         apply dict_get_app_Some; exact H).
  rewrite Hv. apply dict_get_app_Some. exact H.
Qed.

Section Classes.
Variable g_literal_to_name : node -> result string.

Lemma mapM_plain_indices (multiindex : list Index) :
  forall c rs c',
    mapM (index_to_loopy g_literal_to_name) (map g_Index multiindex) c =
      Ok (rs, c') ->
    exists inames,
      mapM index_to_iname multiindex c = Ok (inames, c') /\
      rs = map p_Variable inames.
Proof.
  induction multiindex as [|i l IH]; intros c rs c' H; cbn [map mapM] in H;
    run_inv.
  - exists []. auto.
  - cbn [index_to_loopy] in Hrun. unfold map_index in Hrun. run_inv.
    destruct (IH _ _ _ Hrun0) as (inames & Hm & ->).
    exists (a1 :: inames). cbn [mapM]. unfold bind.
    rewrite Hrun1, Hm. auto.
Qed.

(** X14.  An [Indexed] node over plain indices is lowered to the
    subscript of the name of its aggregate by the loop variables of its
    indices, in their order: the name is the one that the variable table
    of the resulting context has for an aggregate that is a variable, and
    the one that the literal table has for it otherwise; the loop
    variables are those that the index table has for the indices. *)
Theorem indexed_lowering (multiindex : list Index) (c : node) (fi : list Index)
    (ctx ctx' : ConversionContext) (r : pexpr) :
  expr_to_loopy g_literal_to_name
    (Node (g_Indexed (map g_Index multiindex)) [c] fi) ctx = Ok (r, ctx') ->
  exists name inames,
    r = p_Subscript (p_Variable name) (map p_Variable inames) /\
    map (iname_of ctx') multiindex = map Some inames /\
    match node_cls c with
    | g_Variable _ _ =>
        dict_get node_eqb (var_to_name_and_shape ctx') c =
          Some (name, node_shape c)
    | _ =>
        exists array,
          dict_get node_eqb (literal_to_name_and_array ctx') c =
            Some (name, array)
    end.
Proof.
  intros H. cbn [expr_to_loopy] in H. unfold map_indexed in H.
  cbn [node_children] in H. run_inv.
  destruct (mapM_plain_indices _ _ _ _ Hrun0) as (inames & Hm & ->).
  destruct (index_aggregate_to_name_lookup _ _ _ _ Hrun) as [Hagg _].
  destruct (keeps_mapM index_to_iname _ keeps_index_to_iname _ _ _ Hm) as [G _].
  exists a, inames. split; [reflexivity|]. split.
  - eapply mapM_index_to_iname_lookup; [exact Hm | apply grows_refl].
  - eapply aggregate_lookup_grows; eauto.
Qed.

(** X15.  A [FlexiblyIndexed] node is lowered under the name that the
    tables of the resulting context have for its aggregate.  For an
    aggregate of shape [(None,)] the result is the name alone: the index
    descriptors of the node are not lowered, and the lowering registers
    no loop index.  Otherwise the result subscripts the name by one
    expression for each descriptor. *)
Theorem flexibly_indexed_lowering (dim2idxs : list (Z * list (index * Z)))
    (c : node) (fi : list Index) (ctx ctx' : ConversionContext) (r : pexpr) :
  expr_to_loopy g_literal_to_name
    (Node (g_FlexiblyIndexed dim2idxs) [c] fi) ctx = Ok (r, ctx') ->
  exists name,
    match node_cls c with
    | g_Variable _ _ =>
        dict_get node_eqb (var_to_name_and_shape ctx') c =
          Some (name, node_shape c)
    | _ =>
        exists array,
          dict_get node_eqb (literal_to_name_and_array ctx') c =
            Some (name, array)
    end /\
    if shape_eqb (node_shape c) [None]
    then r = p_Variable name /\
         index_to_iname_and_length ctx' = index_to_iname_and_length ctx
    else exists idx,
           r = p_Subscript (p_Variable name) idx /\
           List.length idx = List.length dim2idxs.
Proof.
  intros H. cbn [expr_to_loopy] in H. unfold map_flexibly_indexed in H.
  cbn [node_children] in H.
  destruct (shape_eqb (node_shape c) [None]); run_inv.
  - destruct (index_aggregate_to_name_lookup _ _ _ _ Hrun) as [Hagg Hidx].
    exists a. auto.
  - destruct (index_aggregate_to_name_lookup _ _ _ _ Hrun) as [Hagg _].
    assert (G : grows c0 ctx').
    { apply (keeps_mapM _ dim2idxs) in Hrun0 as [G _]; [exact G|].
      intros [off idxs]. simpl. generalize (p_Num (scalar_of_Z off)).
      induction idxs as [|[i st] idxs IH]; intros acc; [apply keeps_ret|].
      apply keeps_bind; [|intros; apply IH].
      apply (lowering_ind g_literal_to_name (@keeps)).
      - intros; apply keeps_ret.
      - intros; apply keeps_raise.
      - intros; now apply keeps_bind.
      - apply keeps_variable_to_name.
      - apply keeps_literal_to_name.
      - apply keeps_index_to_iname.
      - intros; now apply keeps_rec_gem_with.
      - apply keeps_rule. }
    exists a. split; [eapply aggregate_lookup_grows; eauto|].
    exists a0. split; [reflexivity|]. eapply mapM_length; eauto.
Qed.

(** X16.  The lowering of an arithmetic node is made of the lowerings of
    its children: when it has added no substitution rule, the result of a
    sum, product, minimum, maximum or function call holds, in the order of
    the children, the expressions to which [rec_gem] lowers the children
    in the resulting context, and the result of a division, power or
    comparison those of its two children. *)
Theorem arithmetic_lowering (n : node) (ctx ctx' : ConversionContext) (r : pexpr) :
  wf ctx ->
  expr_to_loopy g_literal_to_name n ctx = Ok (r, ctx') ->
  subst_rules ctx' = subst_rules ctx ->
  let lowered_to c x := rec_gem g_literal_to_name c (Some n) ctx' = Ok (x, ctx') in
  match node_cls n with
  | g_Sum =>
      exists rs, r = p_Sum rs /\ Forall2 lowered_to (node_children n) rs
  | g_Product =>
      exists rs, r = p_Product rs /\ Forall2 lowered_to (node_children n) rs
  | g_MinValue =>
      exists rs, r = p_Min rs /\ Forall2 lowered_to (node_children n) rs
  | g_MaxValue =>
      exists rs, r = p_Max rs /\ Forall2 lowered_to (node_children n) rs
  | g_MathFunction name =>
      exists rs, r = p_Call (p_Variable name) rs /\
                 Forall2 lowered_to (node_children n) rs
  | g_Division =>
      exists a b x y, node_children n = [a; b] /\ r = p_Quotient x y /\
                      lowered_to a x /\ lowered_to b y
  | g_Power =>
      exists a b x y, node_children n = [a; b] /\ r = p_Power x y /\
                      lowered_to a x /\ lowered_to b y
  | g_Comparison operator =>
      exists a b x y, node_children n = [a; b] /\ r = p_Comparison x operator y /\
                      lowered_to a x /\ lowered_to b y
  | _ => True
  end.
Proof.
  intros Hwf H Hrules lowered_to.
  assert (Hrep : forall c, repeatable (rec_gem g_literal_to_name c (Some n)))
    by (intros; apply rec_gem_repeatable).
  assert (Hmulti : forall rs,
            mapM (fun c => rec_gem g_literal_to_name c (Some n)) (node_children n) ctx =
              Ok (rs, ctx') ->
            Forall2 lowered_to (node_children n) rs).
  { intros rs Hm. exact (mapM_repeat _ _ Hrep _ _ _ Hwf Hm Hrules). }
  assert (Hbin : forall a b x y c1,
            node_children n = [a; b] ->
            rec_gem g_literal_to_name a (Some n) ctx = Ok (x, c1) ->
            rec_gem g_literal_to_name b (Some n) c1 = Ok (y, ctx') ->
            lowered_to a x /\ lowered_to b y).
  { intros a b x y c1 Hch Ha Hb.
    assert (Hm : mapM (fun c => rec_gem g_literal_to_name c (Some n))
                   (node_children n) ctx = Ok ([x; y], ctx')).
    { rewrite Hch. cbn [mapM]. unfold bind, ret. now rewrite Ha, Hb. }
    specialize (Hmulti _ Hm). rewrite Hch in Hmulti.
    inversion Hmulti as [|? ? ? ? H1 H2]; subst.
    inversion H2; subst. auto. }
  destruct n as [cls children fi]. cbn [node_cls].
  destruct cls; try exact I; cbn [expr_to_loopy] in H;
    unfold convert_multichild, map_function, map_division, map_power,
      map_comparison in H;
    try (run_inv; eexists; split; [reflexivity | now apply Hmulti]).
  - cbn [node_children] in *.
    destruct children as [|a [|b [|? ?]]]; try discriminate H. run_inv.
    exists a, b, a0, a1. split; [reflexivity|]. split; [reflexivity|].
    eapply Hbin; eauto.
  - cbn [node_children] in *.
    destruct children as [|a [|b [|? ?]]]; try discriminate H. run_inv.
    exists a, b, a0, a1. split; [reflexivity|]. split; [reflexivity|].
    eapply Hbin; eauto.
  - cbn [node_children] in *.
    destruct children as [|a [|b [|? ?]]]; try discriminate H. run_inv.
    exists a, b, a0, a1. split; [reflexivity|]. split; [reflexivity|].
    eapply Hbin; eauto.
Qed.

End Classes.

Lemma indexed_lowering_witness :
  exists r ctx',
    expr_to_loopy gem_no_literal_to_name
      (Node (g_Indexed (map g_Index [index_i; index_j]))
         [var "A" [Some 3%nat; Some 4%nat]] [index_i; index_j])
      (ConversionContext_init []) = Ok (r, ctx') /\
    r = p_Subscript (p_Variable "A") [p_Variable "i"; p_Variable "j"] /\
    exists name inames,
      r = p_Subscript (p_Variable name) (map p_Variable inames) /\
      map (iname_of ctx') [index_i; index_j] = map Some inames /\
      dict_get node_eqb (var_to_name_and_shape ctx')
        (var "A" [Some 3%nat; Some 4%nat]) =
        Some (name, node_shape (var "A" [Some 3%nat; Some 4%nat])).
Proof.
  eexists. eexists. split; [vm_compute; reflexivity|].
  split; [reflexivity|].
  apply (indexed_lowering gem_no_literal_to_name [index_i; index_j]
           (var "A" [Some 3%nat; Some 4%nat]) [index_i; index_j]
           (ConversionContext_init [])).
  vm_compute. reflexivity.
Defined.

Lemma flexibly_indexed_lowering_witness :
  exists r ctx',
    expr_to_loopy gem_no_literal_to_name
      (Node (g_FlexiblyIndexed [(0%Z, [(g_Index index_i, 1%Z)])])
         [var "w" [None]] [index_i])
      (ConversionContext_init []) = Ok (r, ctx') /\
    exists name,
      dict_get node_eqb (var_to_name_and_shape ctx') (var "w" [None]) =
        Some (name, node_shape (var "w" [None])) /\
      r = p_Variable name /\
      index_to_iname_and_length ctx' = [].
Proof.
  eexists. eexists. split; [vm_compute; reflexivity|].
  apply (flexibly_indexed_lowering gem_no_literal_to_name
           [(0%Z, [(g_Index index_i, 1%Z)])] (var "w" [None]) [index_i]
           (ConversionContext_init [])).
  vm_compute. reflexivity.
Defined.

Lemma arithmetic_lowering_witness :
  exists r ctx',
    expr_to_loopy gem_no_literal_to_name sum_of_prods cse_ctx0 = Ok (r, ctx') /\
    exists rs,
      r = p_Sum rs /\
      Forall2
        (fun c x =>
           rec_gem gem_no_literal_to_name c (Some sum_of_prods) ctx' = Ok (x, ctx'))
        (node_children sum_of_prods) rs.
Proof.
  eexists. eexists. split; [vm_compute; reflexivity|].
  refine (arithmetic_lowering gem_no_literal_to_name sum_of_prods cse_ctx0 _ _
            (wf_init _) _ _); vm_compute; reflexivity.
Defined.

(** ** The entries of the symbol tables *)

Lemma Index_eqb_iff (a b : Index) : Index_eqb a b = true <-> a = b.
Proof. split; [apply Index_eqb_eq | intros ->; apply Index_eqb_refl]. Qed.

Lemma tables_sound_same (c c' : ConversionContext) :
  var_to_name_and_shape c' = var_to_name_and_shape c ->
  literal_to_name_and_array c' = literal_to_name_and_array c ->
  index_to_iname_and_length c' = index_to_iname_and_length c ->
  tables_sound c -> tables_sound c'.
Proof.
  intros Hv Hl Hi [ ]. constructor; rewrite ?Hv, ?Hl, ?Hi; assumption.
Qed.

Lemma sound_ret {A : Type} (a : A) : sound (ret a).
Proof. intros ctx r ctx' H. now run_inv. Qed.

Lemma sound_raise {A : Type} (e : exn) : sound (@raise A e).
Proof. intros ctx r ctx' H. discriminate H. Qed.

Lemma sound_bind {A B : Type} (m : M A) (f : A -> M B) :
  sound m -> (forall a, sound (f a)) -> sound (bind m f).
Proof. intros Hm Hf ctx r ctx' H. run_inv. intros Hs. eapply Hf; eauto. Qed.

Lemma sound_mapM {A B : Type} (f : A -> M B) (l : list A) :
  (forall a, sound (f a)) -> sound (mapM f l).
Proof.
  intros Hf. induction l as [|a l IH]; cbn [mapM].
  - apply sound_ret.
  - apply sound_bind; [apply Hf|]. intros b.
    apply sound_bind; [exact IH|]. intros bs. apply sound_ret.
Qed.

Lemma sound_same {A : Type} (m : M A) :
  (forall ctx r ctx', m ctx = Ok (r, ctx') ->
     var_to_name_and_shape ctx' = var_to_name_and_shape ctx /\
     literal_to_name_and_array ctx' = literal_to_name_and_array ctx /\
     index_to_iname_and_length ctx' = index_to_iname_and_length ctx) ->
  sound m.
Proof.
  intros Hm ctx r ctx' H. destruct (Hm _ _ _ H) as (Hv & Hl & Hi).
  now apply tables_sound_same.
Qed.

Lemma sound_variable_to_name (n : node) : sound (variable_to_name n).
Proof.
  intros ctx name ctx' H [ ].
  apply variable_to_name_cases in H as [[-> _]|(Hmiss & _ & ->)];
    [now constructor|].
  constructor; simpl; auto.
  - intros k nm shape Hin. apply in_app_iff in Hin as [Hin|[Hin|[]]]; eauto.
    now inversion Hin.
  - rewrite map_app. simpl. apply NoDup_snoc; [assumption|].
    now apply (dict_get_None_notin node_eqb node_eqb_eq).
Qed.

Lemma sound_literal_to_name (n : node) : sound (literal_to_name n).
Proof.
  intros ctx name ctx' H [ ].
  apply literal_to_name_lookup in H as Hlook.
  destruct Hlook as (array' & Harr & _).
  apply literal_to_name_cases in H as (array & Ha & [[-> _]|(Hmiss & _ & ->)]);
    [now constructor|].
  rewrite Harr in Ha. injection Ha as <-.
  constructor; simpl; auto.
  - intros k nm arr Hin. apply in_app_iff in Hin as [Hin|[Hin|[]]]; eauto.
    inversion Hin; subst. exact Harr.
  - rewrite map_app. simpl. apply NoDup_snoc; [assumption|].
    now apply (dict_get_None_notin node_eqb node_eqb_eq).
Qed.

Lemma sound_index_to_iname (i : Index) : sound (index_to_iname i).
Proof.
  intros ctx name ctx' H [ ].
  apply index_to_iname_cases in H as [[-> _]|(Hmiss & _ & ->)];
    [now constructor|].
  constructor; simpl; auto.
  - intros k nm len Hin. apply in_app_iff in Hin as [Hin|[Hin|[]]]; eauto.
    now inversion Hin.
  - rewrite map_app. simpl. apply NoDup_snoc; [assumption|].
    now apply (dict_get_None_notin Index_eqb Index_eqb_iff).
Qed.

Lemma sound_rec_gem_with (lower : node -> M pexpr) (n : node)
    (parent : option node) :
  sound (lower n) -> sound (rec_gem_with lower n parent).
Proof.
  intros Hl. unfold rec_gem_with.
  apply sound_bind; [apply sound_same; intros ? ? ? H; now run_inv|].
  intros uses. destruct ((1 <? uses)%nat && _is_cse_eligible n); [|exact Hl].
  apply sound_bind; [apply sound_same; intros ? ? ? H; now run_inv|].
  intros memo.
  apply sound_bind; [apply sound_same; intros ? ? ? H; now run_inv|].
  intros recorded. apply sound_bind.
  - assert (Hfv : sound (rec_gem_first_visit lower n)).
    { unfold rec_gem_first_visit.
      apply sound_bind; [exact Hl|]. intros result.
      apply sound_bind;
        [apply sound_same; intros ? ? ? H;
         apply name_gen_call_inv in H as [_ ->]; auto|].
      intros var_name.
      apply sound_bind; [apply sound_same; intros ? ? ? H; now run_inv|].
      intros _.
      apply sound_bind; [apply sound_same; intros ? ? ? H; now run_inv|].
      intros _.
      apply sound_bind; [apply sound_mapM, sound_index_to_iname|].
      intros free_inames.
      apply sound_bind; [apply sound_same; intros ? ? ? H; now run_inv|].
      intros _.
      apply sound_bind; [apply sound_same; intros ? ? ? H; now run_inv|].
      intros _. apply sound_ret. }
    destruct (dict_get node_eqb memo n);
      [destruct (dict_get node_eqb recorded n)|]; auto using sound_ret.
  - intros hit. unfold rec_gem_reference.
    destruct (Nat.eqb (snd hit) 0); [apply sound_ret|].
    apply sound_bind; [apply sound_same; intros ? ? ? H; now run_inv|].
    intros rec'. destruct (dict_get node_eqb rec' n); [|apply sound_raise].
    apply sound_bind; [|intros; apply sound_ret].
    apply sound_mapM. intros i. unfold map_index.
    apply sound_bind; [apply sound_index_to_iname | intros; apply sound_ret].
Qed.

Lemma sound_rule (subexpr : pexpr) (fi multiindex : list Index) :
  sound
    (name <- name_gen_call "sum_tmp" ;;
     arg_names <- mapM index_to_iname fi ;;
     red <- mapM index_to_iname multiindex ;;
     modify (fun ctx => set_subst_rules
               (subst_rules ctx ++
                [mk_SubstitutionRule name arg_names
                   (p_Reduction "sum" red subexpr)]) ctx) ;;
     ret (p_Call (p_Variable name) (map p_Variable arg_names))).
Proof.
  apply sound_bind;
    [apply sound_same; intros ? ? ? H;
     apply name_gen_call_inv in H as [_ ->]; auto|].
  intros name.
  apply sound_bind; [apply sound_mapM, sound_index_to_iname|]. intros arg_names.
  apply sound_bind; [apply sound_mapM, sound_index_to_iname|]. intros red.
  apply sound_bind; [apply sound_same; intros ? ? ? H; now run_inv|].
  intros _. apply sound_ret.
Qed.

Lemma rec_gem_sound (g_literal_to_name : node -> result string) (n : node)
    (parent : option node) :
  sound (rec_gem g_literal_to_name n parent).
Proof.
  apply (rec_gem_ind g_literal_to_name (@sound)).
  - intros; apply sound_ret.
  - intros; apply sound_raise.
  - intros; now apply sound_bind.
  - apply sound_variable_to_name.
  - apply sound_literal_to_name.
  - apply sound_index_to_iname.
  - intros; now apply sound_rec_gem_with.
  - apply sound_rule.
Qed.

Lemma tables_sound_init (expr_use_count : list (node * nat)) :
  tables_sound (ConversionContext_init expr_use_count).
Proof. constructor; simpl; try constructor; intros; tauto. Qed.

(** In a context whose tables are sound, the checks of the tables
    pass. *)
Lemma index_to_iname_returns (ctx : ConversionContext) (i : Index) :
  tables_sound ctx -> exists iname ctx', index_to_iname i ctx = Ok (iname, ctx').
Proof.
  intros Hs. unfold index_to_iname, bind, gets.
  destruct (dict_get Index_eqb (index_to_iname_and_length ctx) i)
    as [[iname len]|] eqn:E.
  - apply (dict_get_Some_In Index_eqb Index_eqb_iff) in E.
    rewrite (tsd_idx _ Hs _ _ _ E), Z.eqb_refl. unfold ret. eauto.
  - unfold name_gen_call, modify, ret. simpl. eauto.
Qed.

Lemma variable_to_name_check (ctx : ConversionContext) (n : node) :
  tables_sound ctx -> variable_to_name n ctx <> Raise AssertionError.
Proof.
  intros Hs. unfold variable_to_name, bind, gets.
  destruct (dict_get node_eqb (var_to_name_and_shape ctx) n)
    as [[name shape]|] eqn:E.
  - apply (dict_get_Some_In node_eqb node_eqb_eq) in E.
    rewrite (tsd_var _ Hs _ _ _ E), shape_eqb_refl. discriminate.
  - unfold node_name. destruct (node_cls n); unfold raise, ret;
      try discriminate; unfold name_gen_call, modify; simpl; discriminate.
Qed.

Lemma literal_to_name_check (ctx : ConversionContext) (n : node) :
  tables_sound ctx -> literal_to_name n ctx <> Raise AssertionError.
Proof.
  intros Hs. unfold literal_to_name, bind, gets.
  destruct (dict_get node_eqb (literal_to_name_and_array ctx) n)
    as [[name array]|] eqn:E.
  - apply (dict_get_Some_In node_eqb node_eqb_eq) in E.
    rewrite (tsd_lit _ Hs _ _ _ E ctx). unfold array_equal.
    rewrite ndarray_eqb_refl. discriminate.
  - unfold name_gen_call. simpl.
    unfold node_array. destruct (node_cls n); unfold raise, ret, modify;
      discriminate.
Qed.

Section TablesSound.
Variable g_literal_to_name : node -> result string.

(** X18.  [rec_gem] keeps the symbol tables sound: when every entry
    holds the shape of its variable, the array of its literal or the
    extent of its index, and every key has one entry, the same is true
    after a lowering.  In such a context [index_to_iname] returns for
    every index, and the checks of [variable_to_name] and of
    [literal_to_name] against the recorded shape and array do not fail. *)
Theorem symbol_tables_sound (n : node) (parent : option node)
    (ctx ctx' : ConversionContext) (r : pexpr) :
  tables_sound ctx ->
  rec_gem g_literal_to_name n parent ctx = Ok (r, ctx') ->
  tables_sound ctx' /\
  (forall i, exists iname c, index_to_iname i ctx' = Ok (iname, c)) /\
  (forall v, variable_to_name v ctx' <> Raise AssertionError) /\
  (forall l, literal_to_name l ctx' <> Raise AssertionError).
Proof.
  intros Hs H. pose proof (rec_gem_sound _ _ _ _ _ _ H Hs) as Hs'.
  split; [exact Hs'|]. split; [|split].
  - intros i. now apply index_to_iname_returns.
  - intros v. now apply variable_to_name_check.
  - intros l. now apply literal_to_name_check.
Qed.

End TablesSound.

Lemma symbol_tables_sound_witness :
  exists r ctx',
    rec_gem gem_no_literal_to_name sum_of_prods None cse_ctx0 = Ok (r, ctx') /\
    tables_sound ctx' /\
    (forall i, exists iname c, index_to_iname i ctx' = Ok (iname, c)) /\
    (forall v, variable_to_name v ctx' <> Raise AssertionError) /\
    (forall l, literal_to_name l ctx' <> Raise AssertionError).
Proof.
  eexists. eexists. split; [vm_compute; reflexivity|].
  refine (symbol_tables_sound gem_no_literal_to_name sum_of_prods None cse_ctx0
            _ _ (tables_sound_init _) _).
  vm_compute. reflexivity.
Defined.

Lemma domain_axes (l : list (Index * (string * Z))) :
  (forall i iname len, In (i, (iname, len)) l -> len = idx_extent i) ->
  Forall2 (fun entry axis => axis = (fst (snd entry), idx_extent (fst entry)))
    l (dict_values l).
Proof.
  unfold dict_values. induction l as [|[i [iname len]] l IH]; intros Hall;
    simpl; constructor.
  - simpl. f_equal. apply (Hall i iname). now left.
  - apply IH. intros. eapply Hall. right. eassumption.
Qed.

Lemma literal_temporaries (l : list (node * (string * ndarray))) :
  (forall k name array, In (k, (name, array)) l ->
     forall c, node_array k c = Ok (array, c)) ->
  Forall2 (fun entry t =>
             t = mk_TemporaryVariable (fst (snd entry)) false
                   (Some (snd (snd entry))) GLOBAL true /\
             forall c, node_array (fst entry) c = Ok (snd (snd entry), c))
    l (map (fun v => mk_TemporaryVariable (fst v) false (Some (snd v)) GLOBAL true)
         (dict_values l)).
Proof.
  unfold dict_values. induction l as [|[k [name array]] l IH]; intros Hall;
    simpl; constructor.
  - simpl. split; [reflexivity|]. apply (Hall k name). now left.
  - apply IH. intros. eapply Hall. right. eassumption.
Qed.

Section KernelDeclarations.
Variable g_literal_to_name : node -> result string.
Variable list_of_set : list string -> list string.

Lemma run_tables_sound (ir : list (node * node))
    (argument_ordering : list Index) (gi : bool) (lw : lowered) :
  generate_instructions g_literal_to_name list_of_set ir argument_ordering gi = Ok lw ->
  tables_sound (lw_ctx lw).
Proof.
  intros H. apply generate_instructions_inv in H as (ctx1 & E1 & E2 & _).
  assert (Hrhs : forall a,
            sound (lower_rhs g_literal_to_name
                     (dedup_argument_ordering argument_ordering) a)).
  { intros [lhs n]. unfold lower_rhs.
    apply sound_bind; [apply rec_gem_sound|]. intros rhs.
    apply sound_bind; [|intros; apply sound_ret].
    apply sound_mapM, sound_index_to_iname. }
  assert (Hlhs : forall e, sound (lower_lhs g_literal_to_name list_of_set gi e)).
  { intros [[lhs rhs] free]. unfold lower_lhs.
    apply sound_bind; [apply rec_gem_sound|]. intros lhs_expr.
    destruct lhs_expr; try apply sound_raise.
    apply sound_bind; [|intros; apply sound_ret].
    apply sound_mapM. intros dep. apply sound_same.
    intros c insn c' H. unfold single_assignment in H. run_inv.
    apply aggregate_name_pure in Hrun as [-> _].
    apply name_gen_call_inv in Hrun0 as [_ ->]. auto. }
  apply (sound_mapM _ _ Hlhs _ _ _ E2).
  apply (sound_mapM _ _ Hrhs _ _ _ E1).
  apply tables_sound_init.
Qed.

(** X19.  A kernel that [tsfc_to_loopy] returns has the given name and
    one domain, which has one axis for each entry of the index table of
    the run, in the order of registration: the loop variable of the
    entry, with the extent of its index.  Its temporaries are, in this
    order, one global read-only temporary for each entry of the literal
    table, initialised with the array of the literal, and one private
    temporary of type [float64] for each common subexpression. *)
Theorem kernel_declarations (ir : list (node * node))
    (argument_ordering : list Index) (kernel_name : string)
    (generate_increments : bool) (knl : kernel) :
  tsfc_to_loopy g_literal_to_name list_of_set ir argument_ordering kernel_name
    generate_increments = Ok knl ->
  exists lw domain globals,
    generate_instructions g_literal_to_name list_of_set ir argument_ordering
      generate_increments = Ok lw /\
    knl_name knl = kernel_name /\
    knl_domains knl = [domain] /\ domain <> [] /\
    Forall2 (fun entry axis =>
               axis = (fst (snd entry), idx_extent (fst entry)))
      (index_to_iname_and_length (lw_ctx lw)) domain /\
    kernel_temporaries knl =
      globals ++
      map (fun name => mk_TemporaryVariable name true None PRIVATE false)
        (cse_names (lw_ctx lw)) /\
    Forall2 (fun entry t =>
               t = mk_TemporaryVariable (fst (snd entry)) false
                     (Some (snd (snd entry))) GLOBAL true /\
               forall c, node_array (fst entry) c = Ok (snd (snd entry), c))
      (literal_to_name_and_array (lw_ctx lw)) globals.
Proof.
  intros H.
  apply kernel_parts in H as (lw & Hgen & Hne & Hdom & _ & _ & Htemps & Hname).
  pose proof (run_tables_sound _ _ _ _ Hgen) as Hs.
  exists lw. eexists. eexists.
  split; [exact Hgen|]. split; [exact Hname|]. split; [exact Hdom|].
  split; [|split; [|split; [exact Htemps|]]].
  - unfold dict_values. intros E. apply map_eq_nil in E. contradiction.
  - apply domain_axes, (tsd_idx _ Hs).
  - apply literal_temporaries, (tsd_lit _ Hs).
Qed.

End KernelDeclarations.

Lemma kernel_declarations_witness :
  exists knl,
    tsfc_to_loopy gem_no_literal_to_name insertion_order [(a_i, sum_of_prods); (A_ij, sum_over_j)]
      [index_i; index_j] "tsfc_kernel" false = Ok knl /\
    knl_domains knl = [[("i", 3%Z); ("j", 4%Z)]] /\
    exists lw domain globals,
      generate_instructions gem_no_literal_to_name insertion_order
        [(a_i, sum_of_prods); (A_ij, sum_over_j)] [index_i; index_j] false =
        Ok lw /\
      knl_name knl = "tsfc_kernel" /\
      knl_domains knl = [domain] /\ domain <> [] /\
      Forall2 (fun entry axis =>
                 axis = (fst (snd entry), idx_extent (fst entry)))
        (index_to_iname_and_length (lw_ctx lw)) domain /\
      kernel_temporaries knl =
        globals ++
        map (fun name => mk_TemporaryVariable name true None PRIVATE false)
          (cse_names (lw_ctx lw)) /\
      Forall2 (fun entry t =>
                 t = mk_TemporaryVariable (fst (snd entry)) false
                       (Some (snd (snd entry))) GLOBAL true /\
                 forall c, node_array (fst entry) c = Ok (snd (snd entry), c))
        (literal_to_name_and_array (lw_ctx lw)) globals.
Proof.
  eexists. split; [vm_compute; reflexivity|].
  split; [reflexivity|].
  apply (kernel_declarations gem_no_literal_to_name insertion_order
           [(a_i, sum_of_prods); (A_ij, sum_over_j)] [index_i; index_j]
           "tsfc_kernel" false).
  vm_compute. reflexivity.
Defined.

(** ** The targets of the top-level assignments *)

Section Targets.
Variable g_literal_to_name : node -> result string.
Variable list_of_set : list string -> list string.

Hypothesis list_of_set_perm : forall s, Permutation s (list_of_set s).

Lemma fresh_targets_variable_targets (lhs_expr : pexpr)
    (insns : list lp_Assignment) :
  fresh_targets list_of_set lhs_expr insns -> variable_targets lhs_expr insns.
Proof.
  intros (agg & idx & new_names & -> & Hlen & Hmap & Hnd & Hall & Hne).
  destruct (DependencyMapper_spec idx) as [Hd Hin].
  pose proof (list_of_set_perm (DependencyMapper idx)) as Hp.
  exists agg, idx, new_names, (list_of_set (DependencyMapper idx)).
  split; [reflexivity|]. split; [eapply Permutation_NoDup; eauto|].
  split; [|auto 6].
  intros x. rewrite <- Hin. split; intros Hx.
  - eapply Permutation_in; [apply Permutation_sym, Hp | exact Hx].
  - eapply Permutation_in; [exact Hp | exact Hx].
Qed.

(** The names that the instructions of an assignment assign to have not
    been handed out when the assignment is reached. *)
Lemma lower_lhs_fresh (gi : bool) (e : node * pexpr * list string)
    (p : pexpr * list lp_Assignment) (c c' : ConversionContext) :
  wf c ->
  lower_lhs g_literal_to_name list_of_set gi e c = Ok (p, c') ->
  forall insn name,
    In insn (snd p) -> target_name insn = Some name -> ~ In name (names c).
Proof.
  destruct e as [[lhs rhs] free]. intros Hwf H. unfold lower_lhs in H. run_inv.
  destruct a; run_inv.
  destruct (rec_gem_subscript_name g_literal_to_name _ _ _ _ _ _ Hwf Hrun)
    as (agg & -> & _).
  destruct (rec_gem_preserves g_literal_to_name lhs None _ _ _ Hwf Hrun)
    as [_ E].
  destruct (single_assignments_spec _ _ _ _ _ _ _ _ _ Hrun0)
    as (new_names & _ & -> & _ & Hall).
  simpl. intros insn name Hin Ht.
  apply in_map_iff in Hin as ([nm dep] & <- & Hin).
  unfold target_name in Ht. simpl in Ht. injection Ht as <-.
  apply in_combine_l in Hin. rewrite Forall_forall in Hall.
  destruct (Hall _ Hin) as [Hfresh _].
  intros Hc. apply Hfresh. apply (ext_names _ _ _ E), Hc.
Qed.

(** C9.  Whatever the order in which Python iterates over the set of the
    variables of a subscript: in a run that generates its instructions,
    the instructions of a top-level assignment have one target for each
    variable of the lowered left-hand subscript, loop variables included
    and none twice, and the target is that variable alone subscripting a
    name of its own.  The name is new: the allocator derives it from the
    name of the lowered aggregate, it differs from that name, and it has
    not been handed out when the assignment is reached; over the whole
    run the names of the targets are pairwise distinct and distinct from
    the names of the variables, of the literals, of the loop indices, of
    the temporaries and of the rules.  No target is the lowered left-hand
    side itself. *)
Theorem top_level_targets (ir : list (node * node))
    (argument_ordering : list Index) (generate_increments : bool) (lw : lowered) :
  generate_instructions g_literal_to_name list_of_set ir argument_ordering
    generate_increments = Ok lw ->
  Forall2
    (fun e p =>
       variable_targets (fst p) (snd p) /\
       exists c c',
         lower_lhs g_literal_to_name list_of_set generate_increments e c =
           Ok (p, c') /\
         forall insn name,
           In insn (snd p) -> target_name insn = Some name ->
           ~ In name (names c))
    (lw_exprs_and_free_inames lw) (lw_lhs lw) /\
  exists targets,
    map target_name (lw_ir_instructions lw) = map Some targets /\
    NoDup (targets ++ all_names (lw_ctx lw)) /\
    incl targets (names (lw_ctx lw)).
Proof.
  intros H. split.
  - pose proof (generate_instructions_inv _ _ _ _ _ _ H)
      as (ctx1 & _ & H2 & _ & W1 & _).
    pose proof (mapM_Forall2 _ _ _
                  (lower_lhs_preserves g_literal_to_name list_of_set
                     generate_increments) _ _ _ W1 H2) as HF.
    eapply Forall2_impl; [|exact HF].
    intros [[lhs rhs] free] [lhs_expr insns] (c1 & c2 & W & Hrun). split.
    + apply fresh_targets_variable_targets.
      eapply lower_lhs_spec; eauto.
    + exists c1, c2. split; [exact Hrun|].
      exact (lower_lhs_fresh _ _ _ _ _ W Hrun).
  - destruct (run_names_distinct _ _ _ _ _ _ H) as (ts & Hts & _ & [Hnd Hincl]).
    exists ts. split; [exact Hts|]. split; [exact Hnd|].
    intros x Hx. apply Hincl, in_app_iff. now left.
Qed.

End Targets.

Lemma top_level_targets_witness :
  (forall s, Permutation s (reverse_order s)) /\
  exists lw,
    generate_instructions gem_no_literal_to_name reverse_order matrix_ir
      [index_i; index_j] false = Ok lw /\
    map assignee (lw_ir_instructions lw) =
      [p_Subscript (p_Variable "A_0") [p_Variable "j"];
       p_Subscript (p_Variable "A_1") [p_Variable "i"]] /\
    Forall2
      (fun e p =>
         variable_targets (fst p) (snd p) /\
         exists c c',
           lower_lhs gem_no_literal_to_name reverse_order false e c =
             Ok (p, c') /\
           forall insn name,
             In insn (snd p) -> target_name insn = Some name ->
             ~ In name (names c))
      (lw_exprs_and_free_inames lw) (lw_lhs lw) /\
    exists targets,
      map target_name (lw_ir_instructions lw) = map Some targets /\
      NoDup (targets ++ all_names (lw_ctx lw)) /\
      incl targets (names (lw_ctx lw)).
Proof.
  split; [exact (fun s => Permutation_rev s)|].
  eexists. split; [vm_compute; reflexivity|]. split; [reflexivity|].
  apply (top_level_targets gem_no_literal_to_name reverse_order
           (fun s => Permutation_rev s) matrix_ir [index_i; index_j] false).
  vm_compute. reflexivity.
Defined.

(** ** The argument ordering *)

Section ExposedArguments.
Variable g_literal_to_name : node -> result string.
Variable list_of_set : list string -> list string.

(** C8.  The argument ordering is replaced by the list of the first
    occurrences of its elements before it selects the free indices that
    an assignment exposes.  In a run that generates its instructions, the
    loop variables recorded for an assignment are those of the first
    occurrences that are free in its right-hand side, one for each and in
    their order, so that an index repeated in the ordering is recorded
    once; the instructions of the assignment are forced into exactly
    these loops.  The run on an ordering is the run on its first
    occurrences; [[i; j; i; k]] is treated as [[i; j; k]]. *)
Theorem argument_ordering_dedup (ir : list (node * node))
    (argument_ordering : list Index) (kernel_name : string)
    (generate_increments : bool) :
  dedup_argument_ordering argument_ordering = first_occurrences argument_ordering /\
  NoDup (dedup_argument_ordering argument_ordering) /\
  (forall x, In x (dedup_argument_ordering argument_ordering) <->
             In x argument_ordering) /\
  (forall lw,
     generate_instructions g_literal_to_name list_of_set ir argument_ordering
       generate_increments = Ok lw ->
     Forall2
       (fun a e =>
          fst (fst e) = fst a /\
          map (iname_of (lw_ctx lw))
            (filter (fun i => contains Index_eqb i (node_free_indices (snd a)))
               (first_occurrences argument_ordering)) =
            map Some (snd e))
       ir (lw_exprs_and_free_inames lw) /\
     Forall2
       (fun e p =>
          Forall (fun insn => forced_iname_deps insn = frozenset (snd e) /\
                              forced_iname_deps_is_final insn = true) (snd p))
       (lw_exprs_and_free_inames lw) (lw_lhs lw)) /\
  generate_instructions g_literal_to_name list_of_set ir argument_ordering
    generate_increments =
    generate_instructions g_literal_to_name list_of_set ir
      (first_occurrences argument_ordering) generate_increments /\
  tsfc_to_loopy g_literal_to_name list_of_set ir argument_ordering kernel_name
    generate_increments =
    tsfc_to_loopy g_literal_to_name list_of_set ir
      (first_occurrences argument_ordering) kernel_name generate_increments /\
  dedup_argument_ordering [index_i; index_j; index_i; index_k] =
    [index_i; index_j; index_k].
Proof.
  pose proof (dedup_first_occurrences argument_ordering) as Hd.
  destruct (first_occurrences_from_spec argument_ordering []) as [Hn Hi].
  assert (Hidem : dedup_argument_ordering (first_occurrences argument_ordering) =
                  dedup_argument_ordering argument_ordering).
  { rewrite !dedup_first_occurrences. unfold first_occurrences.
    now rewrite first_occurrences_from_idem. }
  split; [exact Hd|]. split; [rewrite Hd; exact Hn|].
  split; [intros x; rewrite Hd; unfold first_occurrences; rewrite Hi; simpl; tauto|].
  split; [|split; [|split; [|reflexivity]]].
  - intros lw H.
    pose proof (generate_instructions_inv _ _ _ _ _ _ H)
      as (ctx1 & E1 & E2 & _ & W1 & _).
    destruct (keeps_mapM _ _
                (fun e => proj1 (lower_lhs_declares g_literal_to_name list_of_set
                                   generate_increments e)) _ _ _ E2) as [G _].
    split.
    + rewrite Hd in E1.
      eapply Forall2_impl; [|exact (lower_rhss_lookup _ _ _ _ _ _ E1)].
      simpl. intros a e [H1 H2]. split; [exact H1 | now apply H2].
    + pose proof (mapM_Forall2 _ _ _
                    (lower_lhs_preserves g_literal_to_name list_of_set
                       generate_increments) _ _ _ W1 E2) as HF.
      eapply Forall2_impl; [|exact HF].
      intros [[lhs rhs] free] [lhs_expr insns] (c1 & c2 & W & Hrun).
      destruct (lower_lhs_spec _ _ _ _ _ _ _ _ _ _ W Hrun) as (_ & Hall).
      simpl. eapply Forall_impl; [|exact Hall].
      intros insn (_ & Hf & Hfin & _). split; [exact Hf | exact Hfin].
  - unfold generate_instructions. now rewrite Hidem.
  - unfold tsfc_to_loopy, generate_instructions. now rewrite Hidem.
Qed.

End ExposedArguments.

Lemma argument_ordering_dedup_witness :
  exists lw,
    generate_instructions gem_no_literal_to_name insertion_order
      [(a_i, sum_of_prods); (A_ij, A_ij)] [index_j; index_i; index_j; index_k]
      false = Ok lw /\
    map (fun e => snd e) (lw_exprs_and_free_inames lw) = [["i"]; ["j"; "i"]] /\
    map (fun p => map forced_iname_deps (snd p)) (lw_lhs lw) =
      [[["i"]]; [["j"; "i"]; ["j"; "i"]]] /\
    Forall2
      (fun a e =>
         fst (fst e) = fst a /\
         map (iname_of (lw_ctx lw))
           (filter (fun i => contains Index_eqb i (node_free_indices (snd a)))
              (first_occurrences [index_j; index_i; index_j; index_k])) =
           map Some (snd e))
      [(a_i, sum_of_prods); (A_ij, A_ij)] (lw_exprs_and_free_inames lw) /\
    Forall2
      (fun e p =>
         Forall (fun insn => forced_iname_deps insn = frozenset (snd e) /\
                             forced_iname_deps_is_final insn = true) (snd p))
      (lw_exprs_and_free_inames lw) (lw_lhs lw).
Proof.
  eexists. split; [vm_compute; reflexivity|]. split; [reflexivity|].
  split; [vm_compute; reflexivity|].
  refine (proj1 (proj2 (proj2 (proj2
            (argument_ordering_dedup gem_no_literal_to_name insertion_order
               [(a_i, sum_of_prods); (A_ij, A_ij)]
               [index_j; index_i; index_j; index_k] "tsfc_kernel" false)))) _ _).
  vm_compute. reflexivity.
Defined.

(** ** The bindings of the common subexpressions *)

Lemma advances_ret {A : Type} (a : A) : advances (ret a).
Proof. apply repeatable_ret. Qed.

Lemma advances_raise {A : Type} (e : exn) : advances (@raise A e).
Proof. apply repeatable_raise. Qed.

Lemma advances_bind {A B : Type} (m : M A) (f : A -> M B) :
  advances m -> (forall a, advances (f a)) -> advances (bind m f).
Proof.
  intros Hm Hf ctx r ctx' Hwf H. run_inv.
  destruct (Hm _ _ _ Hwf Hrun) as [W1 L1].
  destruct (Hf a _ _ _ W1 H) as [W2 L2].
  split; [exact W2 | eapply later_trans; eauto].
Qed.

Lemma advances_mapM {A B : Type} (f : A -> M B) (l : list A) :
  (forall a, In a l -> advances (f a)) -> advances (mapM f l).
Proof.
  induction l as [|a l IH]; intros Hf; cbn [mapM].
  - apply advances_ret.
  - apply advances_bind; [apply Hf; now left|]. intros b.
    apply advances_bind; [apply IH; intros; apply Hf; now right|].
    intros bs. apply advances_ret.
Qed.

Lemma lookup_app (c c' : ConversionContext) (l : list Index) (rs : list string) :
  (exists t, index_to_iname_and_length c' = index_to_iname_and_length c ++ t) ->
  map (iname_of c) l = map Some rs -> map (iname_of c') l = map Some rs.
Proof.
  intros (t & Ht). revert rs. induction l as [|i l IH]; intros [|r rs] H;
    simpl in *; try discriminate; [reflexivity|].
  injection H as H1 H2. f_equal; [|now apply IH].
  unfold iname_of in *. rewrite Ht, dict_get_app.
  now destruct (dict_get Index_eqb (index_to_iname_and_length c) i).
Qed.

Section Bindings.
Variable g_literal_to_name : node -> result string.

Lemma binding_of_later (c c' : ConversionContext) (kv : node * string)
    (a : string * list string * pexpr) :
  later c c' ->
  binding_of g_literal_to_name c kv a -> binding_of g_literal_to_name c' kv a.
Proof.
  intros L (Hn & Hl & c0 & c0' & W & Hrun & L0).
  split; [exact Hn|].
  split; [eapply lookup_app; eauto; apply (gr_idx _ _ (lt_grows _ _ L))|].
  exists c0, c0'. split; [exact W|]. split; [exact Hrun|].
  eapply later_trans; eauto.
Qed.

Lemma bound_quiet (c c' : ConversionContext) :
  later c c' ->
  node_to_var_name c' = node_to_var_name c ->
  assignments c' = assignments c ->
  bound g_literal_to_name c -> bound g_literal_to_name c'.
Proof.
  intros L Hm Ha Hb. unfold bound in *. rewrite Hm, Ha.
  eapply Forall2_impl; [|exact Hb]. intros kv a.
  now apply binding_of_later.
Qed.

Lemma binds_quiet {A : Type} (m : M A) :
  advances m ->
  (forall ctx r ctx', wf ctx -> m ctx = Ok (r, ctx') ->
     node_to_var_name ctx' = node_to_var_name ctx /\
     assignments ctx' = assignments ctx) ->
  binds g_literal_to_name m.
Proof.
  intros Ha Hq. split; [exact Ha|]. intros ctx r ctx' Hwf H.
  destruct (Ha _ _ _ Hwf H) as [_ L]. destruct (Hq _ _ _ Hwf H) as [Hm Has].
  now apply bound_quiet.
Qed.

Lemma binds_table_step {A : Type} (m : M A) :
  advances m ->
  (forall ctx r ctx', wf ctx -> m ctx = Ok (r, ctx') -> table_step ctx ctx') ->
  binds g_literal_to_name m.
Proof.
  intros Ha Ht. apply binds_quiet; [exact Ha|]. intros ctx r ctx' Hwf H.
  destruct (Ht _ _ _ Hwf H). auto.
Qed.

Lemma binds_ret {A : Type} (a : A) : binds g_literal_to_name (ret a).
Proof.
  split; [apply advances_ret|]. intros ctx r ctx' _ H. now run_inv.
Qed.

Lemma binds_raise {A : Type} (e : exn) : binds g_literal_to_name (@raise A e).
Proof. split; [apply advances_raise|]. intros ctx r ctx' _ H. discriminate H. Qed.

Lemma binds_bind {A B : Type} (m : M A) (f : A -> M B) :
  binds g_literal_to_name m -> (forall a, binds g_literal_to_name (f a)) ->
  binds g_literal_to_name (bind m f).
Proof.
  intros [Am Bm] Hf. split.
  - apply advances_bind; [exact Am|]. intros a. apply Hf.
  - intros ctx r ctx' Hwf H Hb. run_inv.
    destruct (Am _ _ _ Hwf Hrun) as [W1 _].
    apply (proj2 (Hf a) _ _ _ W1 H). exact (Bm _ _ _ Hwf Hrun Hb).
Qed.

Lemma binds_mapM {A B : Type} (f : A -> M B) (l : list A) :
  (forall a, binds g_literal_to_name (f a)) -> binds g_literal_to_name (mapM f l).
Proof.
  intros Hf. induction l as [|a l IH]; cbn [mapM].
  - apply binds_ret.
  - apply binds_bind; [apply Hf|]. intros b.
    apply binds_bind; [exact IH|]. intros bs. apply binds_ret.
Qed.

Lemma binds_index_to_iname (i : Index) : binds g_literal_to_name (index_to_iname i).
Proof.
  apply binds_table_step; [apply repeatable_index_to_iname|].
  intros ctx r ctx' _. apply index_to_iname_step.
Qed.

Lemma binds_rec_gem_reference (n : node) (v : string) (k : nat) :
  binds g_literal_to_name (rec_gem_reference n v k).
Proof.
  apply binds_table_step.
  - apply (advances_intro 0); [|apply keeps_rec_gem_reference].
    apply preserves_table_step. intros ctx r ctx' _ H.
    now apply rec_gem_reference_step in H.
  - intros ctx r ctx' _ H. now apply rec_gem_reference_step in H.
Qed.

(** The first visit of a node appends its binding. *)
Lemma rec_gem_first_visit_binding (n : node) (ctx cf : ConversionContext)
    (hit : string * nat) :
  wf ctx ->
  dict_get node_eqb (node_to_var_name ctx) n = None ->
  _is_cse_eligible n = true ->
  1 < use_count ctx n ->
  rec_gem_first_visit (expr_to_loopy g_literal_to_name) n ctx = Ok (hit, cf) ->
  exists result c1 inames,
    expr_to_loopy g_literal_to_name n ctx = Ok (result, c1) /\
    wf c1 /\ wf cf /\
    expr_use_count c1 = expr_use_count ctx /\
    expr_use_count cf = expr_use_count c1 /\
    later c1 cf /\
    dict_get node_eqb (node_to_var_name c1) n = None /\
    node_to_var_name cf = node_to_var_name c1 ++ [(n, fst hit)] /\
    assignments cf = assignments c1 ++ [(fst hit, inames, result)] /\
    map (iname_of cf) (node_free_indices n) = map Some inames /\
    snd hit = List.length (node_free_indices n).
Proof.
  intros Hwf Hmiss He Hu H.
  destruct (rec_gem_first_visit_spec _ _ _ _ _
              (expr_to_loopy_preserves g_literal_to_name n) Hwf Hmiss He Hu H)
    as (result & c1 & inames & Hlow & W1 & E1 & Wf & E2 & M & _ & As & _ & _ & Hlen).
  pose proof (memo_miss_after _ _ _ n (le_n _) E1 Hmiss) as Hmiss1.
  unfold rec_gem_first_visit in H. run_inv.
  rewrite Hlow in Hrun. injection Hrun as <- <-.
  pose proof (name_gen_call_inv _ _ _ _ Hrun0) as [_ Hc0].
  destruct (keeps_mapM index_to_iname _ keeps_index_to_iname _ _ _ Hrun3)
    as [[(l1 & G1) (l2 & G2) (l3 & G3) G4] _].
  pose proof (mapM_index_to_iname_lookup _ _ _ _ Hrun3 _ (grows_refl _)) as Hlook.
  pose proof As as As2. simpl in As2.
  apply app_inj_tail in As2 as [_ As2]. injection As2 as <-.
  exists result, c1, a3.
  split; [exact Hlow|]. split; [exact W1|]. split; [exact Wf|].
  split; [apply (ext_count _ _ _ E1)|]. split; [apply (ext_count _ _ _ E2)|].
  split; [|split; [exact Hmiss1|split; [exact M|split; [exact As|]]]].
  - destruct E2 as [X1 _ (l & X3 & _) X4 _ X6].
    constructor; eauto. subst c0. simpl in *.
    constructor; simpl; eauto.
    intros x Hx. apply G4. now right.
  - split; [exact Hlook | exact Hlen].
Qed.

Lemma binds_rec_gem_with (n : node) (parent : option node) :
  binds g_literal_to_name (expr_to_loopy g_literal_to_name n) ->
  binds g_literal_to_name
    (rec_gem_with (expr_to_loopy g_literal_to_name) n parent).
Proof.
  intros [Al Bl]. split.
  - apply (advances_intro (S (node_size n))).
    + apply rec_gem_with_preserves, expr_to_loopy_preserves.
    + apply keeps_rec_gem_with, expr_to_loopy_keeps.
  - intros ctx r ctx' Hwf H Hb.
    change (rec_gem g_literal_to_name n parent ctx = Ok (r, ctx')) in H.
    rewrite rec_gem_unfold in H.
    destruct ((1 <? use_count ctx n)%nat && _is_cse_eligible n) eqn:C;
      [|exact (Bl _ _ _ Hwf H Hb)].
    apply andb_true_iff in C as [C1 C2]. apply Nat.ltb_lt in C1.
    destruct (dict_get node_eqb (node_to_var_name ctx) n) as [v|] eqn:Em;
      [destruct (dict_get node_eqb (node_to_inames ctx) n) as [fis|] eqn:Er|].
    + exact (proj2 (binds_rec_gem_reference _ _ _) _ _ _ Hwf H Hb).
    + exfalso.
      pose proof (dict_get_same_keys node_eqb _ (node_to_var_name ctx) n
                    node_eqb_eq (eq_sym (wf_keys _ Hwf)) Er) as E'.
      congruence.
    + destruct (rec_gem_first_visit (expr_to_loopy g_literal_to_name) n ctx)
        as [[hit cf]|] eqn:Efv; [|discriminate].
      destruct (rec_gem_first_visit_binding _ _ _ _ Hwf Em C2 C1 Efv)
        as (result & c1 & inames & Hlow & W1 & Wf & U1 & Uf & L1 & _ & M & As
            & Hin & _).
      apply (proj2 (binds_rec_gem_reference _ _ _) _ _ _ Wf H).
      unfold bound. rewrite M, As. apply Forall2_app.
      * pose proof (Bl _ _ _ Hwf Hlow Hb) as Hb1.
        eapply Forall2_impl; [|exact Hb1]. intros kv a.
        now apply binding_of_later.
      * constructor; [|constructor].
        split; [reflexivity|]. split; [exact Hin|].
        exists ctx, c1. split; [exact Hwf|]. split; [exact Hlow | exact L1].
Qed.

Lemma binds_rule (subexpr : pexpr) (fi multiindex : list Index) :
  binds g_literal_to_name
    (name <- name_gen_call "sum_tmp" ;;
     arg_names <- mapM index_to_iname fi ;;
     red <- mapM index_to_iname multiindex ;;
     modify (fun ctx => set_subst_rules
               (subst_rules ctx ++
                [mk_SubstitutionRule name arg_names
                   (p_Reduction "sum" red subexpr)]) ctx) ;;
     ret (p_Call (p_Variable name) (map p_Variable arg_names))).
Proof.
  apply binds_quiet; [apply repeatable_rule|].
  intros ctx r ctx' Hwf H. run_inv.
  apply name_gen_call_step in Hrun as ([ ] & _).
  apply mapM_index_to_iname_step in Hrun0 as [ ].
  apply mapM_index_to_iname_step in Hrun1 as [ ].
  simpl. split; congruence.
Qed.

Lemma rec_gem_binds (n : node) (parent : option node) :
  binds g_literal_to_name (rec_gem g_literal_to_name n parent).
Proof.
  apply (rec_gem_ind g_literal_to_name (@binds g_literal_to_name)).
  - intros; apply binds_ret.
  - intros; apply binds_raise.
  - intros; now apply binds_bind.
  - intros v. apply binds_table_step; [apply repeatable_variable_to_name|].
    intros ctx r ctx' Hwf H. now apply variable_to_name_step in H.
  - intros l. apply binds_table_step; [apply repeatable_literal_to_name|].
    intros ctx r ctx' Hwf H. now apply literal_to_name_step in H.
  - apply binds_index_to_iname.
  - intros; now apply binds_rec_gem_with.
  - apply binds_rule.
Qed.

End Bindings.

(** ** The nodes that a run visits *)

Lemma covered_nil (ctx : ConversionContext) : covered ctx [].
Proof. intros n [ ]. Qed.

Lemma covered_app (ctx : ConversionContext) (l1 l2 : list node) :
  covered ctx l1 -> covered ctx l2 -> covered ctx (l1 ++ l2).
Proof.
  intros H1 H2 n Hn. apply in_app_or in Hn as [Hn|Hn]; [now apply H1 | now apply H2].
Qed.

Lemma covered_incl (ctx : ConversionContext) (l l' : list node) :
  incl l' l -> covered ctx l -> covered ctx l'.
Proof. intros Hi H n Hn. apply H, Hi, Hn. Qed.

Lemma covered_later (c c' : ConversionContext) (l : list node) :
  later c c' -> covered c l -> covered c' l.
Proof.
  intros L H n Hn He Hu.
  rewrite (use_count_eq c c' n (lt_count _ _ L)) in Hu.
  destruct (H n Hn He Hu) as (v & Hv).
  destruct (lt_memo _ _ L) as (t & ->).
  exists v. now apply dict_get_app_Some.
Qed.

Lemma closed_quiet (c c' : ConversionContext) :
  later c c' -> node_to_var_name c' = node_to_var_name c ->
  closed c -> closed c'.
Proof.
  intros L Hm H m v Hin. rewrite Hm in Hin.
  eapply covered_later; [exact L|]. eapply H; eauto.
Qed.

Lemma visits_quiet {A : Type} (m : M A) :
  advances m ->
  (forall ctx r ctx', wf ctx -> m ctx = Ok (r, ctx') ->
     node_to_var_name ctx' = node_to_var_name ctx) ->
  visits [] m.
Proof.
  intros Ha Hq. split; [exact Ha|]. intros ctx r ctx' Hwf Hc H.
  destruct (Ha _ _ _ Hwf H) as [_ L].
  split; [|apply covered_nil].
  eapply closed_quiet; eauto.
Qed.

Lemma visits_table_step {A : Type} (m : M A) :
  advances m ->
  (forall ctx r ctx', wf ctx -> m ctx = Ok (r, ctx') -> table_step ctx ctx') ->
  visits [] m.
Proof.
  intros Ha Ht. apply visits_quiet; [exact Ha|]. intros ctx r ctx' Hwf H.
  apply (ts_memo _ _ (Ht _ _ _ Hwf H)).
Qed.

Lemma visits_ret {A : Type} (a : A) : visits [] (ret a).
Proof.
  split; [apply advances_ret|]. intros ctx r ctx' _ Hc H. run_inv.
  split; [exact Hc | apply covered_nil].
Qed.

Lemma visits_raise {A : Type} (e : exn) (l : list node) : visits l (@raise A e).
Proof. split; [apply advances_raise|]. intros ctx r ctx' _ _ H. discriminate H. Qed.

Lemma visits_bind {A B : Type} (m : M A) (f : A -> M B) (l1 l2 : list node) :
  visits l1 m -> (forall a, visits l2 (f a)) -> visits (l1 ++ l2) (bind m f).
Proof.
  intros [Am Vm] Hf. split.
  - apply advances_bind; [exact Am|]. intros a. apply Hf.
  - intros ctx r ctx' Hwf Hc H. run_inv.
    destruct (Am _ _ _ Hwf Hrun) as [W1 _].
    destruct (Vm _ _ _ Hwf Hc Hrun) as [C1 V1].
    destruct (Hf a) as [Af Vf].
    destruct (Af _ _ _ W1 H) as [_ L2].
    destruct (Vf _ _ _ W1 C1 H) as [C2 V2].
    split; [exact C2|]. apply covered_app; [|exact V2].
    eapply covered_later; eauto.
Qed.

Lemma visits_incl {A : Type} (m : M A) (l l' : list node) :
  incl l' l -> visits l m -> visits l' m.
Proof.
  intros Hi [Am Vm]. split; [exact Am|]. intros ctx r ctx' Hwf Hc H.
  destruct (Vm _ _ _ Hwf Hc H) as [C V]. split; [exact C|].
  eapply covered_incl; eauto.
Qed.

Lemma visits_bind_ret {A B : Type} (m : M A) (f : A -> B) (l : list node) :
  visits l m -> visits l (bind m (fun a => ret (f a))).
Proof.
  intros H. apply (visits_incl _ (l ++ [])); [rewrite app_nil_r; apply incl_refl|].
  apply visits_bind; [exact H|]. intros a. apply visits_ret.
Qed.

Lemma visits_mapM {A B : Type} (f : A -> M B) (h : A -> list node) (l : list A) :
  Forall (fun a => visits (h a) (f a)) l -> visits (flat_map h l) (mapM f l).
Proof.
  induction 1 as [|a l Ha Hl IH]; cbn [mapM flat_map].
  - apply visits_ret.
  - apply visits_bind; [exact Ha|]. intros b.
    apply visits_bind_ret. exact IH.
Qed.

Section Visits.
Variable g_literal_to_name : node -> result string.

Lemma visits_index_aggregate_to_name (c : node) :
  visits [] (index_aggregate_to_name c).
Proof.
  assert (Hv : visits [] (variable_to_name c)).
  { apply visits_table_step; [apply repeatable_variable_to_name|].
    intros ctx r ctx' Hwf H. now apply variable_to_name_step in H. }
  assert (Hl : visits [] (literal_to_name c)).
  { apply visits_table_step; [apply repeatable_literal_to_name|].
    intros ctx r ctx' Hwf H. now apply literal_to_name_step in H. }
  unfold index_aggregate_to_name.
  destruct (node_cls c); try exact Hv;
    destruct (is_Constant c); try exact Hl; apply visits_raise.
Qed.

Lemma visits_flex_idx_to_loopy (f : Z * list (index * Z)) :
  Forall (fun p => visits (index_reached (fst p))
                     (index_to_loopy g_literal_to_name (fst p))) (snd f) ->
  visits (flat_map (fun p => index_reached (fst p)) (snd f))
    (flex_idx_to_loopy (index_to_loopy g_literal_to_name) f).
Proof.
  destruct f as [off idxs]. simpl. generalize (p_Num (scalar_of_Z off)).
  induction idxs as [|[i st] idxs IH]; intros acc Hall.
  - apply visits_ret.
  - inversion Hall as [|? ? Hi Hrest]; subst. simpl in Hi.
    cbn [flat_map fst]. apply visits_bind; [exact Hi|]. intros x.
    apply IH. exact Hrest.
Qed.

(** A call of [rec_gem] leaves the node covered, with the nodes reached
    from it. *)
Lemma visits_rec_gem_with (n : node) (parent : option node) :
  visits (tl (reached n)) (expr_to_loopy g_literal_to_name n) ->
  visits (reached n) (rec_gem_with (expr_to_loopy g_literal_to_name) n parent).
Proof.
  intros [Al Vl].
  assert (Hr : reached n = n :: tl (reached n)) by (destruct n; reflexivity).
  split.
  - apply (advances_intro (S (node_size n))).
    + apply rec_gem_with_preserves, expr_to_loopy_preserves.
    + apply keeps_rec_gem_with, expr_to_loopy_keeps.
  - intros ctx r ctx' Hwf Hc H.
    change (rec_gem g_literal_to_name n parent ctx = Ok (r, ctx')) in H.
    rewrite rec_gem_unfold in H.
    destruct ((1 <? use_count ctx n)%nat && _is_cse_eligible n) eqn:C.
    + apply andb_true_iff in C as [C1 C2]. apply Nat.ltb_lt in C1.
      destruct (dict_get node_eqb (node_to_var_name ctx) n) as [v|] eqn:Em;
        [destruct (dict_get node_eqb (node_to_inames ctx) n) as [fis|] eqn:Er|].
      * pose proof (rec_gem_reference_step _ _ _ _ _ _ H) as [T _].
        destruct (proj1 (binds_rec_gem_reference g_literal_to_name _ _ _)
                    _ _ _ Hwf H) as [_ L].
        split; [eapply closed_quiet; eauto; apply (ts_memo _ _ T)|].
        eapply covered_later; [exact L|].
        apply (Hc n v). now apply (dict_get_Some_In node_eqb node_eqb_eq).
      * exfalso.
        pose proof (dict_get_same_keys node_eqb _ (node_to_var_name ctx) n
                      node_eqb_eq (eq_sym (wf_keys _ Hwf)) Er) as E'.
        congruence.
      * destruct (rec_gem_first_visit (expr_to_loopy g_literal_to_name) n ctx)
          as [[hit cf]|] eqn:Efv; [|discriminate].
        destruct (rec_gem_first_visit_binding g_literal_to_name _ _ _ _
                    Hwf Em C2 C1 Efv)
          as (result & c1 & inames & Hlow & W1 & Wf & U1 & Uf & _ & Hmiss1
              & M & _).
        destruct (Vl _ _ _ Hwf Hc Hlow) as [C1' V1].
        pose proof (rec_gem_reference_step _ _ _ _ _ _ H) as [T _].
        destruct (proj1 (binds_rec_gem_reference g_literal_to_name _ _ _)
                    _ _ _ Wf H) as [_ L].
        assert (Hcov : forall l, covered c1 l -> covered cf l).
        { intros l Hl m Hm He Hu.
          rewrite (use_count_eq c1 cf m Uf) in Hu.
          destruct (Hl m Hm He Hu) as (w & Hw).
          exists w. rewrite M. now apply dict_get_app_Some. }
        assert (Hn : covered cf (reached n)).
        { rewrite Hr. intros m [<-|Hm] He Hu; [|now apply (Hcov _ V1)].
          exists (fst hit). rewrite M, dict_get_app, Hmiss1. simpl.
          now rewrite (proj2 (node_eqb_eq n n) eq_refl). }
        assert (Hcf : closed cf).
        { intros m w Hin. rewrite M in Hin.
          apply in_app_or in Hin as [Hin|[Hin|[ ]]].
          - apply Hcov. eapply C1'; eauto.
          - injection Hin as <- <-. exact Hn. }
        split; [eapply closed_quiet; eauto; apply (ts_memo _ _ T)|].
        eapply covered_later; eauto.
    + destruct (Al _ _ _ Hwf H) as [_ L].
      destruct (Vl _ _ _ Hwf Hc H) as [C' V']. split; [exact C'|].
      rewrite Hr. intros m [<-|Hm] He Hu; [|now apply V'].
      exfalso. rewrite (use_count_eq ctx ctx' n (lt_count _ _ L)) in Hu.
      apply Nat.ltb_lt in Hu. rewrite Hu, He in C. discriminate.
Qed.

Lemma lowering_visits :
  (forall n, visits (tl (reached n)) (expr_to_loopy g_literal_to_name n)) /\
  (forall cls,
     match cls with
     | g_Indexed multiindex =>
         Forall (fun i => visits (index_reached i)
                            (index_to_loopy g_literal_to_name i)) multiindex
     | g_FlexiblyIndexed dim2idxs =>
         Forall (fun f =>
                   Forall (fun p => visits (index_reached (fst p))
                                      (index_to_loopy g_literal_to_name (fst p)))
                     (snd f))
           dim2idxs
     | _ => True
     end) /\
  (forall i, visits (index_reached i) (index_to_loopy g_literal_to_name i)).
Proof.
  apply node_mutind; try (intros; exact I).
  - intros cls Hcls children Hch fi. apply list_all_Forall in Hch.
    assert (Hkids : forall parent,
               Forall (fun c => visits (reached c)
                          (rec_gem_with (expr_to_loopy g_literal_to_name) c parent))
                 children).
    { intros parent. rewrite Forall_forall in *. intros c Hc.
      apply visits_rec_gem_with. auto. }
    assert (Hkid : forall c parent, In c children ->
               visits (reached c)
                 (rec_gem_with (expr_to_loopy g_literal_to_name) c parent)).
    { intros c parent Hc. rewrite Forall_forall in Hch.
      apply visits_rec_gem_with. auto. }
    assert (Hmulti : forall (A : Type) (k : list pexpr -> A) parent,
               visits (flat_map reached children)
                 (cs <- mapM (fun c => rec_gem_with
                                (expr_to_loopy g_literal_to_name) c parent)
                          children ;;
                  ret (k cs))).
    { intros A k parent. apply visits_bind_ret, visits_mapM, Hkids. }
    assert (Hpair : forall (k : pexpr -> pexpr -> pexpr),
               visits (flat_map reached children)
                 (match children with
                  | [x; y] =>
                      a <- rec_gem_with (expr_to_loopy g_literal_to_name) x
                             (Some (Node cls children fi)) ;;
                      b <- rec_gem_with (expr_to_loopy g_literal_to_name) y
                             (Some (Node cls children fi)) ;;
                      ret (k a b)
                  | _ => raise (ValueError "unpack")
                  end)).
    { intros k. destruct children as [|a [|b [|? ?]]]; try apply visits_raise.
      cbn [flat_map]. rewrite app_nil_r.
      apply visits_bind; [apply Hkid; simpl; auto|]. intros x.
      apply visits_bind_ret. apply Hkid; simpl; auto. }
    destruct cls; cbn [expr_to_loopy reached tl].
    + apply visits_raise.
    + unfold map_literal. destruct (nd_shape array); [apply visits_ret|].
      destruct (g_literal_to_name _); [apply visits_ret | apply visits_raise].
    + apply visits_raise.
    + unfold map_variable. apply visits_bind_ret.
      apply visits_table_step; [apply repeatable_variable_to_name|].
      intros ctx r ctx' Hwf H. now apply variable_to_name_step in H.
    + apply Hmulti.
    + apply Hmulti.
    + apply (Hpair p_Quotient).
    + apply (Hpair p_Power).
    + apply Hmulti.
    + apply Hmulti.
    + apply Hmulti.
    + apply (Hpair (fun a b => p_Comparison a operator b)).
    + unfold map_indexed. cbn [node_children].
      destruct children as [|a [|? ?]]; try apply visits_raise.
      apply (visits_bind _ _ []); [apply visits_index_aggregate_to_name|].
      intros name. apply visits_bind_ret.
      apply visits_mapM. exact Hcls.
    + unfold map_flexibly_indexed. cbn [node_children].
      destruct children as [|a [|? ?]]; try apply visits_raise.
      destruct (shape_eqb (node_shape a) [None]).
      * apply visits_bind_ret, visits_index_aggregate_to_name.
      * apply (visits_bind _ _ []); [apply visits_index_aggregate_to_name|].
        intros name. apply visits_bind_ret.
        apply visits_mapM. rewrite Forall_forall in *. intros f Hf.
        apply visits_flex_idx_to_loopy. auto.
    + unfold map_index_sum. cbn [node_children node_free_indices].
      destruct children as [|a [|? ?]]; try apply visits_raise.
      cbn [flat_map]. apply visits_bind; [apply Hkid; simpl; auto|].
      intros subexpr. apply visits_quiet; [apply repeatable_rule|].
      intros ctx r ctx' Hwf H. run_inv.
      apply name_gen_call_step in Hrun as ([ ] & _).
      apply mapM_index_to_iname_step in Hrun0 as [ ].
      apply mapM_index_to_iname_step in Hrun1 as [ ].
      simpl. congruence.
    + apply visits_raise.
  - intros multiindex H. now apply list_all_Forall in H.
  - intros dim2idxs H.
    induction H as [|f Hf l Hl IH]; constructor; [|exact IH].
    destruct Hf as [off _ idxs Hidxs]. simpl.
    induction Hidxs as [|p Hp l' Hl' IH']; constructor; [|exact IH'].
    destruct Hp as [i Hi st _]. exact Hi.
  - intros i. cbn [index_to_loopy index_reached]. unfold map_index.
    apply visits_bind_ret. apply visits_table_step; [apply repeatable_index_to_iname|].
    intros ctx r ctx' _. apply index_to_iname_step.
  - intros e IH. cbn [index_to_loopy index_reached]. unfold map_varindex.
    now apply visits_rec_gem_with.
  - intros z. apply visits_ret.
  - intros t. apply visits_raise.
Qed.

Lemma rec_gem_visits (n : node) (parent : option node) :
  visits (reached n) (rec_gem g_literal_to_name n parent).
Proof. apply visits_rec_gem_with, lowering_visits. Qed.

End Visits.

(** ** The instructions of the common subexpressions of a run *)

Lemma Forall2_In_l {A B : Type} (R : A -> B -> Prop) (l : list A) (l' : list B)
    (x : A) :
  Forall2 R l l' -> In x l ->
  exists l1 y l2, l' = l1 ++ y :: l2 /\ R x y.
Proof.
  induction 1 as [|a b l l' Hab Hl IH]; intros Hin; [destruct Hin|].
  destruct Hin as [->|Hin].
  - exists [], b, l'. auto.
  - destruct (IH Hin) as (l1 & y & l2 & -> & Hy).
    exists (b :: l1), y, l2. auto.
Qed.

Lemma NoDup_app_apart {A : Type} (l1 l2 : list A) (x : A) :
  NoDup (l1 ++ l2) -> In x l1 -> ~ In x l2.
Proof.
  induction l1 as [|a l1 IH]; simpl; intros Hnd Hin; [destruct Hin|].
  inversion Hnd as [|? ? Hna Hnd']; subst.
  destruct Hin as [->|Hin]; [|now apply IH].
  intros Hx. apply Hna, in_or_app. now right.
Qed.

Lemma map_Some_eq {A : Type} (l l' : list A) :
  map Some l = map Some l' -> l = l'.
Proof.
  revert l'. induction l as [|a l IH]; intros [|b l'] H; simpl in H;
    try discriminate; [reflexivity|].
  injection H as -> H. f_equal. now apply IH.
Qed.

Lemma cse_instructions_target (l : list (string * list string * pexpr))
    (insn : lp_Assignment) :
  In insn (cse_instructions l) ->
  exists a, In a l /\ target_name insn = Some (assignment_name a).
Proof.
  unfold cse_instructions. intros H. apply in_map_iff in H as (a & <- & Ha).
  exists a. split; [exact Ha|]. destruct a as [[v free] rhs].
  unfold target_name, subscr, assignment_name. simpl. now destruct free.
Qed.

Lemma mapM_map_index (l : list Index) :
  forall c idx c', mapM map_index l c = Ok (idx, c') ->
    exists rs, mapM index_to_iname l c = Ok (rs, c') /\ idx = map p_Variable rs.
Proof.
  induction l as [|i l IH]; intros c idx c' H; cbn [mapM] in H; run_inv.
  - exists []. auto.
  - unfold map_index in Hrun. run_inv.
    destruct (IH _ _ _ Hrun0) as (rs & Hrs & ->).
    exists (a1 :: rs). split; [|reflexivity].
    cbn [mapM]. unfold bind. rewrite Hrun1, Hrs. reflexivity.
Qed.

Section SharedNodes.
Variable g_literal_to_name : node -> result string.
Variable list_of_set : list string -> list string.

Lemma visits_inames (l : list Index) : visits [] (mapM index_to_iname l).
Proof.
  apply visits_table_step.
  - apply advances_mapM. intros i _. apply repeatable_index_to_iname.
  - intros ctx r ctx' _. apply mapM_index_to_iname_step.
Qed.

Lemma lower_rhs_visits (argument_ordering : list Index) (a : node * node) :
  visits (reached (snd a)) (lower_rhs g_literal_to_name argument_ordering a).
Proof.
  destruct a as [lhs n]. unfold lower_rhs. cbn [snd].
  apply (visits_incl _ (reached n ++ []));
    [rewrite app_nil_r; apply incl_refl|].
  apply visits_bind; [apply rec_gem_visits|]. intros rhs.
  apply visits_bind_ret, visits_inames.
Qed.

Lemma lower_rhs_binds (argument_ordering : list Index) (a : node * node) :
  binds g_literal_to_name (lower_rhs g_literal_to_name argument_ordering a).
Proof.
  destruct a as [lhs n]. unfold lower_rhs.
  apply binds_bind; [apply rec_gem_binds|]. intros rhs.
  apply binds_bind; [|intros; apply binds_ret].
  apply binds_mapM, binds_index_to_iname.
Qed.

(** When the right-hand sides have been lowered, the eligible nodes
    reached from them that are used more than once are in the memo, and
    every memo entry has its binding. *)
Lemma rhss_bound (argument_ordering : list Index) (ir : list (node * node))
    (expr_use_count : list (node * nat))
    (es : list (node * pexpr * list string)) (ctx1 : ConversionContext) :
  mapM (lower_rhs g_literal_to_name argument_ordering) ir
    (ConversionContext_init expr_use_count) = Ok (es, ctx1) ->
  bound g_literal_to_name ctx1 /\
  covered ctx1 (flat_map (fun a => reached (snd a)) ir).
Proof.
  intros H. split.
  - apply (proj2 (binds_mapM g_literal_to_name _ ir
                    (lower_rhs_binds argument_ordering)) _ _ _ (wf_init _) H).
    constructor.
  - assert (V : visits (flat_map (fun a => reached (snd a)) ir)
                  (mapM (lower_rhs g_literal_to_name argument_ordering) ir)).
    { apply visits_mapM, Forall_forall. intros a _. apply lower_rhs_visits. }
    apply (proj2 V _ _ _ (wf_init _)) in H; [apply H|].
    intros m v [ ].
Qed.

Lemma lower_lhss_advance (gi : bool) (es : list (node * pexpr * list string)) :
  advances (mapM (lower_lhs g_literal_to_name list_of_set gi) es).
Proof.
  apply advances_mapM. intros e _.
  apply (advances_intro (S (node_size (fst (fst e))))).
  - apply lower_lhs_preserves.
  - apply lower_lhs_declares.
Qed.

(** C3, as amended.  In a run that generates its instructions, let [n] be
    an eligible node whose use count after the pre-pass is greater than
    one and that [rec_gem] visits while the right-hand sides are lowered.
    Then the memo holds a temporary [var_name] for [n], and among all the
    instructions of the run exactly one assigns to [var_name]: it is
    tagged [cse], its target is [var_name] subscripted by the loop
    variables of the free indices of [n], which it depends on, and its
    expression is the one that [expr_to_loopy] returned for [n] in an
    earlier context of the run.  Every visit of [n] by [rec_gem] that ends
    in a context of the run returns the reference to [var_name] with the
    same subscripts; when the memo holds [n] at the start of the visit,
    the visit adds no binding, rule or memo entry. *)
Theorem cse_binding_instruction (ir : list (node * node))
    (argument_ordering : list Index) (generate_increments : bool)
    (lw : lowered) (n : node) :
  generate_instructions g_literal_to_name list_of_set ir argument_ordering
    generate_increments = Ok lw ->
  _is_cse_eligible n = true ->
  1 < count_of (fold_left (fun d a => count_subexpression_uses (snd a) d) ir []) n ->
  In n (flat_map (fun a => reached (snd a)) ir) ->
  exists var_name inames result before after,
    dict_get node_eqb (node_to_var_name (lw_ctx lw)) n = Some var_name /\
    dict_get node_eqb (node_to_inames (lw_ctx lw)) n = Some (node_free_indices n) /\
    In var_name (cse_names (lw_ctx lw)) /\
    map (iname_of (lw_ctx lw)) (node_free_indices n) = map Some inames /\
    (exists c c',
       wf c /\
       expr_to_loopy g_literal_to_name n c = Ok (result, c') /\
       later c' (lw_ctx lw)) /\
    lw_instructions lw =
      before ++
      mk_Assignment (subscr var_name inames) result (frozenset inames) true ["cse"]
      :: after /\
    (forall insn, In insn (before ++ after) -> target_name insn <> Some var_name) /\
    forall parent ctx r ctx',
      wf ctx ->
      rec_gem g_literal_to_name n parent ctx = Ok (r, ctx') ->
      later ctx' (lw_ctx lw) ->
      r = subscr var_name inames /\
      forall v, dict_get node_eqb (node_to_var_name ctx) n = Some v ->
        v = var_name /\
        assignments ctx' = assignments ctx /\
        subst_rules ctx' = subst_rules ctx /\
        node_to_var_name ctx' = node_to_var_name ctx /\
        node_to_inames ctx' = node_to_inames ctx /\
        cse_names ctx' = cse_names ctx.
Proof.
  intros H He Hu Hin.
  destruct (run_names_distinct _ _ _ _ _ _ H) as (targets & Hts & _ & [Dn _]).
  destruct (generate_instructions_inv _ _ _ _ _ _ H)
    as (ctx1 & E1 & E2 & Hcse & W1 & W2).
  destruct (rhss_bound _ _ _ _ _ E1) as [B Cov].
  destruct (mapM_wf _ _ _ (lower_rhs_preserves g_literal_to_name _) _ _ _
              (wf_init _) E1) as [_ C1].
  destruct (lower_lhss_advance _ _ _ _ _ W1 E2) as [_ L].
  assert (Hu1 : 1 < use_count ctx1 n).
  { unfold use_count. rewrite C1. exact Hu. }
  destruct (Cov n Hin He Hu1) as (v & Hv).
  assert (Hvf : dict_get node_eqb (node_to_var_name (lw_ctx lw)) n = Some v).
  { destruct (lt_memo _ _ L) as (t & ->). now apply dict_get_app_Some. }
  pose proof (dict_get_Some_In node_eqb node_eqb_eq _ _ _ Hv) as Hmem.
  destruct (Forall2_In_l _ _ _ _ B Hmem) as (a1 & a & a2 & Has & Hb).
  apply (binding_of_later g_literal_to_name _ _ _ _ L) in Hb.
  destruct a as [[nm inames] result].
  destruct Hb as (Hnm & Hlook & Hlow).
  unfold assignment_name in Hnm. simpl in Hnm, Hlook, Hlow. subst nm.
  assert (Hnd : NoDup (map assignment_name (a1 ++ (v, inames, result) :: a2))).
  { rewrite <- Has, <- (wf_memo_assign _ W1). apply (wf_memo_nodup _ W1). }
  assert (Hcn : In v (cse_names (lw_ctx lw))).
  { rewrite (wf_cse_names _ W2).
    apply (in_map snd) in Hmem. destruct (lt_memo _ _ L) as (t & ->).
    rewrite map_app. apply in_or_app. now left. }
  exists v, inames, result, (cse_instructions a1),
    (cse_instructions a2 ++ lw_ir_instructions lw).
  split; [exact Hvf|]. split.
  { destruct (dict_get node_eqb (node_to_inames (lw_ctx lw)) n) as [fis|] eqn:Er.
    - apply (dict_get_Some_In node_eqb node_eqb_eq) in Er.
      now rewrite (wf_recorded _ W2 _ _ Er).
    - pose proof (dict_get_same_keys node_eqb _ (node_to_var_name (lw_ctx lw)) n
                    node_eqb_eq (eq_sym (wf_keys _ W2)) Er) as E'.
      congruence. }
  split; [exact Hcn|]. split; [exact Hlook|]. split; [exact Hlow|]. split.
  { unfold lw_instructions. rewrite Hcse, Has. unfold cse_instructions.
    rewrite map_app. simpl. now rewrite <- app_assoc. }
  split.
  { intros insn Hi Ht.
    rewrite app_assoc in Hi. apply in_app_or in Hi as [Hi|Hi].
    - assert (Hi' : In insn (cse_instructions (a1 ++ a2))).
      { unfold cse_instructions in *. now rewrite map_app. }
      apply cse_instructions_target in Hi' as (a & Ha & Hta).
      rewrite Hta in Ht. injection Ht as Ht.
      rewrite map_app in Hnd. simpl in Hnd. apply NoDup_remove_2 in Hnd.
      apply Hnd. rewrite <- map_app. change (In v (map assignment_name (a1 ++ a2))).
      rewrite <- Ht. now apply in_map.
    - apply (in_map target_name) in Hi. rewrite Ht, Hts in Hi.
      apply in_map_iff in Hi as (t & Ht' & Hin'). injection Ht' as ->.
      apply (NoDup_app_apart _ _ _ Dn Hin').
      unfold all_names. do 3 (apply in_or_app; right).
      apply in_or_app. now left. }
  intros parent ctx r ctx' Wc Hr Lc.
  destruct (proj1 (rec_gem_binds g_literal_to_name n parent) _ _ _ Wc Hr)
    as [Wc' Lv].
  assert (Huc : 1 < use_count ctx n).
  { rewrite <- (use_count_eq ctx ctx' n (lt_count _ _ Lv)).
    rewrite <- (use_count_eq ctx' (lw_ctx lw) n (lt_count _ _ Lc)).
    now rewrite (use_count_eq ctx1 (lw_ctx lw) n (lt_count _ _ L)). }
  destruct (rec_gem_cse g_literal_to_name n parent ctx ctx' r Wc Huc He Hr)
    as (v' & Hm' & _ & _ & Href & _ & Hhit).
  assert (v' = v) as ->.
  { destruct (lt_memo _ _ Lc) as (t & Ht).
    rewrite Ht, (dict_get_app_Some node_eqb _ t _ _ Hm') in Hvf. congruence. }
  split.
  - destruct Href as [(Hfis & ->)|(Hfis & idx & c & Hidx & ->)].
    + rewrite Hfis in Hlook. destruct inames; [reflexivity | discriminate].
    + apply mapM_map_index in Hidx as (rs & Hrs & ->).
      pose proof (mapM_index_to_iname_lookup _ _ _ _ Hrs _ (grows_refl _)) as Hl'.
      apply (lookup_app ctx' (lw_ctx lw)) in Hl';
        [|apply (gr_idx _ _ (lt_grows _ _ Lc))].
      rewrite Hlook in Hl'. apply map_Some_eq in Hl' as <-.
      destruct inames; [|reflexivity].
      destruct (node_free_indices n); [congruence | discriminate].
  - intros v0 Hv0. destruct (Hhit v0 Hv0) as (-> & Hrest). auto.
Qed.

End SharedNodes.

Lemma cse_binding_instruction_witness :
  exists lw,
    generate_instructions gem_no_literal_to_name insertion_order
      [(a_i, sum_of_prods)] [index_i] false = Ok lw /\
    lw_instructions lw =
      [mk_Assignment (p_Subscript (p_Variable "cse") [p_Variable "i"])
         (p_Product [p_Subscript (p_Variable "b") [p_Variable "i"];
                     p_Subscript (p_Variable "c") [p_Variable "i"]])
         ["i"] true ["cse"];
       mk_Assignment (p_Subscript (p_Variable "a_0") [p_Variable "i"])
         (p_Sum [p_Subscript (p_Variable "cse") [p_Variable "i"];
                 p_Subscript (p_Variable "cse") [p_Variable "i"]])
         ["i"] true []] /\
    (exists r ctx',
       wf cse_ctx1 /\
       dict_get node_eqb (node_to_var_name cse_ctx1) prod_bc = Some "cse" /\
       rec_gem gem_no_literal_to_name prod_bc (Some sum_of_prods) cse_ctx1 =
         Ok (r, ctx') /\
       later ctx' (lw_ctx lw)) /\
    exists var_name inames result before after,
      dict_get node_eqb (node_to_var_name (lw_ctx lw)) prod_bc = Some var_name /\
      dict_get node_eqb (node_to_inames (lw_ctx lw)) prod_bc =
        Some (node_free_indices prod_bc) /\
      In var_name (cse_names (lw_ctx lw)) /\
      map (iname_of (lw_ctx lw)) (node_free_indices prod_bc) = map Some inames /\
      (exists c c',
         wf c /\
         expr_to_loopy gem_no_literal_to_name prod_bc c = Ok (result, c') /\
         later c' (lw_ctx lw)) /\
      lw_instructions lw =
        before ++
        mk_Assignment (subscr var_name inames) result (frozenset inames) true ["cse"]
        :: after /\
      (forall insn, In insn (before ++ after) -> target_name insn <> Some var_name) /\
      forall parent ctx r ctx',
        wf ctx ->
        rec_gem gem_no_literal_to_name prod_bc parent ctx = Ok (r, ctx') ->
        later ctx' (lw_ctx lw) ->
        r = subscr var_name inames /\
        forall v, dict_get node_eqb (node_to_var_name ctx) prod_bc = Some v ->
          v = var_name /\
          assignments ctx' = assignments ctx /\
          subst_rules ctx' = subst_rules ctx /\
          node_to_var_name ctx' = node_to_var_name ctx /\
          node_to_inames ctx' = node_to_inames ctx /\
          cse_names ctx' = cse_names ctx.
Proof.
  eexists. split; [vm_compute; reflexivity|].
  split; [vm_compute; reflexivity|]. split.
  { eexists. eexists.
    split; [|split; [reflexivity|split; [vm_compute; reflexivity|]]].
    - refine (proj1 (rec_gem_preserves gem_no_literal_to_name prod_bc None
                       cse_ctx0 _ cse_ctx1 (wf_init _) _)).
      vm_compute. reflexivity.
    - constructor; [constructor|..]; simpl;
        try (eexists; reflexivity); try reflexivity.
      intros x Hx. simpl in *. tauto. }
  apply (cse_binding_instruction gem_no_literal_to_name insertion_order
           [(a_i, sum_of_prods)] [index_i] false).
  - vm_compute. reflexivity.
  - reflexivity.
  - vm_compute. lia.
  - vm_compute. auto.
Defined.

(** ** The bindings that become instructions *)

Section LateBindings.
Variable g_literal_to_name : node -> result string.
Variable list_of_set : list string -> list string.

(** X17.  The instructions tagged [cse] of a run are built from the
    bindings made while the right-hand sides were lowered.  The lowering
    of the left-hand sides comes after: a binding that it makes is
    appended to the bindings and its name is added to [cse_names], but no
    instruction of the run assigns to it. *)
Theorem cse_instructions_from_rhs (ir : list (node * node))
    (argument_ordering : list Index) (generate_increments : bool) (lw : lowered) :
  generate_instructions g_literal_to_name list_of_set ir argument_ordering
    generate_increments = Ok lw ->
  exists ctx1 late,
    mapM (lower_rhs g_literal_to_name (dedup_argument_ordering argument_ordering))
      ir
      (ConversionContext_init
         (fold_left (fun d a => count_subexpression_uses (snd a) d) ir [])) =
      Ok (lw_exprs_and_free_inames lw, ctx1) /\
    mapM (lower_lhs g_literal_to_name list_of_set generate_increments)
      (lw_exprs_and_free_inames lw) ctx1 = Ok (lw_lhs lw, lw_ctx lw) /\
    lw_cse_instructions lw = cse_instructions (assignments ctx1) /\
    assignments (lw_ctx lw) = assignments ctx1 ++ late /\
    cse_names (lw_ctx lw) =
      map assignment_name (assignments ctx1) ++ map assignment_name late /\
    map target_name (lw_cse_instructions lw) =
      map Some (map assignment_name (assignments ctx1)) /\
    forall a insn,
      In a late -> In insn (lw_instructions lw) ->
      target_name insn <> Some (assignment_name a).
Proof.
  intros H.
  destruct (run_names_distinct _ _ _ _ _ _ H) as (targets & Hts & _ & [Dn _]).
  destruct (generate_instructions_inv _ _ _ _ _ _ H)
    as (ctx1 & E1 & E2 & Hcse & W1 & W2).
  destruct (mapM_extends _ _ _ (lower_lhs_preserves g_literal_to_name list_of_set _)
              _ _ _ W1 E2) as (s & Hs).
  destruct (ext_assignments _ _ _ Hs) as (late & Hlate).
  assert (Hcn : cse_names (lw_ctx lw) =
                map assignment_name (assignments ctx1) ++ map assignment_name late).
  { now rewrite (wf_cse_names _ W2), (wf_memo_assign _ W2), Hlate, map_app. }
  exists ctx1, late. split; [exact E1|]. split; [exact E2|]. split; [exact Hcse|].
  split; [exact Hlate|]. split; [exact Hcn|]. split.
  - rewrite Hcse, map_map. apply cse_instructions_spec.
  - intros a insn Ha Hi Ht.
    assert (Hnd : NoDup (map assignment_name (assignments ctx1) ++
                         map assignment_name late)).
    { rewrite <- Hcn, (wf_cse_names _ W2). apply (wf_memo_nodup _ W2). }
    apply in_app_or in Hi as [Hi|Hi].
    + rewrite Hcse in Hi. apply cse_instructions_target in Hi as (a' & Ha' & Hta).
      rewrite Hta in Ht. injection Ht as Ht.
      apply (NoDup_app_apart _ _ (assignment_name a') Hnd).
      * now apply in_map.
      * rewrite Ht. now apply in_map.
    + apply (in_map target_name) in Hi. rewrite Ht, Hts in Hi.
      apply in_map_iff in Hi as (t & Ht' & Hin'). injection Ht' as ->.
      apply (NoDup_app_apart _ _ _ Dn Hin').
      unfold all_names. do 3 (apply in_or_app; right).
      apply in_or_app. left. rewrite Hcn. apply in_or_app. right.
      now apply in_map.
Qed.

End LateBindings.

Lemma cse_instructions_from_rhs_witness :
  exists lw,
    generate_instructions gem_no_literal_to_name insertion_order late_binding_ir
      [index_i] false = Ok lw /\
    lw_cse_instructions lw = [] /\
    assignments (lw_ctx lw) = [("cse", [], p_Variable "b")] /\
    cse_names (lw_ctx lw) = ["cse"] /\
    map target_name (lw_instructions lw) = [Some "a_0"] /\
    exists ctx1 late,
      mapM (lower_rhs gem_no_literal_to_name (dedup_argument_ordering [index_i]))
        late_binding_ir
        (ConversionContext_init
           (fold_left (fun d a => count_subexpression_uses (snd a) d)
              late_binding_ir [])) =
        Ok (lw_exprs_and_free_inames lw, ctx1) /\
      mapM (lower_lhs gem_no_literal_to_name insertion_order false)
        (lw_exprs_and_free_inames lw) ctx1 = Ok (lw_lhs lw, lw_ctx lw) /\
      lw_cse_instructions lw = cse_instructions (assignments ctx1) /\
      assignments (lw_ctx lw) = assignments ctx1 ++ late /\
      cse_names (lw_ctx lw) =
        map assignment_name (assignments ctx1) ++ map assignment_name late /\
      map target_name (lw_cse_instructions lw) =
        map Some (map assignment_name (assignments ctx1)) /\
      forall a insn,
        In a late -> In insn (lw_instructions lw) ->
        target_name insn <> Some (assignment_name a).
Proof.
  eexists. split; [vm_compute; reflexivity|].
  split; [vm_compute; reflexivity|]. split; [vm_compute; reflexivity|].
  split; [vm_compute; reflexivity|]. split; [vm_compute; reflexivity|].
  apply (cse_instructions_from_rhs gem_no_literal_to_name insertion_order
           late_binding_ir [index_i] false).
  vm_compute. reflexivity.
Defined.
